(** * Knowledge-map layout and synchronisation: a shallow embedding

    The development follows [MindMapModal]: the height estimator
    [estimateSelfHeight], the sizing pass [calcHeight], the placement
    walk [add], the collision pass [runCollisionPass], the recentering
    loop, and the polling / push coordinator ([pollOnce], [onProgress],
    [closeEverything]).  Two further dialogs are embedded after it: the
    selection and the request of [WordCloudModal] ([handleDocToggle],
    [handleSelectAll], [generateWordCloud]) and the poll loop of
    [InsightsModal] ([requestInsights], [schedulePoll], [handleClose]).
    An asynchronous function is split at its [await]: one definition for
    the part that runs before, one for the part that runs when the
    request has settled.

    Numbers.  Heights are integers and live in [Z]; vertical and
    horizontal positions are halves and averages of integers and live in
    [Q], the exact rationals (the source uses IEEE doubles; every
    concrete evaluation below stays on small dyadic values, where the two
    agree).  Strings are Rocq strings; [String.length] stands for the
    source's [text.length].

    Containers.  [Set<string>] is a [gset string]; each [Map] is a
    [gmap]; the [newNodes] array is a list updated by index. *)

From Stdlib Require Import ZArith QArith Qabs Qminmax Lqa Lia Sorted.
From stdpp Require Import gmap strings list fin_maps pretty.

#[local] Set Warnings "-clear-no-such-hyp".

Local Open Scope Z_scope.

(** ** Data model *)

(** A topic node.  [_requiredHeight] is the attribute the sizing pass
    writes onto the node object; [None] stands for "never written". *)
Local Unset Elimination Schemes.

Inductive MindMapNode : Type :=
  MkNode {
      node_id : string;
      node_title : string;
      node_description : option string;
      node_children : list MindMapNode;
      _requiredHeight : option Z
    }.

Local Set Elimination Schemes.

Record XYPosition : Type := MkPos { pos_x : Q; pos_y : Q }.

Record NodeData : Type :=
  MkData {
      data_title : string;
      data_description : string;
      data_level : nat;
      data_isExpanded : bool;
      data_isDark : bool
    }.

(** A positioned node of the rendering surface (the constant fields
    [type], [sourcePosition] and [targetPosition] are left out). *)
Record FlowNode : Type :=
  MkFlowNode { fn_id : string; fn_position : XYPosition; fn_data : NodeData }.

Record FlowEdge : Type :=
  MkFlowEdge {
      fe_id : string;
      fe_source : string;
      fe_target : string;
      fe_animated : bool;
      fe_stroke : string;
      fe_strokeWidth : Q
    }.

(** JavaScript truthiness of an optional string. *)
Definition truthy (s : option string) : bool :=
  match s with
  | Some EmptyString => false
  | Some _ => true
  | None => false
  end.

(** [v || d] on an optional string. *)
Definition orString (s : option string) (d : string) : string :=
  match s with
  | Some EmptyString => d
  | Some v => v
  | None => d
  end.

(** [v || d] on an optional number. *)
Definition orNumber (v : option Z) (d : Z) : Z :=
  match v with
  | Some 0 => d
  | Some h => h
  | None => d
  end.

(** [Math.ceil (a / b)] for a non-negative integer [a] and positive [b]. *)
Definition ceilDiv (a b : Z) : Z := (a + b - 1) / b.

(** ** Colours *)

Definition BLUE_SCALE (i : nat) : string :=
  match i with
  | 0%nat => "hsl(249 84.7% 64.1%)"
  | 1%nat => "hsl(249 73.7% 59.8%)"
  | 2%nat => "hsl(248 55.1% 52%)"
  | 3%nat => "hsl(255 63.3% 40.6%)"
  | 4%nat => "hsl(258 74% 33.1%)"
  | _ => "hsl(258 78.2% 32.4%)"
  end.

Definition getEdgeStroke (level : nat) (isDark : bool) : string :=
  if isDark then
    match level with
    | 1%nat => BLUE_SCALE 3
    | 2%nat => BLUE_SCALE 4
    | 0%nat => BLUE_SCALE 2
    | _ => BLUE_SCALE 5
    end
  else
    match level with
    | 1%nat => BLUE_SCALE 1
    | 2%nat => BLUE_SCALE 2
    | 0%nat => BLUE_SCALE 0
    | _ => BLUE_SCALE 3
    end.

(** ** SizeEstimator *)

Section Layout.

(** The expansion set and the theme the layout callback closes over. *)
Variable expandedNodes : gset string.
Variable isDark : bool.

Definition baseCollapsed : Z := 72.

Definition estimateSelfHeight (n : MindMapNode) : Z :=
  let isExpanded := bool_decide (node_id n ∈ expandedNodes) in
  if negb isExpanded || negb (truthy (node_description n)) then baseCollapsed
  else
    let charsPerLine := 80 in
    let text := orString (node_description n) "" in
    let lines := ceilDiv (Z.of_nat (String.length text)) charsPerLine in
    let lineHeight := 18 in
    let padding := 36 in
    let SAFETY := 28 in
    let raw := baseCollapsed + padding + lines * lineHeight + SAFETY in
    let MAX_HEIGHT := baseCollapsed + padding + 220 in
    Z.min raw MAX_HEIGHT.

(** ** Bottom-up sizing *)

Definition minGap : Z := 48.

(** The loop [for (const c of n.children) total += calcHeight(c)],
    with the recursive call as a parameter. *)
Definition sumChildren (calc : MindMapNode -> Z * MindMapNode)
  : list MindMapNode -> Z -> Z * list MindMapNode :=
  fix loop (l : list MindMapNode) (total : Z) : Z * list MindMapNode :=
    match l with
    | [] => (total, [])
    | c :: r =>
        let '(hc, c') := calc c in
        let '(total', r') := loop r (total + hc) in
        (total', c' :: r')
    end.

(** [calcHeight] returns the height and the node as it is after the
    call, with [_requiredHeight] written on it and on every
    descendant. *)
Fixpoint calcHeight (n : MindMapNode) : Z * MindMapNode :=
  match n with
  | MkNode i t d cs _ =>
      match cs with
      | [] =>
          let h := Z.max 100 (estimateSelfHeight n) in
          (h, MkNode i t d cs (Some h))
      | _ :: _ =>
          let '(total, cs') := sumChildren calcHeight cs 0 in
          let self := estimateSelfHeight n in
          let childrenSpace := Z.max (total + Z.of_nat (length cs) * minGap) 100 in
          let h := Z.max self childrenSpace in
          (h, MkNode i t d cs' (Some h))
      end
  end.

(** [(mindMap.roots || []).forEach(calcHeight)] *)
Definition sizeRoots (roots : list MindMapNode) : list MindMapNode :=
  map (fun r => snd (calcHeight r)) roots.

(** ** Top-down placement *)

Definition horizontalSpacing : Z := 520.
Definition baseX : Z := 200.

(** The arrays and maps [add] fills in. *)
Record LayoutState : Type :=
  MkState {
      newNodes : list FlowNode;
      newEdges : list FlowEdge;
      levelMap : gmap nat (list string);
      childrenMap : gmap string (list string);
      parentMap : gmap string (option string);
      idToMindNode : gmap string MindMapNode
    }.

Definition emptyState : LayoutState := MkState [] [] ∅ ∅ ∅ ∅.

Definition edgeWidth (level : nat) : Q :=
  match level with
  | 1%nat => 3
  | 2%nat => 5 # 2
  | _ => 2
  end.

(** The part of [add] before the loop over the children. *)
Definition addSelf (n : MindMapNode) (parentId : option string) (level : nat)
  (allocatedY : Q) (allocatedH : Z) (st : LayoutState) : LayoutState :=
  let id := node_id n in
  let x := inject_Z (baseX + Z.of_nat level * horizontalSpacing) in
  let y := (allocatedY + inject_Z allocatedH / 2)%Q in
  let isExpanded := bool_decide (id ∈ expandedNodes) in
  let node :=
    MkFlowNode id (MkPos x y)
      (MkData (orString (Some (node_title n)) "Untitled")
         (orString (node_description n) "") level isExpanded isDark) in
  let edges :=
    if truthy parentId then
      let p := orString parentId "" in
      let stroke := getEdgeStroke level isDark in
      [MkFlowEdge ("e-" +:+ p +:+ "-" +:+ id) p id (Nat.eqb level 1) stroke
         (edgeWidth level)]
    else [] in
  MkState
    (newNodes st ++ [node])
    (newEdges st ++ edges)
    (<[level := default [] (levelMap st !! level) ++ [id]]> (levelMap st))
    (<[id := map node_id (node_children n)]> (childrenMap st))
    (<[id := parentId]> (parentMap st))
    (<[id := n]> (idToMindNode st)).

(** The loop over the children, with the recursive call as a parameter. *)
Definition addChildren
  (rec : MindMapNode -> option string -> nat -> Q -> Z -> LayoutState -> LayoutState)
  (id : string) (level : nat)
  : list MindMapNode -> Q -> LayoutState -> LayoutState :=
  fix loop (l : list MindMapNode) (childY : Q) (st : LayoutState) : LayoutState :=
    match l with
    | [] => st
    | c :: r =>
        let h := orNumber (_requiredHeight c) 100 in
        loop r (childY + inject_Z h)%Q (rec c (Some id) (S level) childY h st)
    end.

Fixpoint add (n : MindMapNode) (parentId : option string) (level : nat)
  (allocatedY : Q) (allocatedH : Z) (st : LayoutState) {struct n} : LayoutState :=
  match n with
  | MkNode id _ _ cs _ =>
      addChildren add id level cs allocatedY
        (addSelf n parentId level allocatedY allocatedH st)
  end.

(** The roots, one below another. *)
Fixpoint addRoots (roots : list MindMapNode) (rootY : Q) (st : LayoutState)
  : LayoutState :=
  match roots with
  | [] => st
  | r :: rest =>
      let rh := orNumber (_requiredHeight r) 200 in
      addRoots rest (rootY + inject_Z rh + 50)%Q (add r None 0 rootY rh st)
  end.

(** ** Collision resolution *)

(** [newNodes.forEach((n, idx) => idToIndex.set(n.id, idx))] *)
Fixpoint indexFrom (idx : nat) (ns : list FlowNode) (m : gmap string nat)
  : gmap string nat :=
  match ns with
  | [] => m
  | n :: rest => indexFrom (S idx) rest (<[fn_id n := idx]> m)
  end.

Definition Qltb (a b : Q) : bool := negb (Qle_bool b a).

(** Stable insertion sort; [le a b] stands for "the comparator does not
    put [b] before [a]". *)
Fixpoint insertBy {A : Type} (le : A -> A -> bool) (a : A) (l : list A) : list A :=
  match l with
  | [] => [a]
  | b :: r => if le a b then a :: b :: r else b :: insertBy le a r
  end.

Definition sortBy {A : Type} (le : A -> A -> bool) (l : list A) : list A :=
  foldr (insertBy le) [] l.

Definition nodeY (ns : list FlowNode) (i : nat) : Q :=
  match ns !! i with
  | Some p => pos_y (fn_position p)
  | None => 0%Q
  end.

Definition withY (p : FlowNode) (y : Q) : FlowNode :=
  MkFlowNode (fn_id p) (MkPos (pos_x (fn_position p)) y) (fn_data p).

Definition minVerticalGap : Z := 52.

Section Passes.

(** The maps are read-only once [add] has run; only [newNodes] is
    updated by the passes. *)
Variable lm : gmap nat (list string).
Variable cm : gmap string (list string).
Variable mind : gmap string MindMapNode.
Variable idToIndex : gmap string nat.

(** [idToIndex.get(id)!]: every id the passes look up was pushed by
    [add], so the default is not reached. *)
Definition indexOf (id : string) : nat := default 0%nat (idToIndex !! id).

Definition yOf (ns : list FlowNode) (id : string) : Q := nodeY ns (indexOf id).

Definition heightOf (id : string) : Z :=
  let est :=
    match mind !! id with
    | Some m => estimateSelfHeight m
    | None => 100
    end in
  Z.max 100 est.

(** The source recurses over [childrenMap] until the leaves; [fuel]
    bounds the depth, and [layoutFuel] below is never exhausted. *)
Fixpoint applyShiftRec (fuel : nat) (id : string) (dy : Q) (ns : list FlowNode)
  : list FlowNode :=
  match fuel with
  | O => ns
  | S fuel' =>
      let ns1 :=
        match idToIndex !! id with
        | Some idx =>
            match ns !! idx with
            | Some p => <[idx := withY p (pos_y (fn_position p) + dy)%Q]> ns
            | None => ns
            end
        | None => ns
        end in
      let kids := default [] (cm !! id) in
      fold_left (fun acc k => applyShiftRec fuel' k dy acc) kids ns1
  end.

(** One iteration of the inner loop of [runCollisionPass];
    [prevBottom = None] is [-Infinity]. *)
Definition collideStep (fuel : nat) (acc : option Q * list FlowNode) (id : string)
  : option Q * list FlowNode :=
  let '(prevBottom, ns) := acc in
  let h := inject_Z (heightOf id) in
  let y := yOf ns id in
  let top := (y - h / 2)%Q in
  match prevBottom with
  | None => (Some (top + h)%Q, ns)
  | Some pb =>
      let requiredTop := (pb + inject_Z minVerticalGap)%Q in
      if Qltb top requiredTop then
        let dy := (requiredTop - top)%Q in
        (Some (top + dy + h)%Q, applyShiftRec fuel id dy ns)
      else (Some (top + h)%Q, ns)
  end.

Definition collideLevel (fuel : nat) (ns : list FlowNode) (lvl : nat)
  : list FlowNode :=
  let ids :=
    sortBy (fun a b => Qle_bool (yOf ns a) (yOf ns b)) (default [] (lm !! lvl)) in
  snd (fold_left (collideStep fuel) ids (None, ns)).

(** [Array.from(levelMap.keys()).sort((a, b) => a - b)] *)
Definition levels : list nat := sortBy Nat.leb (map fst (map_to_list lm)).

Definition runCollisionPass (fuel : nat) (ns : list FlowNode) : list FlowNode :=
  fold_left (collideLevel fuel) levels ns.

(** ** Recentering *)

Definition maxLevel : nat := foldr Nat.max 0%nat levels.

Definition recenterNode (ns : list FlowNode) (id : string) : list FlowNode :=
  let kids := default [] (cm !! id) in
  match kids with
  | [] => ns
  | _ :: _ =>
      let ys := map (yOf ns) kids in
      let avg := (fold_left Qplus ys 0 / inject_Z (Z.of_nat (length ys)))%Q in
      let idx := indexOf id in
      match ns !! idx with
      | Some p => <[idx := withY p avg]> ns
      | None => ns
      end
  end.

Definition recenterLevel (ns : list FlowNode) (lvl : nat) : list FlowNode :=
  fold_left recenterNode (default [] (lm !! lvl)) ns.

(** [for (let lvl = maxLevel - 1; lvl >= 0; lvl--)] *)
Definition recenter (ns : list FlowNode) : list FlowNode :=
  fold_left recenterLevel (rev (seq 0 maxLevel)) ns.

End Passes.

(** ** The layout callback *)

(** The result of [convertMindMapToFlow]: the roots as the sizing pass
    left them, and the nodes and edges handed to [setNodes] and
    [setEdges]. *)
Record Layout : Type :=
  MkLayout { out_roots : list MindMapNode; out_nodes : list FlowNode; out_edges : list FlowEdge }.

Definition placed (roots : list MindMapNode) : LayoutState :=
  addRoots (sizeRoots roots) 50 emptyState.

Definition layoutFuel (st : LayoutState) : nat := S (length (newNodes st)).

Definition afterFirstPass (st : LayoutState) : list FlowNode :=
  let idToIndex := indexFrom 0 (newNodes st) ∅ in
  runCollisionPass (levelMap st) (childrenMap st) (idToMindNode st) idToIndex
    (layoutFuel st) (newNodes st).

Definition afterRecenter (st : LayoutState) : list FlowNode :=
  let idToIndex := indexFrom 0 (newNodes st) ∅ in
  recenter (levelMap st) (childrenMap st) idToIndex (afterFirstPass st).

Definition afterSecondPass (st : LayoutState) : list FlowNode :=
  let idToIndex := indexFrom 0 (newNodes st) ∅ in
  runCollisionPass (levelMap st) (childrenMap st) (idToMindNode st) idToIndex
    (layoutFuel st) (afterRecenter st).

Definition convertMindMapToFlow (roots : list MindMapNode) : Layout :=
  let st := placed roots in
  MkLayout (sizeRoots roots) (afterSecondPass st) (newEdges st).

End Layout.

(** ** Bounding box *)

Definition Qminimum (d : Q) (l : list Q) : Q :=
  match l with
  | [] => d
  | a :: r => fold_left Qmin r a
  end.

Definition Qmaximum (d : Q) (l : list Q) : Q :=
  match l with
  | [] => d
  | a :: r => fold_left Qmax r a
  end.

Definition translateExtent (nodes : list FlowNode) : option ((Q * Q) * (Q * Q)) :=
  match nodes with
  | [] => None
  | _ :: _ =>
      let xs := map (fun n => pos_x (fn_position n)) nodes in
      let ys := map (fun n => pos_y (fn_position n)) nodes in
      let minX := (Qminimum 0 xs - 300)%Q in
      let maxX := (Qmaximum 0 xs + 800)%Q in
      let minY := (Qminimum 0 ys - 300)%Q in
      let maxY := (Qmaximum 0 ys + 300)%Q in
      Some ((minX, minY), (maxX, maxY))
  end.

(** ** Expansion toggle *)

(** [onNodeClick] and [onToggle]: flip the membership of [id]. *)
Definition toggle (id : string) (prev : gset string) : gset string :=
  if bool_decide (id ∈ prev) then prev ∖ {[id]} else prev ∪ {[id]}.

(** ** SyncCoordinator *)

Record GlobalMindMap : Type :=
  MkMap { user_id : string; thread_id : string; roots : list MindMapNode }.

Record MindMapResponse : Type :=
  MkResponse {
      mind_map : bool;
      r_status : option bool;
      r_message : string;
      r_data : option GlobalMindMap
    }.

Record ProgressPayload : Type :=
  MkProgress {
      p_message : option string;
      p_status : option bool;
      p_data : option GlobalMindMap;
      p_completed : option bool
    }.

(** What [fetch] can do to a poll request. *)
Inductive FetchOutcome : Type :=
| NetworkError
| HttpError (code : nat)
| HttpOk (body : MindMapResponse)
| BadJson.

(** [api.getMindMap]: a response that is not ok becomes the fallback
    shape; a network error or an unparsable body rejects ([None]). *)
Definition getMindMap (o : FetchOutcome) : option MindMapResponse :=
  match o with
  | NetworkError => None
  | HttpError code =>
      Some (MkResponse false None
              ("Failed to fetch mind map (" +:+ pretty code +:+ ")") None)
  | HttpOk body => Some body
  | BadJson => None
  end.

Module Sync.

Inductive Socket : Type := Connected.

(** The component state the view renders from. *)
Record View : Type :=
  MkView {
      initialFetch : option MindMapResponse;
      mapData : option GlobalMindMap;
      status : option bool;
      message : string;
      showMessage : bool;
      expandedNodes : gset string
    }.

(** The refs. *)
Record Refs : Type :=
  MkRefs {
      pollingTimeoutRef : option nat;
      pollingActiveRef : bool;
      socketRef : option Socket;
      lastPayloadRef : string
    }.

(** The surroundings: the pending timeouts (handle to delay in
    milliseconds), the next fresh handle, and the number of requests
    [pollOnce] has issued. *)
Record Env : Type :=
  MkEnv { timers : gmap nat Z; nextTimer : nat; requests : nat }.

Record Coordinator : Type := MkCoord { view : View; refs : Refs; env : Env }.

Definition pollInterval : Z := 10000.

(** [if (pollingTimeoutRef.current) { clearTimeout(...); ... = null }] *)
Definition clearPollTimer (s : Coordinator) : Coordinator :=
  match pollingTimeoutRef (refs s) with
  | Some h =>
      MkCoord (view s)
        (MkRefs None (pollingActiveRef (refs s)) (socketRef (refs s))
           (lastPayloadRef (refs s)))
        (MkEnv (delete h (timers (env s))) (nextTimer (env s)) (requests (env s)))
  | None => s
  end.

Definition setActive (b : bool) (s : Coordinator) : Coordinator :=
  MkCoord (view s)
    (MkRefs (pollingTimeoutRef (refs s)) b (socketRef (refs s))
       (lastPayloadRef (refs s)))
    (env s).

Definition stopPolling (s : Coordinator) : Coordinator :=
  clearPollTimer (setActive false s).

Definition dropSocket (s : Coordinator) : Coordinator :=
  MkCoord (view s)
    (MkRefs (pollingTimeoutRef (refs s)) (pollingActiveRef (refs s)) None
       (lastPayloadRef (refs s)))
    (env s).

(** [closeEverything]; the effect cleanup and the branch taken when the
    view is not open run the same statements. *)
Definition closeEverything (s : Coordinator) : Coordinator :=
  dropSocket (stopPolling s).

Definition setMessage (m : string) (show : bool) (s : Coordinator) : Coordinator :=
  MkCoord
    (MkView (initialFetch (view s)) (mapData (view s)) (status (view s)) m show
       (expandedNodes (view s)))
    (refs s) (env s).

Definition setShowMessage (show : bool) (s : Coordinator) : Coordinator :=
  setMessage (message (view s)) show s.

(** The push-channel handler. *)
Definition onProgress (data : ProgressPayload) (s : Coordinator) : Coordinator :=
  let s1 :=
    match p_message data with
    | Some m => setMessage m true s
    | None => s
    end in
  match p_completed data with
  | Some true => setShowMessage false (dropSocket (stopPolling s1))
  | _ => s1
  end.

(** [pollingTimeoutRef.current = setTimeout(pollOnce, 10000)], guarded
    by the active flag. *)
Definition schedule (s : Coordinator) : Coordinator :=
  if pollingActiveRef (refs s) then
    let h := nextTimer (env s) in
    MkCoord (view s)
      (MkRefs (Some h) (pollingActiveRef (refs s)) (socketRef (refs s))
         (lastPayloadRef (refs s)))
      (MkEnv (<[h := pollInterval]> (timers (env s))) (S h) (requests (env s)))
  else s.

(** [pollOnce] up to its [await]: the request is issued only while the
    flag is set. *)
Definition pollOnce (s : Coordinator) : Coordinator :=
  if pollingActiveRef (refs s) then
    MkCoord (view s) (refs s)
      (MkEnv (timers (env s)) (nextTimer (env s)) (S (requests (env s))))
  else s.

Section Payload.

(** [JSON.stringify] on a response. *)
Variable stringify : MindMapResponse -> string.

(** The de-duplicated update of status and data. *)
Definition applyResponse (r : MindMapResponse) (s : Coordinator) : Coordinator :=
  let payload := stringify r in
  if bool_decide (payload = lastPayloadRef (refs s)) then s
  else
    let data' :=
      match r_status r, r_data r with
      | Some true, Some d => Some d
      | _, _ => mapData (view s)
      end in
    MkCoord
      (MkView (initialFetch (view s)) data' (r_status r) (message (view s))
         (showMessage (view s)) (expandedNodes (view s)))
      (MkRefs (pollingTimeoutRef (refs s)) (pollingActiveRef (refs s))
         (socketRef (refs s)) payload)
      (env s).

(** [pollOnce] after its [await], when the request resolved. *)
Definition pollResolved (r : MindMapResponse) (s : Coordinator) : Coordinator :=
  if pollingActiveRef (refs s) then
    let s1 := applyResponse r s in
    if mind_map r then schedule s1 else stopPolling s1
  else s.

(** [pollOnce] after its [await], when the request rejected: the
    [catch] only logs, then the reschedule guard runs. *)
Definition pollRejected (s : Coordinator) : Coordinator := schedule s.

Definition settle (o : FetchOutcome) (s : Coordinator) : Coordinator :=
  match getMindMap o with
  | Some r => pollResolved r s
  | None => pollRejected s
  end.

(** A pending timeout runs its callback once. *)
Definition timerFired (h : nat) (s : Coordinator) : Coordinator :=
  match timers (env s) !! h with
  | Some _ =>
      pollOnce
        (MkCoord (view s) (refs s)
           (MkEnv (delete h (timers (env s))) (nextTimer (env s))
              (requests (env s))))
  | None => s
  end.

(** The continuation of the first fetch made when the view opens. *)
Definition initialFetched (res : MindMapResponse) (s : Coordinator) : Coordinator :=
  let v := view s in
  let msg := orString (Some (r_message res)) "" in
  if mind_map res then
    let data' :=
      match r_status res, r_data res with
      | Some true, Some d => Some d
      | _, _ => mapData v
      end in
    pollOnce
      (MkCoord
         (MkView (Some res) data' (r_status res) msg (showMessage v)
            (expandedNodes v))
         (MkRefs (pollingTimeoutRef (refs s)) true (Some Connected)
            (lastPayloadRef (refs s)))
         (env s))
  else
    MkCoord
      (MkView (Some res) (mapData v) (status v) msg (showMessage v)
         (expandedNodes v))
      (refs s) (env s).

(** What can happen during one session of the view. *)
Inductive Event : Type :=
| Progress (data : ProgressPayload)
| TimerFired (h : nat)
| Settled (o : FetchOutcome)
| Close.

Definition step (s : Coordinator) (e : Event) : Coordinator :=
  match e with
  | Progress data => onProgress data s
  | TimerFired h => timerFired h s
  | Settled o => settle o s
  | Close => closeEverything s
  end.

Definition run (s : Coordinator) (es : list Event) : Coordinator :=
  fold_left step es s.


End Payload.

Definition initial : Coordinator :=
  MkCoord (MkView None None None "" true ∅) (MkRefs None false None "")
    (MkEnv ∅ 1 0).

End Sync.

(** ** Vocabulary of the statements *)

(** The nodes of a tree and of a forest, in the order [add] visits them. *)
Fixpoint nodesOf (n : MindMapNode) : list MindMapNode :=
  match n with
  | MkNode _ _ _ cs _ => n :: flat_map nodesOf cs
  end.

Definition forestNodes (roots : list MindMapNode) : list MindMapNode :=
  flat_map nodesOf roots.

Definition forestIds (roots : list MindMapNode) : list string :=
  map node_id (forestNodes roots).

(** A well-formed input: ids are unique within the forest. *)
Definition wellFormed (roots : list MindMapNode) : Prop := NoDup (forestIds roots).

(** The tree without the attribute written by the sizing pass. *)
Fixpoint eraseCache (n : MindMapNode) : MindMapNode :=
  match n with
  | MkNode i t d cs _ => MkNode i t d (map eraseCache cs) None
  end.

Definition requiredHeightOf (n : MindMapNode) : Z := default 0 (_requiredHeight n).

Definition sumRequired (cs : list MindMapNode) : Z :=
  foldr (fun c acc => requiredHeightOf c + acc) 0 cs.

Definition minLeafHeight : Z := 100.

(** The sizing rule at one node, with the number of gaps charged for
    [k] children left open. *)
Definition sizedWith (gaps : Z -> Z) (expanded : gset string) (m : MindMapNode)
  : Prop :=
  match node_children m with
  | [] =>
      _requiredHeight m = Some (Z.max minLeafHeight (estimateSelfHeight expanded m))
  | cs =>
      _requiredHeight m =
        Some (Z.max (estimateSelfHeight expanded m)
                (sumRequired cs + gaps (Z.of_nat (length cs)) * minGap))
  end.

(** The [y] of the positioned node with a given id. *)
Definition positionY (ns : list FlowNode) (a : string) : Q :=
  match find (fun p => String.eqb (fn_id p) a) ns with
  | Some p => pos_y (fn_position p)
  | None => 0%Q
  end.

(** The arithmetic mean. *)
Definition mean (l : list Q) : Q :=
  (foldr Qplus 0 l / inject_Z (Z.of_nat (length l)))%Q.

(** ** Example inputs *)

(** One parent with one collapsed leaf child. *)
Definition onlyChild : list MindMapNode :=
  [MkNode "p" "Parent" None [MkNode "c" "Child" None [] None] None].

(** A root with a leaf child and a second child that has one child. *)
Definition leafAndChain : list MindMapNode :=
  [MkNode "R" "t" None
     [MkNode "P0" "t" None [] None;
      MkNode "P1" "t" None [MkNode "c1" "t" None [] None] None]
     None].

(** A flow that exists but is not ready, and the same flow once ready. *)
Definition inProgress : MindMapResponse := MkResponse true (Some false) "working" None.

Definition ready : MindMapResponse :=
  MkResponse true (Some true) "ready" (Some (MkMap "u" "t" onlyChild)).

(** ** Induction on trees *)

Fixpoint MindMapNode_ind (P : MindMapNode -> Prop)
  (step : forall i t d cs r, Forall P cs -> P (MkNode i t d cs r))
  (n : MindMapNode) {struct n} : P n :=
  match n with
  | MkNode i t d cs r =>
      step i t d cs r
        ((fix all (l : list MindMapNode) : Forall P l :=
            match l with
            | [] => @List.Forall_nil _ P
            | c :: l' => @List.Forall_cons _ P c l' (MindMapNode_ind P step c) (all l')
            end) cs)
  end.

(** ** Vocabulary of the proofs *)

(** Two nodes keep their distance: the centers are at least the two
    half-heights plus the vertical gap apart. *)
Definition separated (E : gset string) (mind : gmap string MindMapNode)
  (idx : gmap string nat) (ns : list FlowNode) (a b : string) : Prop :=
  (inject_Z (heightOf E mind a) / 2 + inject_Z (heightOf E mind b) / 2
   + inject_Z minVerticalGap
   <= Qabs (yOf idx ns a - yOf idx ns b))%Q.

Section PassVocabulary.

Variable E : gset string.
Variable lm : gmap nat (list string).
Variable cm : gmap string (list string).
Variable mind : gmap string MindMapNode.
Variable idx : gmap string nat.
Variable lev : string -> nat.

Definition pairwiseSeparated (ns : list FlowNode) (l : list string) : Prop :=
  forall a b, a ∈ l -> b ∈ l -> a <> b -> separated E mind idx ns a b.

(** What holds between two iterations of the inner loop: [seen] are
    the ids already walked, [pb] is [prevBottom]. *)
Definition walked (seen : list string) (pb : option Q) (ns : list FlowNode) : Prop :=
  match pb with
  | None => seen = []
  | Some v =>
      forall a, a ∈ seen -> (yOf idx ns a + inject_Z (heightOf E mind a) / 2 <= v)%Q
  end
  /\ pairwiseSeparated ns seen.

Definition inRange (ns : list FlowNode) : Prop :=
  forall a i, idx !! a = Some i -> (i < length ns)%nat.

Definition belowUntouched (lvl : nat) (ns ns' : list FlowNode) : Prop :=
  forall b j, idx !! b = Some j -> (lev b < lvl)%nat -> nodeY ns' j = nodeY ns j.

(** The average as the loop computes it. *)
Definition averageY (ns : list FlowNode) (kids : list string) : Q :=
  (fold_left Qplus (map (yOf idx ns) kids) 0
   / inject_Z (Z.of_nat (length (map (yOf idx ns) kids))))%Q.

Definition centeredAt (ns : list FlowNode) (a : string) : Prop :=
  forall k kids, cm !! a = Some (k :: kids) ->
                 yOf idx ns a = averageY ns (k :: kids).

Definition levelOnlyTouched (lvl : nat) (ns ns' : list FlowNode) : Prop :=
  forall b j, idx !! b = Some j -> lev b <> lvl -> nodeY ns' j = nodeY ns j.

(** All ids of the levels in [ls] are centered. *)
Definition levelsCentered (ls : list nat) (ns : list FlowNode) : Prop :=
  forall l ids a, l ∈ ls -> lm !! l = Some ids -> a ∈ ids -> centeredAt ns a.

End PassVocabulary.

(** The arguments of one call of [add]. *)
Record AddCall : Type :=
  MkCall {
      call_node : MindMapNode;
      call_parent : option string;
      call_level : nat;
      call_y : Q;
      call_h : Z
    }.

Definition childCalls
  (rec : MindMapNode -> option string -> nat -> Q -> Z -> list AddCall)
  (id : string) (level : nat) : list MindMapNode -> Q -> list AddCall :=
  fix loop (l : list MindMapNode) (childY : Q) : list AddCall :=
    match l with
    | [] => []
    | c :: r =>
        let h := orNumber (_requiredHeight c) 100 in
        rec c (Some id) (S level) childY h ++ loop r (childY + inject_Z h)%Q
    end.

(** The calls of [add] made for one tree, in order. *)
Fixpoint calls (n : MindMapNode) (parentId : option string) (level : nat)
  (allocatedY : Q) (allocatedH : Z) {struct n} : list AddCall :=
  match n with
  | MkNode id _ _ cs _ =>
      MkCall n parentId level allocatedY allocatedH
        :: childCalls calls id level cs allocatedY
  end.

Fixpoint rootCalls (roots : list MindMapNode) (rootY : Q) : list AddCall :=
  match roots with
  | [] => []
  | r :: rest =>
      let rh := orNumber (_requiredHeight r) 200 in
      calls r None 0 rootY rh ++ rootCalls rest (rootY + inject_Z rh + 50)%Q
  end.

(** The nodes of a tree with their depth. *)
Fixpoint walk (level : nat) (n : MindMapNode) : list (nat * MindMapNode) :=
  match n with
  | MkNode _ _ _ cs _ => (level, n) :: flat_map (walk (S level)) cs
  end.

Definition forestWalk (roots : list MindMapNode) : list (nat * MindMapNode) :=
  flat_map (walk 0) roots.

(** The depth of the node with a given id. *)
Definition levelOfId (w : list (nat * MindMapNode)) (a : string) : nat :=
  match find (fun x => String.eqb (node_id (snd x)) a) w with
  | Some x => fst x
  | None => 0
  end.

Section CallVocabulary.

Variable E : gset string.
Variable isDark : bool.

Definition runCall (st : LayoutState) (c : AddCall) : LayoutState :=
  addSelf E isDark (call_node c) (call_parent c) (call_level c) (call_y c)
    (call_h c) st.

Definition callTag (c : AddCall) : nat * MindMapNode := (call_level c, call_node c).

(** The node a call pushes. *)
Definition callNode (c : AddCall) : FlowNode :=
  MkFlowNode (node_id (call_node c))
    (MkPos (inject_Z (baseX + Z.of_nat (call_level c) * horizontalSpacing))
       (call_y c + inject_Z (call_h c) / 2)%Q)
    (MkData (orString (Some (node_title (call_node c))) "Untitled")
       (orString (node_description (call_node c)) "") (call_level c)
       (bool_decide (node_id (call_node c) ∈ E)) isDark).

Definition callId (c : AddCall) : string := node_id (call_node c).

Definition callKids (c : AddCall) : list string :=
  map node_id (node_children (call_node c)).

(** The ids pushed at one level, in order. *)
Definition levelIds (l : nat) (ns : list FlowNode) : list string :=
  map fn_id (filter (fun q => data_level (fn_data q) = l) ns).

Definition levelMapOk (st : LayoutState) : Prop :=
  forall l, default [] (levelMap st !! l) = levelIds l (newNodes st).

End CallVocabulary.

(** Everything of a positioned node except its [y]. *)
Definition unY (p : FlowNode) : string * NodeData * Q :=
  (fn_id p, fn_data p, pos_x (fn_position p)).

(** ** Further parts of the view *)

Definition LIGHT_SURFACE : string := "hsl(249 85% 93%)".
Definition DARK_TEXT : string := "#ffffff".
Definition LIGHT_TEXT : string := "hsl(258 78.2% 32.4%)".

Definition getLevelBackground (level : nat) (isDark : bool) : string :=
  if isDark then
    match level with
    | 0%nat => BLUE_SCALE 2
    | 1%nat => BLUE_SCALE 3
    | 2%nat => BLUE_SCALE 4
    | _ => BLUE_SCALE 5
    end
  else
    match level with
    | 0%nat => BLUE_SCALE 0
    | 1%nat => BLUE_SCALE 1
    | 2%nat => BLUE_SCALE 2
    | _ => LIGHT_SURFACE
    end.

Definition getLevelBorder (level : nat) (isDark : bool) : string :=
  if isDark then
    match level with
    | 0%nat => BLUE_SCALE 3
    | 1%nat => BLUE_SCALE 4
    | 2%nat => BLUE_SCALE 5
    | _ => BLUE_SCALE 5
    end
  else
    match level with
    | 0%nat => BLUE_SCALE 1
    | 1%nat => BLUE_SCALE 2
    | 2%nat => BLUE_SCALE 3
    | _ => "hsl(249 64% 84%)"
    end.

Definition getMiniMapFill (level : nat) (isDark : bool) : string :=
  getLevelBackground level isDark.

(** What [getNodeColors] of the custom node returns. *)
Record NodeColors : Type :=
  MkColors {
      background : string;
      border : string;
      textColor : string;
      descClass : string;
      iconClass : string
    }.

Definition getNodeColors (level : nat) (isDark : bool) : NodeColors :=
  let onPrimarySurface := isDark || Nat.leb level 2 in
  MkColors (getLevelBackground level isDark) (getLevelBorder level isDark)
    (if onPrimarySurface then DARK_TEXT else LIGHT_TEXT)
    (if onPrimarySurface then "text-primary-foreground/90" else "text-foreground/80")
    (if onPrimarySurface then "text-primary-foreground/70" else "text-foreground/60").

(** The parent-to-child pairs of a tree in the order [add] pushes the
    edges; a parent whose id is the empty string is falsy and gets no
    edge. *)
Fixpoint treeEdges (n : MindMapNode) : list (string * string) :=
  match n with
  | MkNode id _ _ cs _ =>
      flat_map
        (fun c =>
           (if truthy (Some id) then [(id, node_id c)] else []) ++ treeEdges c)
        cs
  end.

Section EdgeVocabulary.

Variable isDark : bool.

(** The edge a call pushes, if any. *)
Definition callEdges (c : AddCall) : list FlowEdge :=
  if truthy (call_parent c) then
    let p := orString (call_parent c) "" in
    [MkFlowEdge ("e-" +:+ p +:+ "-" +:+ callId c) p (callId c)
       (Nat.eqb (call_level c) 1) (getEdgeStroke (call_level c) isDark)
       (edgeWidth (call_level c))]
  else [].

End EdgeVocabulary.

Definition edgePair (e : FlowEdge) : string * string := (fe_source e, fe_target e).

Definition callPairs (isDark : bool) (c : AddCall) : list (string * string) :=
  map edgePair (callEdges isDark c).

(** The edge into a node from a parent, as a pair. *)
Definition incomingPair (parentId : option string) (n : MindMapNode)
  : list (string * string) :=
  if truthy parentId then [(orString parentId "", node_id n)] else [].

(** What the layout shows of a tree node at depth [l], apart from its
    [y]: the id, the payload and the column. *)
Definition shownAs (E : gset string) (isDark : bool) (x : nat * MindMapNode)
  : string * NodeData * Q :=
  let '(l, m) := x in
  (node_id m,
   MkData (orString (Some (node_title m)) "Untitled")
     (orString (node_description m) "") l
     (bool_decide (node_id m ∈ E)) isDark,
   inject_Z (baseX + Z.of_nat l * horizontalSpacing)).

(** The fields of a walked node that sizing leaves alone. *)
Definition face (x : nat * MindMapNode) : nat * string * string * option string :=
  (fst x, node_id (snd x), node_title (snd x), node_description (snd x)).

(** The [y] at index [j], shifted by [dy] when [a] is among [ids]. *)
Definition shiftedIf (dy : Q) (ids : list string) (a : string) (ns : list FlowNode)
  (j : nat) : Q :=
  if decide (a ∈ ids) then (nodeY ns j + dy)%Q else nodeY ns j.

(** ** Requests in flight *)

Section InFlight.

Variable stringify : MindMapResponse -> string.

(** A request settles once.  The events of a session are replayed
    together with the number of requests that have been issued and have
    not settled yet: every event but [Settled] adds the requests it
    issues, a [Settled] event takes one away and cannot happen when none
    is outstanding. *)
Definition stepInFlight (sk : Sync.Coordinator * nat) (e : Sync.Event)
  : option (Sync.Coordinator * nat) :=
  let s' := Sync.step stringify (fst sk) e in
  let issued :=
    (Sync.requests (Sync.env s') - Sync.requests (Sync.env (fst sk)))%nat in
  match e with
  | Sync.Settled _ =>
      match snd sk with
      | O => None
      | S k => Some (s', k)
      end
  | _ => Some (s', (snd sk + issued)%nat)
  end.

Fixpoint runInFlight (sk : Sync.Coordinator * nat) (es : list Sync.Event)
  : option (Sync.Coordinator * nat) :=
  match es with
  | [] => Some sk
  | e :: es' =>
      match stepInFlight sk e with
      | Some sk' => runInFlight sk' es'
      | None => None
      end
  end.

End InFlight.

(** Every pending timeout is the one [pollingTimeoutRef] holds. *)
Definition timersHeld (s : Sync.Coordinator) : Prop :=
  forall h d, Sync.timers (Sync.env s) !! h = Some d ->
    Sync.pollingTimeoutRef (Sync.refs s) = Some h /\ d = Sync.pollInterval.

(** The loop holds at most one poll: with [k] requests in flight, either
    one request is in flight and no timeout is pending, or none is in
    flight and the only timeout that can be pending is the held one. *)
Definition onePoll (s : Sync.Coordinator) (k : nat) : Prop :=
  (k <= 1)%nat
  /\ (k = 1%nat -> Sync.timers (Sync.env s) = ∅)
  /\ timersHeld s.

(** ** The word-cloud dialog *)

Record Document : Type :=
  MkDocument {
      docId : string;
      doc_title : string;
      doc_type : string;
      time_uploaded : string;
      file_name : string
    }.

Module WordCloud.

(** The component state. *)
Record State : Type :=
  MkState {
      selectedDocs : list string;
      maxWords : Z;
      loading : bool;
      imageUrl : option string
    }.

Definition initial : State := MkState [] 1000 false None.

(** The body of the request [generateWordCloud] posts. *)
Record Request : Type := MkRequest { document_ids : list string; max_words : Z }.

Definition handleDocToggle (docId : string) (prev : list string) : list string :=
  if bool_decide (docId ∈ prev) then filter (fun id => id <> docId) prev
  else prev ++ [docId].

Definition handleSelectAll (documents : list Document) (selectedDocs : list string)
  : list string :=
  if (length selectedDocs =? length documents)%nat then []
  else map docId documents.

(** The change handler of the number input; [parsed] is the result of
    [parseInt], [None] for [NaN].  [parsed || 1000] replaces both [NaN]
    and [0]. *)
Definition onMaxWordsChange (parsed : option Z) : Z :=
  let value :=
    match parsed with
    | Some v => if (v =? 0)%Z then 1000 else v
    | None => 1000
    end in
  Z.min 100000 (Z.max 10 value).

(** [generateWordCloud] up to its [await]: the state it leaves and the
    request it posts, if any. *)
Definition generateWordCloud (s : State) : State * option Request :=
  if (length (selectedDocs s) =? 0)%nat then (s, None)
  else
    (MkState (selectedDocs s) (maxWords s) true None,
     Some (MkRequest (selectedDocs s) (maxWords s))).

(** [generateWordCloud] after its [await]: [Some url] when the response
    was ok and its blob got the object URL [url], [None] when the
    request failed or the response was not ok. *)
Definition generated (outcome : option string) (s : State) : State :=
  match outcome with
  | Some url => MkState (selectedDocs s) (maxWords s) false (Some url)
  | None => MkState (selectedDocs s) (maxWords s) false (imageUrl s)
  end.

Definition handleClose (open : bool) (s : State) : State :=
  if open then s else MkState [] 1000 (loading s) None.

(** The button shown with the image. *)
Definition generateNew (s : State) : State :=
  MkState (selectedDocs s) (maxWords s) (loading s) None.

Inductive Event : Type :=
| DocToggle (docId : string)
| SelectAll
| MaxWordsInput (parsed : option Z)
| Generate
| Generated (outcome : option string)
| OpenChange (open : bool)
| GenerateNew
| Download.

Definition step (documents : list Document) (s : State) (e : Event)
  : State * option Request :=
  match e with
  | DocToggle d =>
      (MkState (handleDocToggle d (selectedDocs s)) (maxWords s) (loading s)
         (imageUrl s), None)
  | SelectAll =>
      (MkState (handleSelectAll documents (selectedDocs s)) (maxWords s) (loading s)
         (imageUrl s), None)
  | MaxWordsInput parsed =>
      (MkState (selectedDocs s) (onMaxWordsChange parsed) (loading s) (imageUrl s),
       None)
  | Generate => generateWordCloud s
  | Generated outcome => (generated outcome s, None)
  | OpenChange open => (handleClose open s, None)
  | GenerateNew => (generateNew s, None)
  | Download => (s, None)
  end.

(** The state after the events and the requests posted on the way,
    oldest first. *)
Fixpoint run (documents : list Document) (s : State) (es : list Event)
  : State * list Request :=
  match es with
  | [] => (s, [])
  | e :: es' =>
      let (s1, req) := step documents s e in
      let (s2, reqs) := run documents s1 es' in
      (s2, match req with Some r => r :: reqs | None => reqs end)
  end.

End WordCloud.

(** The selection is a part of the documents' ids without repetition. *)
Definition selectionOk (documents : list Document) (s : WordCloud.State) : Prop :=
  NoDup (WordCloud.selectedDocs s)
  /\ WordCloud.selectedDocs s ⊆ map docId documents.

(** ** The insights dialog *)

Module Insights.

Definition ALL_DOCS_ID : string := "__ALL_DOCS__".

(** The delay [schedulePoll] gives to [setTimeout]. *)
Definition pollInterval : Z := 5000.

(** The three values of the [view] state. *)
Inductive Panel : Type := select | progress | display.

(** The two endpoints a request goes to. *)
Module api.

Inductive Call : Type :=
| insightsGlobal
| insights (documentId : string).

End api.

Definition callFor (docId : string) : api.Call :=
  if String.eqb docId ALL_DOCS_ID then api.insightsGlobal else api.insights docId.

Record Refs : Type :=
  MkRefs {
      pollingActiveRef : bool;
      timeoutRef : option nat;
      lastPolledDocRef : option string
    }.

(** The surroundings: the pending timeouts (handle to delay in
    milliseconds), the next fresh handle, and the requests issued so
    far, oldest first. *)
Record Env : Type :=
  MkEnv { timers : gmap nat Z; nextTimer : nat; calls : list api.Call }.

Definition handleToggle (docId : string) (prev : option string) : option string :=
  if bool_decide (prev = Some docId) then None else Some docId.

(** The update of the progress log:
    [msgs[msgs.length - 1] === m ? msgs : [...msgs, m]]. *)
Definition pushProgress (m : string) (msgs : list string) : list string :=
  if bool_decide (last msgs = Some m) then msgs else msgs ++ [m].

Section Output.

(** The insights themselves are handed on as they arrive. *)
Context {InsightsLLMOutput : Type}.

Record InsightsResponse : Type :=
  MkInsightsResponse {
      i_status : option bool;
      i_insights : option InsightsLLMOutput;
      i_message : option string;
      i_error : option string
    }.

(** The component state. *)
Record View : Type :=
  MkView {
      selectedDoc : option string;
      loading : bool;
      message : option string;
      insights : option InsightsLLMOutput;
      view : Panel;
      progressMessages : list string
    }.

Record Modal : Type := MkModal { ui : View; refs : Refs; env : Env }.

Definition initial : Modal :=
  MkModal (MkView None false None None select []) (MkRefs false None None)
    (MkEnv ∅ 1 []).

(** [if (timeoutRef.current) { clearTimeout(...); ... = null }] *)
Definition clearTimer (m : Modal) : Modal :=
  match timeoutRef (refs m) with
  | Some h =>
      MkModal (ui m)
        (MkRefs (pollingActiveRef (refs m)) None (lastPolledDocRef (refs m)))
        (MkEnv (delete h (timers (env m))) (nextTimer (env m)) (calls (env m)))
  | None => m
  end.

Definition setActive (b : bool) (m : Modal) : Modal :=
  MkModal (ui m) (MkRefs b (timeoutRef (refs m)) (lastPolledDocRef (refs m))) (env m).

Definition setLastPolledDoc (d : option string) (m : Modal) : Modal :=
  MkModal (ui m) (MkRefs (pollingActiveRef (refs m)) (timeoutRef (refs m)) d) (env m).

Definition setUi (v : View) (m : Modal) : Modal := MkModal v (refs m) (env m).

Definition issue (c : api.Call) (m : Modal) : Modal :=
  MkModal (ui m) (refs m)
    (MkEnv (timers (env m)) (nextTimer (env m)) (calls (env m) ++ [c])).

(** [schedulePoll]: a pending timeout is cleared before the new one is
    set. *)
Definition schedulePoll (m : Modal) : Modal :=
  let m1 := clearTimer m in
  let h := nextTimer (env m1) in
  MkModal (ui m1)
    (MkRefs (pollingActiveRef (refs m1)) (Some h) (lastPolledDocRef (refs m1)))
    (MkEnv (<[h := pollInterval]> (timers (env m1))) (S h) (calls (env m1))).

(** [requestInsights] up to its [await]. *)
Definition requestInsights (m : Modal) : Modal :=
  let v := ui m in
  if negb (truthy (selectedDoc v)) then m
  else
    issue (callFor (orString (selectedDoc v) ""))
      (setUi (MkView (selectedDoc v) true None None (view v) (progressMessages v)) m).

(** The two branches of [requestInsights] that show progress and start
    polling for [doc], the document selected when the request was made. *)
Definition awaitInsights (doc : string) (msg : string) (m : Modal) : Modal :=
  let v := ui m in
  schedulePoll
    (setActive true
       (setLastPolledDoc (Some doc)
          (setUi
             (MkView (selectedDoc v) (loading v) (Some msg) (insights v) progress
                (pushProgress msg (progressMessages v))) m))).

(** [requestInsights] after its [await]; [None] is a rejected request. *)
Definition requestSettled (doc : string) (o : option InsightsResponse) (m : Modal)
  : Modal :=
  let m1 :=
    match o with
    | Some res =>
        match i_status res, i_insights res with
        | Some true, Some i =>
            let v := ui m in
            let shown :=
              MkView (selectedDoc v) (loading v) (message v) (Some i) display
                (progressMessages v) in
            clearTimer (setActive false (setUi shown m))
        | _, _ =>
            if bool_decide (i_status res = Some false) && truthy (i_message res)
            then awaitInsights doc (orString (i_message res) "") m
            else if truthy (i_error res) then m
            else awaitInsights doc "Generating insights..." m
        end
    | None => m
    end in
  let v := ui m1 in
  setUi
    (MkView (selectedDoc v) false (message v) (insights v) (view v)
       (progressMessages v)) m1.

(** The callback of the timeout up to its [await]. *)
Definition timerFired (h : nat) (m : Modal) : Modal :=
  match timers (env m) !! h with
  | Some _ =>
      let m1 :=
        MkModal (ui m) (refs m)
          (MkEnv (delete h (timers (env m))) (nextTimer (env m)) (calls (env m))) in
      if negb (pollingActiveRef (refs m1)) then m1
      else if negb (truthy (lastPolledDocRef (refs m1))) then m1
      else issue (callFor (orString (lastPolledDocRef (refs m1)) "")) m1
  | None => m
  end.

(** The callback after its [await]; [None] is a rejected request. *)
Definition pollSettled (o : option InsightsResponse) (m : Modal) : Modal :=
  let again (m1 : Modal) : Modal :=
    if pollingActiveRef (refs m1) then schedulePoll m1 else m1 in
  match o with
  | Some res =>
      match i_status res, i_insights res with
      | Some true, Some i =>
          let v := ui m in
          setActive false
            (setUi
               (MkView (selectedDoc v) (loading v) None (Some i) display
                  (progressMessages v)) m)
      | _, _ =>
          if truthy (i_message res) then
            let v := ui m in
            let msg := orString (i_message res) "" in
            again
              (setUi
                 (MkView (selectedDoc v) (loading v) (Some msg) (insights v) progress
                    (pushProgress msg (progressMessages v))) m)
          else again m
      end
  | None => again m
  end.

Definition handleClose (open : bool) (m : Modal) : Modal :=
  if open then m
  else
    setLastPolledDoc None
      (clearTimer (setActive false (setUi (MkView None false None None select []) m))).

(** The effect on [open]. *)
Definition openEffect (open : bool) (m : Modal) : Modal :=
  if open then m else clearTimer (setActive false m).

(** The button of the progress panel. *)
Definition backToDocuments (m : Modal) : Modal :=
  let m1 := clearTimer (setActive false m) in
  let v := ui m1 in
  setUi (MkView None (loading v) None (insights v) select []) m1.

Definition clearSelection (m : Modal) : Modal :=
  let v := ui m in
  setUi
    (MkView None (loading v) (message v) (insights v) (view v) (progressMessages v)) m.

Definition toggleDoc (docId : string) (m : Modal) : Modal :=
  let v := ui m in
  setUi
    (MkView (handleToggle docId (selectedDoc v)) (loading v) (message v) (insights v)
       (view v) (progressMessages v)) m.

(** What can happen to the dialog.  [RequestSettled] carries the
    document that was selected when its request was made. *)
Inductive Event : Type :=
| Toggle (docId : string)
| ClearSelection
| RequestInsights
| RequestSettled (doc : string) (o : option InsightsResponse)
| TimerFired (h : nat)
| PollSettled (o : option InsightsResponse)
| DialogChange (open : bool)
| OpenProp (open : bool)
| BackToDocuments.

Definition step (m : Modal) (e : Event) : Modal :=
  match e with
  | Toggle d => toggleDoc d m
  | ClearSelection => clearSelection m
  | RequestInsights => requestInsights m
  | RequestSettled doc o => requestSettled doc o m
  | TimerFired h => timerFired h m
  | PollSettled o => pollSettled o m
  | DialogChange open => handleClose open m
  | OpenProp open => openEffect open m
  | BackToDocuments => backToDocuments m
  end.

Definition run (m : Modal) (es : list Event) : Modal := fold_left step es m.

End Output.

End Insights.

(** No entry of the log repeats the one before it. *)
Definition noRepeat (l : list string) : Prop :=
  forall i a b, l !! i = Some a -> l !! S i = Some b -> a <> b.

(** Every pending timeout of the insights dialog is the one [timeoutRef]
    holds, set to the poll interval. *)
Definition insightsTimerHeld {O : Type} (m : @Insights.Modal O) : Prop :=
  forall h d, Insights.timers (Insights.env m) !! h = Some d ->
    Insights.timeoutRef (Insights.refs m) = Some h /\ d = Insights.pollInterval.

(** The events that are not a request for insights or the answer to one. *)
Definition noRequest {O : Type} (e : @Insights.Event O) : Prop :=
  match e with
  | Insights.RequestInsights | Insights.RequestSettled _ _ => False
  | _ => True
  end.

(** A stopped dialog: the flag is clear and no timeout is pending. *)
Definition stopped {O : Type} (m : @Insights.Modal O) : Prop :=
  Insights.pollingActiveRef (Insights.refs m) = false
  /\ Insights.timers (Insights.env m) = ∅.

(** Two expanded leaves with a description of 100 characters under one
    root. *)
Definition longText : string :=
  "A description long enough to take more than one line of eighty characters when the node is expanded.".

Definition twoExpanded : list MindMapNode :=
  [MkNode "R" "t" None
     [MkNode "A" "t" (Some longText) [] None;
      MkNode "B" "t" (Some longText) [] None]
     None].


(** * Theorems *)

(** ** SizeEstimator and sizing: basic facts *)

Section SizingFacts.

Variable E : gset string.

Lemma estimateSelfHeight_fields n m :
  node_id n = node_id m ->
  node_description n = node_description m ->
  estimateSelfHeight E n = estimateSelfHeight E m.
Proof. intros Hi Hd. unfold estimateSelfHeight. now rewrite Hi, Hd. Qed.

Lemma estimateSelfHeight_lower n : 72 <= estimateSelfHeight E n.
Proof.
  unfold estimateSelfHeight, baseCollapsed, ceilDiv.
  destruct (negb _ || negb _); [lia|].
  assert (0 <= (Z.of_nat (String.length (orString (node_description n) "")) + 80 - 1) / 80)
    by (apply Z.div_pos; lia).
  lia.
Qed.

Lemma estimateSelfHeight_upper n : estimateSelfHeight E n <= 328.
Proof.
  unfold estimateSelfHeight, baseCollapsed.
  destruct (negb _ || negb _); lia.
Qed.

Lemma sumChildren_spec (calc : MindMapNode -> Z * MindMapNode) cs total :
  sumChildren calc cs total =
    (total + foldr (fun c acc => fst (calc c) + acc) 0 cs, map (fun c => snd (calc c)) cs).
Proof.
  revert total. induction cs as [|c cs IH]; intros total; simpl.
  - f_equal. lia.
  - destruct (calc c) as [hc c']. rewrite IH. simpl. f_equal. lia.
Qed.

Lemma calcHeight_leaf i t d r :
  calcHeight E (MkNode i t d [] r) =
    (Z.max 100 (estimateSelfHeight E (MkNode i t d [] r)),
     MkNode i t d [] (Some (Z.max 100 (estimateSelfHeight E (MkNode i t d [] r))))).
Proof. reflexivity. Qed.

Lemma calcHeight_inner i t d c cs r :
  calcHeight E (MkNode i t d (c :: cs) r) =
    let total := foldr (fun c acc => fst (calcHeight E c) + acc) 0 (c :: cs) in
    let h :=
      Z.max (estimateSelfHeight E (MkNode i t d (c :: cs) r))
        (Z.max (total + Z.of_nat (length (c :: cs)) * minGap) 100) in
    (h, MkNode i t d (map (fun c => snd (calcHeight E c)) (c :: cs)) (Some h)).
Proof.
  cbv zeta. change (calcHeight E (MkNode i t d (c :: cs) r)) with
    (let '(total, cs') := sumChildren (calcHeight E) (c :: cs) 0 in
     let self := estimateSelfHeight E (MkNode i t d (c :: cs) r) in
     let childrenSpace := Z.max (total + Z.of_nat (length (c :: cs)) * minGap) 100 in
     let h := Z.max self childrenSpace in
     (h, MkNode i t d cs' (Some h))).
  rewrite sumChildren_spec. reflexivity.
Qed.

Lemma calcHeight_cached n :
  _requiredHeight (snd (calcHeight E n)) = Some (fst (calcHeight E n)).
Proof.
  destruct n as [i t d [|c cs] r].
  - now rewrite calcHeight_leaf.
  - now rewrite calcHeight_inner.
Qed.

Lemma calcHeight_id n : node_id (snd (calcHeight E n)) = node_id n.
Proof.
  destruct n as [i t d [|c cs] r].
  - now rewrite calcHeight_leaf.
  - now rewrite calcHeight_inner.
Qed.

Lemma calcHeight_description n :
  node_description (snd (calcHeight E n)) = node_description n.
Proof.
  destruct n as [i t d [|c cs] r].
  - now rewrite calcHeight_leaf.
  - now rewrite calcHeight_inner.
Qed.

Lemma calcHeight_title n : node_title (snd (calcHeight E n)) = node_title n.
Proof.
  destruct n as [i t d [|c cs] r].
  - now rewrite calcHeight_leaf.
  - now rewrite calcHeight_inner.
Qed.

Lemma calcHeight_children n :
  node_children (snd (calcHeight E n)) =
    map (fun c => snd (calcHeight E c)) (node_children n).
Proof.
  destruct n as [i t d [|c cs] r].
  - now rewrite calcHeight_leaf.
  - now rewrite calcHeight_inner.
Qed.

Lemma calcHeight_lower n : 100 <= fst (calcHeight E n).
Proof.
  destruct n as [i t d [|c cs] r].
  - rewrite calcHeight_leaf. simpl. lia.
  - rewrite calcHeight_inner. simpl. lia.
Qed.

Lemma sumRequired_sized cs :
  sumRequired (map (fun c => snd (calcHeight E c)) cs) =
    foldr (fun c acc => fst (calcHeight E c) + acc) 0 cs.
Proof.
  induction cs as [|c cs IH]; simpl; [reflexivity|].
  unfold requiredHeightOf. rewrite calcHeight_cached, IH. reflexivity.
Qed.

Lemma sum_heights_lower cs :
  100 * Z.of_nat (length cs) <= foldr (fun c acc => fst (calcHeight E c) + acc) 0 cs.
Proof.
  induction cs as [|c cs IH]; simpl length; simpl foldr; [lia|].
  pose proof (calcHeight_lower c). lia.
Qed.

(** The sizing pass does not look at what an earlier pass cached. *)
Lemma calcHeight_eraseCache n : calcHeight E (eraseCache n) = calcHeight E n.
Proof.
  induction n as [i t d cs r IH] using MindMapNode_ind.
  destruct cs as [|c cs].
  - reflexivity.
  - simpl eraseCache. rewrite !calcHeight_inner. cbv zeta.
    assert (Hf : foldr (fun c acc => fst (calcHeight E c) + acc) 0
                   (map eraseCache (c :: cs)) =
                 foldr (fun c acc => fst (calcHeight E c) + acc) 0 (c :: cs)).
    { clear -IH. induction IH as [|x l Hx _ IHl]; simpl; [reflexivity|].
      simpl in IHl. now rewrite Hx, IHl. }
    assert (Hm : map (fun c => snd (calcHeight E c)) (map eraseCache (c :: cs)) =
                 map (fun c => snd (calcHeight E c)) (c :: cs)).
    { clear -IH. induction IH as [|x l Hx _ IHl]; simpl; [reflexivity|].
      simpl in IHl. now rewrite Hx, IHl. }
    change (eraseCache c :: map eraseCache cs) with (map eraseCache (c :: cs)).
    rewrite Hf, Hm, length_map.
    reflexivity.
Qed.

Lemma eraseCache_calcHeight n : eraseCache (snd (calcHeight E n)) = eraseCache n.
Proof.
  induction n as [i t d cs r IH] using MindMapNode_ind.
  destruct cs as [|c cs].
  - reflexivity.
  - rewrite calcHeight_inner. cbv zeta. cbn [snd].
    change (MkNode i t d (map eraseCache (map (fun c0 => snd (calcHeight E c0)) (c :: cs))) None
            = MkNode i t d (map eraseCache (c :: cs)) None).
    f_equal.
    clear -IH. induction IH as [|x l Hx _ IHl]; [reflexivity|].
    cbn [map]. now rewrite Hx, IHl.
Qed.

Lemma calcHeight_cache_independent n m :
  eraseCache n = eraseCache m -> calcHeight E n = calcHeight E m.
Proof.
  intros H. rewrite <- (calcHeight_eraseCache n), <- (calcHeight_eraseCache m).
  now rewrite H.
Qed.

Lemma sizeRoots_cache_independent rs rs' :
  map eraseCache rs = map eraseCache rs' -> sizeRoots E rs = sizeRoots E rs'.
Proof.
  revert rs'. induction rs as [|r rs IH]; intros [|r' rs'] H; simpl in H;
    try discriminate; [reflexivity|].
  injection H as Hr Hrs. unfold sizeRoots. simpl.
  rewrite (calcHeight_cache_independent r r' Hr). f_equal. now apply IH.
Qed.

Lemma sizeRoots_erase rs : map eraseCache (sizeRoots E rs) = map eraseCache rs.
Proof.
  unfold sizeRoots. induction rs as [|r rs IH]; simpl; [reflexivity|].
  now rewrite eraseCache_calcHeight, IH.
Qed.

(** Every node of a sized tree obeys the sizing rule of the code: one
    gap is charged per child. *)
Lemma calcHeight_sized n m :
  m ∈ nodesOf (snd (calcHeight E n)) -> sizedWith (fun k => k) E m.
Proof.
  revert m. induction n as [i t d cs r IH] using MindMapNode_ind. intros m Hm.
  destruct cs as [|c cs].
  - rewrite calcHeight_leaf in Hm. simpl in Hm.
    apply list_elem_of_singleton in Hm. subst m. reflexivity.
  - rewrite calcHeight_inner in Hm. cbv zeta in Hm. cbn [snd] in Hm.
    set (cs' := map (fun c0 => snd (calcHeight E c0)) (c :: cs)) in *.
    cbn [nodesOf] in Hm. apply elem_of_cons in Hm. destruct Hm as [->|Hm].
    + unfold sizedWith. cbn [node_children _requiredHeight].
      assert (Hne : cs' <> []) by (subst cs'; discriminate).
      destruct cs' as [|c' rest] eqn:Hcs'; [congruence|]. rewrite <- Hcs'.
      clear Hcs' Hne. subst cs'. rewrite sumRequired_sized, length_map.
      f_equal.
      pose proof (sum_heights_lower (c :: cs)) as Hlow.
      assert (0 < Z.of_nat (length (c :: cs))) by (simpl length; lia).
      unfold minGap in *.
      match goal with
      | |- context [estimateSelfHeight E (MkNode i t d (map ?f ?l) ?x)] =>
          rewrite (estimateSelfHeight_fields (MkNode i t d (map f l) x)
                     (MkNode i t d (c :: cs) r) eq_refl eq_refl)
      end.
      lia.
    + apply list_elem_of_In, in_flat_map in Hm. destruct Hm as [x [Hx Hmx]].
      subst cs'. apply in_map_iff in Hx. destruct Hx as [c0 [<- Hc0]].
      rewrite Forall_forall in IH.
      apply (IH c0); [now apply list_elem_of_In|now apply list_elem_of_In].
Qed.

End SizingFacts.

(** ** C1: the sizing rule *)

(** C1, as stated, fails: with [childCount - 1] gaps the parent of a
    single collapsed leaf would need height 100, while the sizing pass
    stores 148. *)
Lemma sizing_with_one_gap_less_fails :
  ~ (forall (E : gset string) (roots : list MindMapNode) (m : MindMapNode),
        wellFormed roots ->
        m ∈ forestNodes (sizeRoots E roots) ->
        sizedWith (fun k => k - 1) E m).
Proof.
  intros H.
  specialize (H ∅ onlyChild
                (MkNode "p" "Parent" None [MkNode "c" "Child" None [] (Some 100)]
                   (Some 148))).
  assert (Hwf : wellFormed onlyChild).
  { unfold wellFormed. vm_compute. repeat constructor; set_solver. }
  assert (Hin : MkNode "p" "Parent" None [MkNode "c" "Child" None [] (Some 100)]
                  (Some 148) ∈ forestNodes (sizeRoots ∅ onlyChild)).
  { vm_compute. left. }
  specialize (H Hwf Hin). vm_compute in H. discriminate H.
Qed.

(** C1, amended: after the sizing pass every leaf stores
    [max (100, selfHeight)] and every internal node stores
    [max (selfHeight, sum of the children's requiredHeight
    + childCount * minGap)]: one gap per child. *)
Theorem sizing_charges_one_gap_per_child
  (E : gset string) (roots : list MindMapNode) (m : MindMapNode) :
  m ∈ forestNodes (sizeRoots E roots) ->
  sizedWith (fun k => k) E m.
Proof.
  intros Hm. apply list_elem_of_In, in_flat_map in Hm.
  destruct Hm as [r' [Hr' Hm]]. unfold sizeRoots in Hr'.
  apply in_map_iff in Hr'. destruct Hr' as [r [<- _]].
  apply (calcHeight_sized E r). now apply list_elem_of_In.
Qed.

Lemma sizing_charges_one_gap_per_child_witness :
  MkNode "p" "Parent" None [MkNode "c" "Child" None [] (Some 100)] (Some 148)
    ∈ forestNodes (sizeRoots ∅ onlyChild)
  /\ sizedWith (fun k => k) ∅
       (MkNode "p" "Parent" None [MkNode "c" "Child" None [] (Some 100)] (Some 148)).
Proof.
  split.
  - vm_compute. left.
  - apply (sizing_charges_one_gap_per_child ∅ onlyChild). vm_compute. left.
Defined.

(** ** C10: nodes without a description *)

Lemma NoDup_map_inj {A B : Type} (f : A -> B) (l : list A) (x y : A) :
  NoDup (map f l) -> x ∈ l -> y ∈ l -> f x = f y -> x = y.
Proof.
  induction l as [|a l IH]; intros Hnd Hx Hy Hf.
  - inversion Hx.
  - simpl in Hnd. apply NoDup_cons in Hnd. destruct Hnd as [Ha Hnd].
    apply elem_of_cons in Hx. apply elem_of_cons in Hy.
    destruct Hx as [->|Hx], Hy as [->|Hy]; auto.
    + exfalso. apply Ha. rewrite Hf. apply list_elem_of_In, in_map.
      now apply list_elem_of_In.
    + exfalso. apply Ha. rewrite <- Hf. apply list_elem_of_In, in_map.
      now apply list_elem_of_In.
Qed.

Lemma estimateSelfHeight_no_description (E : gset string) n :
  truthy (node_description n) = false -> estimateSelfHeight E n = baseCollapsed.
Proof.
  intros H. unfold estimateSelfHeight. rewrite H.
  now rewrite orb_true_r.
Qed.

Lemma estimateSelfHeight_same_flag (E E' : gset string) n :
  (node_id n ∈ E <-> node_id n ∈ E') ->
  estimateSelfHeight E n = estimateSelfHeight E' n.
Proof.
  intros H. unfold estimateSelfHeight.
  now rewrite (bool_decide_ext _ _ H).
Qed.

(** The sizing pass sees the expansion set only through the estimator. *)
Lemma calcHeight_estimates (E E' : gset string) n :
  (forall m, m ∈ nodesOf n -> estimateSelfHeight E m = estimateSelfHeight E' m) ->
  calcHeight E n = calcHeight E' n.
Proof.
  induction n as [i t d cs r IH] using MindMapNode_ind. intros Hest.
  destruct cs as [|c cs].
  - rewrite !calcHeight_leaf. rewrite (Hest (MkNode i t d [] r)); [reflexivity|].
    simpl. left.
  - rewrite !calcHeight_inner. cbv zeta.
    rewrite (Hest (MkNode i t d (c :: cs) r)) by (cbn [nodesOf]; left).
    assert (Hall : Forall (fun c => calcHeight E c = calcHeight E' c) (c :: cs)).
    { rewrite Forall_forall in IH. apply Forall_forall. intros x Hx.
      apply IH; [exact Hx|]. intros m Hm. apply Hest. cbn [nodesOf]. right.
      apply list_elem_of_In, in_flat_map. exists x.
      split; now apply list_elem_of_In. }
    assert (Hf : foldr (fun c acc => fst (calcHeight E c) + acc) 0 (c :: cs) =
                 foldr (fun c acc => fst (calcHeight E' c) + acc) 0 (c :: cs)).
    { clear -Hall. induction Hall as [|x l Hx _ IHl]; [reflexivity|].
      cbn [foldr]. now rewrite Hx, IHl. }
    assert (Hm : map (fun c => snd (calcHeight E c)) (c :: cs) =
                 map (fun c => snd (calcHeight E' c)) (c :: cs)).
    { clear -Hall. induction Hall as [|x l Hx _ IHl]; [reflexivity|].
      cbn [map]. now rewrite Hx, IHl. }
    now rewrite Hf, Hm.
Qed.

Lemma sizeRoots_estimates (E E' : gset string) roots :
  (forall m, m ∈ forestNodes roots -> estimateSelfHeight E m = estimateSelfHeight E' m) ->
  sizeRoots E roots = sizeRoots E' roots.
Proof.
  intros Hest. unfold sizeRoots. apply map_ext_in. intros r Hr.
  f_equal. apply calcHeight_estimates. intros m Hm. apply Hest.
  apply list_elem_of_In, in_flat_map. exists r. split; [exact Hr|].
  now apply list_elem_of_In.
Qed.

(** C10: a node without a (non-empty) description is estimated at the
    collapsed baseline whatever the expansion set holds, and in a
    well-formed forest adding its id to the expansion set, or removing
    it, changes no estimated height and no required height. *)
Theorem descriptionless_expansion_is_inert
  (E : gset string) (roots : list MindMapNode) (n : MindMapNode) :
  truthy (node_description n) = false ->
  wellFormed roots ->
  n ∈ forestNodes roots ->
  estimateSelfHeight (E ∪ {[node_id n]}) n = baseCollapsed
  /\ (forall m, m ∈ forestNodes roots ->
        estimateSelfHeight (E ∪ {[node_id n]}) m = estimateSelfHeight E m
        /\ estimateSelfHeight (E ∖ {[node_id n]}) m = estimateSelfHeight E m)
  /\ sizeRoots (E ∪ {[node_id n]}) roots = sizeRoots E roots
  /\ sizeRoots (E ∖ {[node_id n]}) roots = sizeRoots E roots.
Proof.
  intros Hd Hwf Hn.
  assert (Hall : forall m, m ∈ forestNodes roots ->
        estimateSelfHeight (E ∪ {[node_id n]}) m = estimateSelfHeight E m
        /\ estimateSelfHeight (E ∖ {[node_id n]}) m = estimateSelfHeight E m).
  { intros m Hm. destruct (decide (node_id m = node_id n)) as [Heq|Hne].
    - assert (m = n) by (eapply NoDup_map_inj; eauto). subst m.
      now rewrite !estimateSelfHeight_no_description.
    - split; apply estimateSelfHeight_same_flag; set_solver. }
  split; [now apply estimateSelfHeight_no_description|].
  split; [exact Hall|].
  split; apply sizeRoots_estimates; intros m Hm; now apply Hall.
Qed.

Lemma descriptionless_expansion_is_inert_witness :
  let n := MkNode "c" "Child" None [] None in
  truthy (node_description n) = false
  /\ estimateSelfHeight ({[ "p" ]} ∪ {[node_id n]}) n = baseCollapsed
  /\ sizeRoots ({[ "p" ]} ∪ {[node_id n]}) onlyChild = sizeRoots {[ "p" ]} onlyChild.
Proof.
  intros n.
  assert (Hwf : wellFormed onlyChild).
  { unfold wellFormed. vm_compute. repeat constructor; set_solver. }
  assert (Hin : n ∈ forestNodes onlyChild).
  { vm_compute. right. left. }
  pose proof (descriptionless_expansion_is_inert {[ "p" ]} onlyChild n eq_refl Hwf Hin)
    as (H1 & _ & H2 & _).
  split; [reflexivity|]. split; [exact H1|exact H2].
Defined.

(** ** C3 and C9: the layout is a function of the tree and of the
    expansion set *)

Lemma convertMindMapToFlow_cache_independent
  (E : gset string) (isDark : bool) (rs rs' : list MindMapNode) :
  map eraseCache rs = map eraseCache rs' ->
  convertMindMapToFlow E isDark rs = convertMindMapToFlow E isDark rs'.
Proof.
  intros H. unfold convertMindMapToFlow, placed.
  now rewrite (sizeRoots_cache_independent E rs rs' H).
Qed.

Lemma convertMindMapToFlow_rerun (E E' : gset string) (isDark : bool) rs :
  convertMindMapToFlow E isDark (out_roots (convertMindMapToFlow E' isDark rs)) =
    convertMindMapToFlow E isDark rs.
Proof.
  apply convertMindMapToFlow_cache_independent. simpl.
  apply sizeRoots_erase.
Qed.

Lemma toggle_toggle (id : string) (E : gset string) : toggle id (toggle id E) = E.
Proof.
  unfold toggle. destruct (bool_decide (id ∈ E)) eqn:Hin.
  - apply bool_decide_eq_true in Hin.
    rewrite bool_decide_eq_false_2 by set_solver.
    apply set_eq. intros x. destruct (decide (x = id)); set_solver.
  - apply bool_decide_eq_false in Hin.
    rewrite bool_decide_eq_true_2 by set_solver.
    apply set_eq. intros x. destruct (decide (x = id)); set_solver.
Qed.

(** C3: a second run of the layout, on the tree as the first run left
    it, yields the same nodes, edges and bounding box; and the estimated
    height of a node is a function of the node and of its expanded flag
    alone. *)
Theorem layout_is_deterministic :
  (forall (E : gset string) (isDark : bool) (roots : list MindMapNode),
      let first := convertMindMapToFlow E isDark roots in
      let second := convertMindMapToFlow E isDark (out_roots first) in
      out_nodes second = out_nodes first
      /\ out_edges second = out_edges first
      /\ translateExtent (out_nodes second) = translateExtent (out_nodes first))
  /\ exists height : MindMapNode -> bool -> Z,
      forall (E : gset string) (n : MindMapNode),
        estimateSelfHeight E n = height n (bool_decide (node_id n ∈ E)).
Proof.
  split.
  - intros E isDark roots first second. subst first second.
    rewrite convertMindMapToFlow_rerun. auto.
  - exists (fun (n : MindMapNode) (expanded : bool) =>
              if expanded then estimateSelfHeight ({[node_id n]} : gset string) n
              else estimateSelfHeight (∅ : gset string) n).
    intros E n. destruct (bool_decide (node_id n ∈ E)) eqn:Hin.
    + apply bool_decide_eq_true in Hin.
      apply estimateSelfHeight_same_flag. set_solver.
    + apply bool_decide_eq_false in Hin.
      apply estimateSelfHeight_same_flag. set_solver.
Qed.

(** C9: toggling a node into the expansion set and out again, with a
    full layout after each toggle, gives back the nodes, edges and
    bounding box of the layout before the expansion. *)
Theorem expand_then_collapse_restores_layout
  (E : gset string) (isDark : bool) (roots : list MindMapNode) (id : string) :
  let before := convertMindMapToFlow E isDark roots in
  let expanded := convertMindMapToFlow (toggle id E) isDark (out_roots before) in
  let collapsed :=
    convertMindMapToFlow (toggle id (toggle id E)) isDark (out_roots expanded) in
  out_nodes collapsed = out_nodes before
  /\ out_edges collapsed = out_edges before
  /\ translateExtent (out_nodes collapsed) = translateExtent (out_nodes before).
Proof.
  intros before expanded collapsed. subst before expanded collapsed.
  rewrite toggle_toggle, !convertMindMapToFlow_rerun. auto.
Qed.

(** ** SyncCoordinator *)

Section SyncFacts.

Import Sync.

Variable stringify : MindMapResponse -> string.

Ltac crush_coord :=
  repeat match goal with
    | s : Coordinator |- _ => destruct s as [[? ? ? ? ? ?] [? ? ? ?] [? ? ?]]
    end;
  cbn in *.

Lemma stopPolling_inactive s : pollingActiveRef (refs (stopPolling s)) = false.
Proof. crush_coord. unfold stopPolling, clearPollTimer, setActive; cbn.
       now destruct pollingTimeoutRef0. Qed.

Lemma stopPolling_timer s : pollingTimeoutRef (refs (stopPolling s)) = None.
Proof. crush_coord. unfold stopPolling, clearPollTimer, setActive; cbn.
       now destruct pollingTimeoutRef0. Qed.

Lemma stopPolling_view s : view (stopPolling s) = view s.
Proof. crush_coord. unfold stopPolling, clearPollTimer, setActive; cbn.
       now destruct pollingTimeoutRef0. Qed.

Lemma stopPolling_requests s : requests (env (stopPolling s)) = requests (env s).
Proof. crush_coord. unfold stopPolling, clearPollTimer, setActive; cbn.
       now destruct pollingTimeoutRef0. Qed.

Lemma stopPolling_lastPayload s :
  lastPayloadRef (refs (stopPolling s)) = lastPayloadRef (refs s).
Proof. crush_coord. unfold stopPolling, clearPollTimer, setActive; cbn.
       now destruct pollingTimeoutRef0. Qed.

Lemma closeEverything_inactive s :
  pollingActiveRef (refs (closeEverything s)) = false.
Proof. unfold closeEverything, dropSocket. cbn. apply stopPolling_inactive. Qed.

Lemma closeEverything_timer s :
  pollingTimeoutRef (refs (closeEverything s)) = None.
Proof. unfold closeEverything, dropSocket. cbn. apply stopPolling_timer. Qed.

Lemma onProgress_completed_inactive data s :
  p_completed data = Some true ->
  pollingActiveRef (refs (onProgress data s)) = false.
Proof.
  intros H. unfold onProgress. rewrite H. cbn. apply stopPolling_inactive.
Qed.

Lemma onProgress_completed_timer data s :
  p_completed data = Some true ->
  pollingTimeoutRef (refs (onProgress data s)) = None.
Proof.
  intros H. unfold onProgress. rewrite H. cbn. apply stopPolling_timer.
Qed.

Lemma onProgress_requests data s :
  requests (env (onProgress data s)) = requests (env s).
Proof.
  unfold onProgress.
  destruct (p_completed data) as [[|]|]; destruct (p_message data); cbn;
    rewrite ?stopPolling_requests; reflexivity.
Qed.

(** A settled request is dropped when the flag is clear. *)
Lemma settle_inactive o s :
  pollingActiveRef (refs s) = false -> settle stringify o s = s.
Proof.
  intros H. unfold settle, pollResolved, pollRejected, schedule.
  rewrite H. now destruct (getMindMap o).
Qed.

Lemma pollOnce_inactive s : pollingActiveRef (refs s) = false -> pollOnce s = s.
Proof. intros H. unfold pollOnce. now rewrite H. Qed.

(** Nothing in a session sets the flag again once it is clear, and no
    request is issued while it is clear. *)
Lemma step_inactive s e :
  pollingActiveRef (refs s) = false ->
  pollingActiveRef (refs (step stringify s e)) = false
  /\ requests (env (step stringify s e)) = requests (env s)
  /\ (pollingTimeoutRef (refs s) = None ->
      pollingTimeoutRef (refs (step stringify s e)) = None).
Proof.
  intros H. destruct e as [data|h|o|]; cbn [step].
  - unfold onProgress.
    destruct (p_completed data) as [[|]|]; destruct (p_message data); cbn;
      rewrite ?stopPolling_inactive, ?stopPolling_requests, ?stopPolling_timer;
      auto.
  - unfold timerFired. destruct (timers (env s) !! h); [|auto].
    rewrite pollOnce_inactive by exact H. auto.
  - rewrite settle_inactive by exact H. auto.
  - rewrite closeEverything_inactive, closeEverything_timer.
    unfold closeEverything, dropSocket. cbn. rewrite stopPolling_requests. auto.
Qed.

Lemma run_inactive es : forall s,
  pollingActiveRef (refs s) = false ->
  pollingActiveRef (refs (run stringify s es)) = false
  /\ requests (env (run stringify s es)) = requests (env s)
  /\ (pollingTimeoutRef (refs s) = None ->
      pollingTimeoutRef (refs (run stringify s es)) = None).
Proof.
  induction es as [|e es IH]; intros s H; [cbn; auto|].
  cbn [run fold_left]. destruct (step_inactive s e H) as (Ha & Hr & Ht).
  destruct (IH _ Ha) as (Ha' & Hr' & Ht'). fold (run stringify (step stringify s e) es).
  rewrite Hr' , Hr. auto.
Qed.



End SyncFacts.

(** C5: a push event leaves every part of the view other than the
    message and its visibility as it was (status, map data, expansion
    set, first response), and also the de-duplication payload; a settled
    poll leaves the message, its visibility, the expansion set and the
    first response as they were. *)
Theorem channels_write_disjoint_fields
  (stringify : MindMapResponse -> string) (s : Sync.Coordinator) :
  (forall data : ProgressPayload,
      let s' := Sync.onProgress data s in
      Sync.view s' =
        Sync.MkView (Sync.initialFetch (Sync.view s)) (Sync.mapData (Sync.view s))
          (Sync.status (Sync.view s)) (Sync.message (Sync.view s'))
          (Sync.showMessage (Sync.view s')) (Sync.expandedNodes (Sync.view s))
      /\ Sync.lastPayloadRef (Sync.refs s') = Sync.lastPayloadRef (Sync.refs s))
  /\ (forall o : FetchOutcome,
        let s' := Sync.settle stringify o s in
        Sync.view s' =
          Sync.MkView (Sync.initialFetch (Sync.view s)) (Sync.mapData (Sync.view s'))
            (Sync.status (Sync.view s')) (Sync.message (Sync.view s))
            (Sync.showMessage (Sync.view s)) (Sync.expandedNodes (Sync.view s))).
Proof.
  split.
  - intros data. cbv zeta. unfold Sync.onProgress.
    destruct (p_completed data) as [[|]|]; destruct (p_message data); cbn;
      rewrite ?stopPolling_view, ?stopPolling_lastPayload; cbn;
      destruct s as [[? ? ? ? ? ?] ? ?]; cbn; auto.
  - intros o. cbv zeta.
    unfold Sync.settle, Sync.pollResolved, Sync.pollRejected, Sync.schedule,
      Sync.applyResponse.
    destruct s as [[? ? ? ? ? ?] [? act ? ?] [? ? ?]]; cbn.
    destruct (getMindMap o) as [r|]; cbn; destruct act; cbn; try reflexivity.
    destruct (bool_decide _); cbn; destruct (mind_map r); cbn;
      rewrite ?stopPolling_view; cbn; reflexivity.
Qed.

(** C6: handling a completed signal issues no request, and after it no
    event of the session (push events, timeouts, settled requests,
    close) issues one: the request count stays at its value at the
    moment of completion, the flag stays clear and no timeout is held. *)
Theorem no_poll_after_completed
  (stringify : MindMapResponse -> string) (s : Sync.Coordinator)
  (data : ProgressPayload) (es : list Sync.Event) :
  p_completed data = Some true ->
  let completed := Sync.onProgress data s in
  Sync.requests (Sync.env completed) = Sync.requests (Sync.env s)
  /\ Sync.requests (Sync.env (Sync.run stringify completed es)) =
       Sync.requests (Sync.env s)
  /\ Sync.pollingActiveRef (Sync.refs (Sync.run stringify completed es)) = false
  /\ Sync.pollingTimeoutRef (Sync.refs (Sync.run stringify completed es)) = None.
Proof.
  intros Hc completed. subst completed.
  pose proof (onProgress_completed_inactive data s Hc) as Ha.
  pose proof (onProgress_completed_timer data s Hc) as Ht.
  destruct (run_inactive stringify es _ Ha) as (Ha' & Hr' & Ht').
  rewrite Hr', onProgress_requests. auto.
Qed.

(** As long as the view stays closed, a request that settles after
    [closeEverything], whatever its outcome, leaves the whole state as
    it is. *)
Lemma late_settlement_after_close_changes_nothing
  (stringify : MindMapResponse -> string) (s : Sync.Coordinator)
  (outcomes : list FetchOutcome) :
  let closed := Sync.closeEverything s in
  Sync.run stringify closed (map Sync.Settled outcomes) = closed.
Proof.
  intros closed. induction outcomes as [|o os IH]; [reflexivity|].
  cbn [map Sync.run fold_left Sync.step].
  rewrite settle_inactive by apply closeEverything_inactive. exact IH.
Qed.



(** ** The passes over [newNodes] *)

(** Linear arithmetic over [Q] with the injected integers abstracted. *)
Ltac qlra :=
  repeat match goal with x := _ |- _ => clearbody x end;
  repeat match goal with
    | |- context [inject_Z ?z] =>
        let q := fresh "q" in set (q := inject_Z z) in *; clearbody q
    | H : context [inject_Z ?z] |- _ =>
        let q := fresh "q" in set (q := inject_Z z) in *; clearbody q
    end;
  unfold Qdiv in *;
  repeat match goal with
    | |- context [(?q * / 2)%Q] =>
        let hq := fresh "hq" in
        let Hq := fresh "Hq" in
        assert (Hq : (q * / 2 + q * / 2 == q)%Q) by field;
        set (hq := (q * / 2)%Q) in *; clearbody hq
    | H : context [(?q * / 2)%Q] |- _ =>
        let hq := fresh "hq" in
        let Hq := fresh "Hq" in
        assert (Hq : (q * / 2 + q * / 2 == q)%Q) by field;
        set (hq := (q * / 2)%Q) in *; clearbody hq
    end;
  lra.

Section PassFacts.

Variable E : gset string.
Variable lm : gmap nat (list string).
Variable cm : gmap string (list string).
Variable mind : gmap string MindMapNode.
Variable idx : gmap string nat.

(** The depth of the node an id names. *)
Variable lev : string -> nat.

Hypothesis idx_inj : forall a b i, idx !! a = Some i -> idx !! b = Some i -> a = b.
Hypothesis cm_kids : forall a kids k,
    cm !! a = Some kids -> k ∈ kids -> is_Some (idx !! k) /\ lev k = S (lev a).
Hypothesis lm_level : forall l ids a,
    lm !! l = Some ids -> a ∈ ids -> is_Some (idx !! a) /\ lev a = l.
Hypothesis lm_nodup : forall l ids, lm !! l = Some ids -> NoDup ids.

Lemma nodeY_insert_eq ns i p y :
  ns !! i = Some p -> nodeY (<[i := withY p y]> ns) i = y.
Proof.
  intros H. unfold nodeY. rewrite list_lookup_insert_eq; [reflexivity|].
  eapply lookup_lt_Some; eauto.
Qed.

Lemma nodeY_insert_ne ns i j p :
  i <> j -> nodeY (<[i := p]> ns) j = nodeY ns j.
Proof. intros H. unfold nodeY. now rewrite list_lookup_insert_ne. Qed.

Lemma heightOf_lower a : 100 <= heightOf E mind a.
Proof. unfold heightOf. lia. Qed.

Lemma heightOf_Q a : (100 <= inject_Z (heightOf E mind a))%Q.
Proof.
  change 100%Q with (inject_Z 100). rewrite <- Zle_Qle. apply heightOf_lower.
Qed.

(** *** [applyShiftRec] *)

Lemma fold_left_preserves {A B : Type} (P : A -> Prop) (f : A -> B -> A) l :
  (forall x b, b ∈ l -> P x -> P (f x b)) -> forall x, P x -> P (fold_left f l x).
Proof.
  induction l as [|b l IH]; intros Hf x Hx; [exact Hx|].
  cbn. apply IH.
  - intros y c Hc. apply Hf. now right.
  - apply Hf; [left|exact Hx].
Qed.

Lemma applyShiftRec_length fuel : forall a dy ns,
    length (applyShiftRec cm idx fuel a dy ns) = length ns.
Proof.
  induction fuel as [|fuel IH]; intros a dy ns; [reflexivity|].
  cbn [applyShiftRec].
  match goal with
  | |- length (fold_left ?f ?l ?x) = _ =>
      transitivity (length x);
      [apply (fold_left_preserves (fun y => length y = length x) f l);
       [intros y k _ Hy; now rewrite IH|reflexivity]|]
  end.
  destruct (idx !! a) as [i|]; [|reflexivity].
  destruct (ns !! i); [apply length_insert|reflexivity].
Qed.

(** A shift started at [a] leaves alone every other node that is not
    deeper than [a]. *)
Lemma applyShiftRec_frame fuel : forall a dy ns b j,
    idx !! b = Some j -> (lev b <= lev a)%nat -> b <> a ->
    nodeY (applyShiftRec cm idx fuel a dy ns) j = nodeY ns j.
Proof.
  induction fuel as [|fuel IH]; intros a dy ns b j Hb Hlev Hne; [reflexivity|].
  cbn [applyShiftRec].
  match goal with
  | |- nodeY (fold_left ?f ?l ?x) j = _ =>
      transitivity (nodeY x j);
      [apply (fold_left_preserves (fun y => nodeY y j = nodeY x j) f l);
       [|reflexivity]|]
  end.
  - intros y k Hk Hy. rewrite <- Hy.
    destruct (cm !! a) as [kids|] eqn:Hcm; [|inversion Hk].
    destruct (cm_kids a kids k Hcm Hk) as [_ Hlk].
    apply (IH k dy y b); [exact Hb|lia|]. intros ->. lia.
  - destruct (idx !! a) as [i|] eqn:Hi; [|reflexivity].
    destruct (ns !! i) as [p|]; [|reflexivity].
    apply nodeY_insert_ne. intros Hij. subst i. apply Hne.
    exact (idx_inj b a j Hb Hi).
Qed.

(** The node at which a shift starts moves by exactly [dy]. *)
Lemma applyShiftRec_self fuel a dy ns i :
  idx !! a = Some i -> (i < length ns)%nat ->
  nodeY (applyShiftRec cm idx (S fuel) a dy ns) i = (nodeY ns i + dy)%Q.
Proof.
  intros Hi Hlt. cbn [applyShiftRec]. rewrite Hi.
  destruct (lookup_lt_is_Some_2 ns i Hlt) as [p Hp]. rewrite Hp.
  match goal with
  | |- nodeY (fold_left ?f ?l ?x) i = _ =>
      transitivity (nodeY x i);
      [apply (fold_left_preserves (fun y => nodeY y i = nodeY x i) f l);
       [|reflexivity]|]
  end.
  - intros y k Hk Hy. rewrite <- Hy.
    destruct (cm !! a) as [kids|] eqn:Hcm; [|inversion Hk].
    destruct (cm_kids a kids k Hcm Hk) as [_ Hlk].
    apply (applyShiftRec_frame fuel k dy y a); [exact Hi|lia|]. intros ->. lia.
  - rewrite (nodeY_insert_eq ns i p _ Hp). unfold nodeY. now rewrite Hp.
Qed.

(** *** One level of the collision pass *)

Lemma Qltb_true a b : Qltb a b = true -> (a < b)%Q.
Proof.
  unfold Qltb. intros H. apply negb_true_iff in H.
  apply Qnot_le_lt. intros Hle. apply Qle_bool_iff in Hle. congruence.
Qed.

Lemma Qltb_false a b : Qltb a b = false -> (b <= a)%Q.
Proof.
  unfold Qltb. intros H. apply negb_false_iff in H. now apply Qle_bool_iff.
Qed.

Lemma separated_from_order ns a b :
  (yOf idx ns a + inject_Z (heightOf E mind a) / 2 + inject_Z minVerticalGap
   <= yOf idx ns b - inject_Z (heightOf E mind b) / 2)%Q ->
  separated E mind idx ns a b /\ separated E mind idx ns b a.
Proof.
  intros H. unfold separated.
  assert (Hab : (inject_Z (heightOf E mind a) / 2 + inject_Z (heightOf E mind b) / 2
                 + inject_Z minVerticalGap <= yOf idx ns b - yOf idx ns a)%Q) by lra.
  split.
  - rewrite Qabs_Qminus. eapply Qle_trans; [exact Hab|apply Qle_Qabs].
  - eapply Qle_trans; [|apply Qle_Qabs]. lra.
Qed.

Lemma collideStep_walked fuel lvl seen pb ns c i :
  walked E mind idx seen pb ns ->
  (forall a, a ∈ seen -> lev a = lvl /\ is_Some (idx !! a)) ->
  c ∉ seen -> lev c = lvl -> idx !! c = Some i -> (i < length ns)%nat ->
  let '(pb', ns') := collideStep E cm mind idx (S fuel) (pb, ns) c in
  walked E mind idx (seen ++ [c]) pb' ns'
  /\ length ns' = length ns
  /\ (forall b j, idx !! b = Some j -> (lev b <= lvl)%nat -> b <> c ->
        nodeY ns' j = nodeY ns j).
Proof.
  intros [Hpb Hsep] Hseen Hc Hlc Hi Hlt.
  pose proof (heightOf_Q c) as Hh.
  assert (Hgap : (inject_Z minVerticalGap == 52)%Q) by reflexivity.
  unfold collideStep. cbv zeta.
  assert (Hkeep : forall ns', (forall b j, idx !! b = Some j -> (lev b <= lvl)%nat ->
                      b <> c -> nodeY ns' j = nodeY ns j) ->
                  forall a, a ∈ seen -> yOf idx ns' a = yOf idx ns a).
  { intros ns' Hfr a Ha. destruct (Hseen a Ha) as [Hla [j Hj]].
    unfold yOf, indexOf. rewrite Hj. cbn. apply (Hfr a j Hj); [lia|].
    intros ->. contradiction. }
  assert (Hsep_keep : forall ns', (forall a, a ∈ seen -> yOf idx ns' a = yOf idx ns a) ->
                      pairwiseSeparated E mind idx ns' seen).
  { intros ns' Hy a b Ha Hb Hne. unfold separated.
    rewrite (Hy a Ha), (Hy b Hb). now apply Hsep. }
  destruct pb as [v|].
  - destruct (Qltb _ _) eqn:Hcmp.
    + (* the node is pushed down *)
      set (dy := ((v + inject_Z minVerticalGap)
                  - (yOf idx ns c - inject_Z (heightOf E mind c) / 2))%Q).
      set (ns' := applyShiftRec cm idx (S fuel) c dy ns).
      assert (Hfr : forall b j, idx !! b = Some j -> (lev b <= lvl)%nat -> b <> c ->
                                nodeY ns' j = nodeY ns j).
      { intros b j Hb Hlb Hne.
        apply (applyShiftRec_frame (S fuel) c dy ns b); [exact Hb|lia|exact Hne]. }
      assert (Hyc : yOf idx ns' c = (yOf idx ns c + dy)%Q).
      { unfold yOf, indexOf. rewrite Hi. cbn. now apply applyShiftRec_self. }
      split; [|split; [apply applyShiftRec_length|exact Hfr]].
      split.
      * intros a Ha. apply elem_of_app in Ha. destruct Ha as [Ha|Ha].
        -- rewrite (Hkeep ns' Hfr a Ha). specialize (Hpb a Ha).
           subst dy. qlra.
        -- apply list_elem_of_singleton in Ha. subst a. rewrite Hyc. subst dy. qlra.
      * intros a b Ha Hb Hne.
        apply elem_of_app in Ha. apply elem_of_app in Hb.
        destruct Ha as [Ha|Ha], Hb as [Hb|Hb].
        -- apply (Hsep_keep ns' (Hkeep ns' Hfr)); assumption.
        -- apply list_elem_of_singleton in Hb. subst b.
           refine (proj1 (separated_from_order ns' a c _)).
           rewrite (Hkeep ns' Hfr a Ha), Hyc. specialize (Hpb a Ha). subst dy. qlra.
        -- apply list_elem_of_singleton in Ha. subst a.
           refine (proj2 (separated_from_order ns' b c _)).
           rewrite (Hkeep ns' Hfr b Hb), Hyc. specialize (Hpb b Hb). subst dy. qlra.
        -- apply list_elem_of_singleton in Ha. apply list_elem_of_singleton in Hb.
           congruence.
    + (* the node stays *)
      apply Qltb_false in Hcmp.
      split; [|split; [reflexivity|reflexivity]].
      split.
      * intros a Ha. apply elem_of_app in Ha. destruct Ha as [Ha|Ha].
        -- specialize (Hpb a Ha). qlra.
        -- apply list_elem_of_singleton in Ha. subst a. qlra.
      * intros a b Ha Hb Hne.
        apply elem_of_app in Ha. apply elem_of_app in Hb.
        destruct Ha as [Ha|Ha], Hb as [Hb|Hb].
        -- now apply Hsep.
        -- apply list_elem_of_singleton in Hb. subst b.
           refine (proj1 (separated_from_order ns a c _)). specialize (Hpb a Ha). qlra.
        -- apply list_elem_of_singleton in Ha. subst a.
           refine (proj2 (separated_from_order ns b c _)). specialize (Hpb b Hb). qlra.
        -- apply list_elem_of_singleton in Ha. apply list_elem_of_singleton in Hb.
           congruence.
  - (* the first node of the level *)
    subst seen.
    split; [|split; [reflexivity|reflexivity]].
    split.
    + intros a Ha. apply list_elem_of_singleton in Ha. subst a. qlra.
    + intros a b Ha Hb Hne.
      apply list_elem_of_singleton in Ha. apply list_elem_of_singleton in Hb.
      congruence.
Qed.

(** *** Sorting *)

Lemma insertBy_perm {A : Type} (le : A -> A -> bool) a l :
  insertBy le a l ≡ₚ a :: l.
Proof.
  induction l as [|b l IH]; cbn; [reflexivity|].
  destruct (le a b); [reflexivity|].
  rewrite IH. apply Permutation_swap.
Qed.

Lemma sortBy_perm {A : Type} (le : A -> A -> bool) l : sortBy le l ≡ₚ l.
Proof.
  induction l as [|a l IH]; cbn; [reflexivity|].
  unfold sortBy in IH. now rewrite insertBy_perm, IH.
Qed.

Lemma insertBy_leb_sorted a l :
  StronglySorted Nat.le l -> StronglySorted Nat.le (insertBy Nat.leb a l).
Proof.
  induction l as [|b l IH]; intros Hs; cbn.
  - constructor; [constructor|constructor].
  - destruct (Nat.leb a b) eqn:Hab.
    + apply Nat.leb_le in Hab. constructor; [exact Hs|].
      constructor; [exact Hab|].
      apply StronglySorted_inv in Hs. destruct Hs as [_ Hall].
      eapply Forall_impl; [exact Hall|]. intros x Hx. cbn in Hx. lia.
    + apply Nat.leb_gt in Hab. apply StronglySorted_inv in Hs.
      destruct Hs as [Hs Hall]. constructor; [now apply IH|].
      rewrite insertBy_perm. constructor; [lia|exact Hall].
Qed.

Lemma sortBy_leb_sorted l : StronglySorted Nat.le (sortBy Nat.leb l).
Proof.
  induction l as [|a l IH]; cbn; [constructor|].
  now apply insertBy_leb_sorted.
Qed.

Lemma levels_spec l : l ∈ levels lm <-> is_Some (lm !! l).
Proof.
  unfold levels. rewrite sortBy_perm.
  rewrite list_elem_of_fmap. split.
  - intros [[k v] [-> Hkv]]. apply elem_of_map_to_list in Hkv. cbn. eauto.
  - intros [v Hv]. exists (l, v). split; [reflexivity|].
    now apply elem_of_map_to_list.
Qed.

Lemma levels_nodup : NoDup (levels lm).
Proof.
  unfold levels. rewrite sortBy_perm. apply NoDup_fst_map_to_list.
Qed.

Lemma levels_sorted : StronglySorted Nat.le (levels lm).
Proof. apply sortBy_leb_sorted. Qed.

(** *** The collision pass *)

Lemma collide_fold fuel lvl : forall todo seen pb ns,
    walked E mind idx seen pb ns ->
    NoDup (seen ++ todo) ->
    (forall a, a ∈ seen ++ todo -> lev a = lvl /\ is_Some (idx !! a)) ->
    inRange idx ns ->
    let r := fold_left (collideStep E cm mind idx (S fuel)) todo (pb, ns) in
    walked E mind idx (seen ++ todo) (fst r) (snd r)
    /\ length (snd r) = length ns
    /\ belowUntouched idx lev lvl ns (snd r).
Proof.
  induction todo as [|c todo IH]; intros seen pb ns Hw Hnd Hall Hrange; cbv zeta.
  - cbn. rewrite app_nil_r. split; [exact Hw|]. split; [reflexivity|].
    intros b j _ _. reflexivity.
  - cbn [fold_left].
    assert (Hc : c ∉ seen).
    { apply NoDup_app in Hnd. destruct Hnd as (_ & Hdis & _).
      intros Hin. apply (Hdis c Hin). left. }
    destruct (Hall c) as [Hlc [i Hi]]; [apply elem_of_app; right; left|].
    pose proof (collideStep_walked fuel lvl seen pb ns c i Hw) as Hstep.
    destruct (collideStep E cm mind idx (S fuel) (pb, ns) c) as [pb' ns'].
    destruct Hstep as (Hw' & Hlen & Hfr); auto.
    { intros a Ha. apply Hall. apply elem_of_app. now left. }
    { eapply Hrange; eauto. }
    specialize (IH (seen ++ [c]) pb' ns' Hw').
    rewrite <- app_assoc in IH. cbn [app] in IH.
    destruct IH as (Hw'' & Hlen'' & Hfr''); auto.
    { intros a j Ha. rewrite Hlen. eapply Hrange; eauto. }
    split; [exact Hw''|]. split; [congruence|].
    intros b j Hb Hlb. rewrite (Hfr'' b j Hb Hlb).
    apply (Hfr b j Hb); [lia|]. intros ->. lia.
Qed.

Lemma collideLevel_spec fuel lvl ns :
  inRange idx ns ->
  let ns' := collideLevel E lm cm mind idx (S fuel) ns lvl in
  pairwiseSeparated E mind idx ns' (default [] (lm !! lvl))
  /\ length ns' = length ns
  /\ belowUntouched idx lev lvl ns ns'.
Proof.
  intros Hrange. cbv zeta. unfold collideLevel.
  set (ids := sortBy _ (default [] (lm !! lvl))).
  assert (Hperm : ids ≡ₚ default [] (lm !! lvl)) by apply sortBy_perm.
  assert (Hnd : NoDup ids).
  { rewrite Hperm. destruct (lm !! lvl) as [l|] eqn:Hl; cbn.
    - eapply lm_nodup; eauto.
    - constructor. }
  assert (Hall : forall a, a ∈ ids -> lev a = lvl /\ is_Some (idx !! a)).
  { intros a Ha. rewrite Hperm in Ha.
    destruct (lm !! lvl) as [l|] eqn:Hl; cbn in Ha; [|inversion Ha].
    destruct (lm_level lvl l a Hl Ha). auto. }
  destruct (collide_fold fuel lvl ids [] None ns) as ((_ & Hsep) & Hlen & Hfr); auto.
  { split; [reflexivity|]. intros a b Ha. inversion Ha. }
  cbn [app] in Hsep. split; [|split; assumption].
  intros a b Ha Hb. apply Hsep; now rewrite Hperm.
Qed.

Lemma pairwiseSeparated_untouched lvl l ids ns ns' :
  lm !! l = Some ids -> (l < lvl)%nat ->
  belowUntouched idx lev lvl ns ns' ->
  pairwiseSeparated E mind idx ns ids -> pairwiseSeparated E mind idx ns' ids.
Proof.
  intros Hl Hlt Hfr Hsep a b Ha Hb Hne.
  destruct (lm_level l ids a Hl Ha) as [[i Hi] Hla].
  destruct (lm_level l ids b Hl Hb) as [[j Hj] Hlb].
  specialize (Hsep a b Ha Hb Hne). unfold separated, yOf, indexOf in *.
  rewrite Hi, Hj in *. cbn in *.
  rewrite (Hfr a i Hi), (Hfr b j Hj) by lia. exact Hsep.
Qed.

Lemma runCollisionPass_fold fuel : forall todo done ns,
    StronglySorted Nat.le (done ++ todo) -> NoDup (done ++ todo) ->
    inRange idx ns ->
    (forall l ids, l ∈ done -> lm !! l = Some ids -> pairwiseSeparated E mind idx ns ids) ->
    let ns' := fold_left (collideLevel E lm cm mind idx (S fuel)) todo ns in
    length ns' = length ns
    /\ forall l ids, l ∈ done ++ todo -> lm !! l = Some ids -> pairwiseSeparated E mind idx ns' ids.
Proof.
  induction todo as [|lvl todo IH]; intros done ns Hs Hnd Hrange Hdone; cbv zeta.
  - cbn. rewrite app_nil_r. auto.
  - cbn [fold_left].
    destruct (collideLevel_spec fuel lvl ns Hrange) as (Hsep & Hlen & Hfr).
    set (ns1 := collideLevel E lm cm mind idx (S fuel) ns lvl) in *.
    assert (Hlt : forall l, l ∈ done -> (l < lvl)%nat).
    { intros l Hl.
      assert (l <= lvl)%nat.
      { clear -Hs Hl. induction done as [|d done IHd]; [inversion Hl|].
        cbn in Hs. apply StronglySorted_inv in Hs. destruct Hs as [Hs Hall].
        apply elem_of_cons in Hl. destruct Hl as [->|Hl]; [|now apply IHd].
        rewrite Forall_forall in Hall. apply Hall.
        apply elem_of_app. right. left. }
      assert (l <> lvl).
      { intros ->. apply NoDup_app in Hnd. destruct Hnd as (_ & Hdis & _).
        apply (Hdis lvl Hl). left. }
      lia. }
    specialize (IH (done ++ [lvl]) ns1).
    rewrite <- app_assoc in IH. cbn [app] in IH.
    destruct IH as (Hlen' & Hall'); auto.
    { intros a i Ha. rewrite Hlen. eapply Hrange; eauto. }
    { intros l ids Hl Hlm. apply elem_of_app in Hl. destruct Hl as [Hl|Hl].
      - eapply pairwiseSeparated_untouched; eauto.
      - apply list_elem_of_singleton in Hl. subst l. now rewrite Hlm in Hsep. }
    split; [congruence|exact Hall'].
Qed.

(** After a collision pass every level is pairwise separated. *)
Lemma runCollisionPass_separates fuel ns l ids :
  inRange idx ns -> lm !! l = Some ids ->
  let ns' := runCollisionPass E lm cm mind idx (S fuel) ns in
  length ns' = length ns /\ pairwiseSeparated E mind idx ns' ids.
Proof.
  intros Hrange Hl. cbv zeta. unfold runCollisionPass.
  destruct (runCollisionPass_fold fuel (levels lm) [] ns) as (Hlen & Hall).
  - apply levels_sorted.
  - apply levels_nodup.
  - exact Hrange.
  - intros l' ids' Hin. inversion Hin.
  - split; [exact Hlen|]. apply (Hall l); [|exact Hl].
    cbn [app]. apply levels_spec. eauto.
Qed.

(** *** Recentering *)

Hypothesis lm_complete : forall a i,
    idx !! a = Some i -> exists ids, lm !! lev a = Some ids /\ a ∈ ids.

Lemma averageY_ext ns ns' kids :
  (forall k, k ∈ kids -> yOf idx ns' k = yOf idx ns k) ->
  averageY idx ns' kids = averageY idx ns kids.
Proof.
  intros H. unfold averageY.
  assert (Hm : map (yOf idx ns') kids = map (yOf idx ns) kids).
  { apply map_ext_in. intros k Hk. apply H. now apply list_elem_of_In. }
  now rewrite Hm.
Qed.

Lemma recenterNode_inner ns a i p k kids :
  idx !! a = Some i -> ns !! i = Some p -> cm !! a = Some (k :: kids) ->
  recenterNode cm idx ns a = <[i := withY p (averageY idx ns (k :: kids))]> ns.
Proof.
  intros Hi Hp Hcm. unfold recenterNode, indexOf, averageY.
  rewrite Hi, Hcm. cbn [default from_option id]. now rewrite Hp.
Qed.

Lemma recenterNode_leaf ns a :
  default [] (cm !! a) = [] -> recenterNode cm idx ns a = ns.
Proof. intros H. unfold recenterNode. now rewrite H. Qed.

Lemma recenterNode_spec ns a i :
  idx !! a = Some i -> (i < length ns)%nat ->
  let ns' := recenterNode cm idx ns a in
  length ns' = length ns
  /\ centeredAt cm idx ns' a
  /\ (forall j, j <> i -> nodeY ns' j = nodeY ns j).
Proof.
  intros Hi Hlt. cbv zeta. unfold centeredAt.
  destruct (lookup_lt_is_Some_2 ns i Hlt) as [p Hp].
  destruct (cm !! a) as [[|k kids]|] eqn:Hcm.
  - rewrite recenterNode_leaf by now rewrite Hcm.
    split; [reflexivity|]. split; [|reflexivity]. intros k kids H. discriminate H.
  - rewrite (recenterNode_inner ns a i p k kids Hi Hp Hcm).
    split; [apply length_insert|]. split.
    + intros k' kids' H. injection H as <- <-.
      unfold yOf at 1. unfold indexOf. rewrite Hi. cbn [default from_option id].
      rewrite (nodeY_insert_eq ns i p _ Hp).
      symmetry. apply averageY_ext. intros c Hc.
      destruct (cm_kids a (k :: kids) c Hcm Hc) as [[j Hj] Hlc].
      unfold yOf, indexOf. rewrite Hj. cbn [default from_option id].
      apply nodeY_insert_ne. intros ->.
      assert (a = c) by (eapply idx_inj; eauto). subst c. lia.
    + intros j Hj. now apply nodeY_insert_ne.
  - rewrite recenterNode_leaf by now rewrite Hcm.
    split; [reflexivity|]. split; [|reflexivity]. intros k kids H. discriminate H.
Qed.

Lemma centeredAt_untouched ns ns' a i :
  idx !! a = Some i ->
  nodeY ns' i = nodeY ns i ->
  (forall b j, idx !! b = Some j -> lev b = S (lev a) -> nodeY ns' j = nodeY ns j) ->
  centeredAt cm idx ns a -> centeredAt cm idx ns' a.
Proof.
  intros Hi Hy Hkids Hc k kids Hcm.
  unfold yOf at 1. unfold indexOf. rewrite Hi. cbn [default from_option id]. rewrite Hy.
  specialize (Hc k kids Hcm). unfold yOf at 1 in Hc. unfold indexOf in Hc.
  rewrite Hi in Hc. cbn [default from_option id] in Hc. rewrite Hc.
  symmetry. apply averageY_ext. intros c Hin.
  destruct (cm_kids a (k :: kids) c Hcm Hin) as [[j Hj] Hlc].
  unfold yOf, indexOf. rewrite Hj. cbn [default from_option id]. now apply (Hkids c j).
Qed.

Lemma recenterLevel_fold lvl : forall todo seen ns,
    NoDup (seen ++ todo) ->
    (forall a, a ∈ seen ++ todo -> lev a = lvl /\ is_Some (idx !! a)) ->
    inRange idx ns ->
    (forall a, a ∈ seen -> centeredAt cm idx ns a) ->
    let ns' := fold_left (recenterNode cm idx) todo ns in
    length ns' = length ns
    /\ (forall a, a ∈ seen ++ todo -> centeredAt cm idx ns' a)
    /\ levelOnlyTouched idx lev lvl ns ns'.
Proof.
  induction todo as [|c todo IH]; intros seen ns Hnd Hall Hrange Hseen; cbv zeta.
  - cbn. rewrite app_nil_r. split; [reflexivity|]. split; [exact Hseen|].
    intros b j _ _. reflexivity.
  - cbn [fold_left].
    assert (Hc : c ∉ seen).
    { apply NoDup_app in Hnd. destruct Hnd as (_ & Hdis & _).
      intros Hin. apply (Hdis c Hin). left. }
    destruct (Hall c) as [Hlc [i Hi]]; [apply elem_of_app; right; left|].
    destruct (recenterNode_spec ns c i Hi (Hrange c i Hi)) as (Hlen & Hcen & Hfr).
    set (ns1 := recenterNode cm idx ns c) in *.
    assert (Hfr1 : levelOnlyTouched idx lev lvl ns ns1).
    { intros b j Hb Hlb. apply Hfr. intros ->.
      assert (b = c) by (eapply idx_inj; eauto). subst b. contradiction. }
    specialize (IH (seen ++ [c]) ns1).
    rewrite <- app_assoc in IH. cbn [app] in IH.
    destruct IH as (Hlen' & Hcen' & Hfr'); auto.
    { intros a j Ha. rewrite Hlen. eapply Hrange; eauto. }
    { intros a Ha. apply elem_of_app in Ha. destruct Ha as [Ha|Ha].
      - destruct (Hall a) as [Hla [j Hj]]; [apply elem_of_app; now left|].
        apply (centeredAt_untouched ns ns1 a j Hj).
        + apply Hfr. intros ->.
          assert (a = c) by (eapply idx_inj; eauto). subst a. contradiction.
        + intros b k Hb Hlb. apply (Hfr1 b k Hb). lia.
        + now apply Hseen.
      - apply list_elem_of_singleton in Ha. subst a. exact Hcen. }
    split; [congruence|]. split; [exact Hcen'|].
    intros b j Hb Hlb. rewrite (Hfr' b j Hb Hlb). now apply (Hfr1 b j).
Qed.

Lemma recenterLevel_spec lvl ns :
  inRange idx ns ->
  let ns' := recenterLevel lm cm idx ns lvl in
  length ns' = length ns
  /\ (forall a, a ∈ default [] (lm !! lvl) -> centeredAt cm idx ns' a)
  /\ levelOnlyTouched idx lev lvl ns ns'.
Proof.
  intros Hrange. cbv zeta. unfold recenterLevel.
  destruct (lm !! lvl) as [ids|] eqn:Hl; cbn [default from_option id].
  - apply (recenterLevel_fold lvl ids [] ns); cbn [app]; auto.
    + eapply lm_nodup; eauto.
    + intros a Ha. destruct (lm_level lvl ids a Hl Ha). auto.
    + intros a Ha. inversion Ha.
  - cbn. split; [reflexivity|]. split; [intros a Ha; inversion Ha|].
    intros b j _ _. reflexivity.
Qed.

Lemma recenter_fold : forall todo done ns,
    (forall d t, d ∈ done -> t ∈ todo -> (t < d)%nat) ->
    StronglySorted gt todo ->
    inRange idx ns ->
    levelsCentered lm cm idx done ns ->
    let ns' := fold_left (recenterLevel lm cm idx) todo ns in
    length ns' = length ns /\ levelsCentered lm cm idx (done ++ todo) ns'.
Proof.
  induction todo as [|lvl todo IH]; intros done ns Hlt Hs Hrange Hdone; cbv zeta.
  - cbn. rewrite app_nil_r. auto.
  - cbn [fold_left].
    destruct (recenterLevel_spec lvl ns Hrange) as (Hlen & Hcen & Hfr).
    set (ns1 := recenterLevel lm cm idx ns lvl) in *.
    apply StronglySorted_inv in Hs. destruct Hs as [Hs Hgt].
    rewrite Forall_forall in Hgt.
    specialize (IH (done ++ [lvl]) ns1).
    rewrite <- app_assoc in IH. cbn [app] in IH.
    destruct IH as (Hlen' & Hall'); auto.
    { intros d t Hd Ht. apply elem_of_app in Hd. destruct Hd as [Hd|Hd].
      - apply Hlt; [exact Hd|now right].
      - apply list_elem_of_singleton in Hd. subst d. now apply Hgt. }
    { intros a j Ha. rewrite Hlen. eapply Hrange; eauto. }
    { intros l ids a Hl Hlm Ha. apply elem_of_app in Hl. destruct Hl as [Hl|Hl].
      - destruct (lm_level l ids a Hlm Ha) as [[j Hj] Hla].
        assert (lvl < l)%nat by (apply Hlt; [exact Hl|left]).
        apply (centeredAt_untouched ns ns1 a j Hj).
        + apply (Hfr a j Hj). lia.
        + intros b k Hb Hlb. apply (Hfr b k Hb). lia.
        + eapply Hdone; eauto.
      - apply list_elem_of_singleton in Hl. subst l. apply Hcen.
        now rewrite Hlm. }
    split; [congruence|exact Hall'].
Qed.

Lemma seq_rev_sorted n : StronglySorted gt (rev (seq 0 n)).
Proof.
  induction n as [|n IH]; [constructor|].
  rewrite seq_S, rev_app_distr. cbn. constructor; [exact IH|].
  apply Forall_forall. intros x Hx. apply list_elem_of_In, in_rev, in_seq in Hx. lia.
Qed.

Lemma maxLevel_upper l : l ∈ levels lm -> (l <= maxLevel lm)%nat.
Proof.
  unfold maxLevel. generalize (levels lm). intros ls.
  induction ls as [|x ls IH]; intros H; [inversion H|].
  apply elem_of_cons in H. cbn [foldr]. destruct H as [->|H]; [lia|].
  specialize (IH H). lia.
Qed.

(** After the recentering loop every node with children sits at the
    average of its children. *)
Lemma recenter_centers ns a i :
  inRange idx ns -> idx !! a = Some i ->
  let ns' := recenter lm cm idx ns in
  length ns' = length ns /\ centeredAt cm idx ns' a.
Proof.
  intros Hrange Hi. cbv zeta. unfold recenter.
  destruct (recenter_fold (rev (seq 0 (maxLevel lm))) [] ns) as (Hlen & Hall).
  - intros d t Hd. inversion Hd.
  - apply seq_rev_sorted.
  - exact Hrange.
  - intros l ids b Hl. inversion Hl.
  - split; [exact Hlen|]. cbn [app] in Hall.
    intros k kids Hcm.
    destruct (lm_complete a i Hi) as [ids [Hlm Ha]].
    assert (Hk : k ∈ k :: kids) by left.
    destruct (cm_kids a (k :: kids) k Hcm Hk) as [[j Hj] Hlk].
    destruct (lm_complete k j Hj) as [ids' [Hlm' _]].
    assert (Hmax : (lev k <= maxLevel lm)%nat).
    { apply maxLevel_upper, levels_spec. eauto. }
    assert (Hin : lev a ∈ rev (seq 0 (maxLevel lm))).
    { apply list_elem_of_In. rewrite <- in_rev. apply in_seq. lia. }
    exact (Hall (lev a) ids a Hin Hlm Ha k kids Hcm).
Qed.

End PassFacts.

(** ** The placement walk as a list of calls *)

Section PlacementFacts.

Variable E : gset string.
Variable isDark : bool.

Lemma addChildren_calls
  (cs : list MindMapNode) (id : string) (level : nat) :
  Forall (fun c => forall p l y h st,
              add E isDark c p l y h st = fold_left (runCall E isDark) (calls c p l y h) st) cs ->
  forall y st,
    addChildren (add E isDark) id level cs y st =
      fold_left (runCall E isDark) (childCalls calls id level cs y) st.
Proof.
  induction 1 as [|c cs Hc _ IH]; intros y st; [reflexivity|].
  cbn [addChildren childCalls]. rewrite fold_left_app, <- Hc. apply IH.
Qed.

Lemma add_calls n : forall p l y h st,
    add E isDark n p l y h st = fold_left (runCall E isDark) (calls n p l y h) st.
Proof.
  induction n as [i t d cs r IH] using MindMapNode_ind. intros p l y h st.
  cbn [add calls fold_left].
  now rewrite (addChildren_calls cs i l IH).
Qed.

Lemma addRoots_calls roots : forall y st,
    addRoots E isDark roots y st = fold_left (runCall E isDark) (rootCalls roots y) st.
Proof.
  induction roots as [|r roots IH]; intros y st; [reflexivity|].
  cbn [addRoots rootCalls]. now rewrite fold_left_app, <- add_calls, IH.
Qed.

Lemma childCalls_walk (cs : list MindMapNode) (id : string) (level : nat) :
  Forall (fun c => forall p l y h, map callTag (calls c p l y h) = walk l c) cs ->
  forall y, map callTag (childCalls calls id level cs y) =
              flat_map (walk (S level)) cs.
Proof.
  induction 1 as [|c cs Hc _ IH]; intros y; [reflexivity|].
  cbn [childCalls flat_map]. now rewrite map_app, Hc, IH.
Qed.

Lemma calls_walk n : forall p l y h, map callTag (calls n p l y h) = walk l n.
Proof.
  induction n as [i t d cs r IH] using MindMapNode_ind. intros p l y h.
  cbn [calls walk map]. now rewrite (childCalls_walk cs i l IH).
Qed.

Lemma rootCalls_walk roots : forall y,
    map callTag (rootCalls roots y) = forestWalk roots.
Proof.
  induction roots as [|r roots IH]; intros y; [reflexivity|].
  cbn [rootCalls]. unfold forestWalk. cbn [flat_map].
  rewrite map_app, calls_walk. f_equal. apply IH.
Qed.

Lemma walk_nodes l n : map snd (walk l n) = nodesOf n.
Proof.
  revert l. induction n as [i t d cs r IH] using MindMapNode_ind. intros l.
  cbn [walk nodesOf map]. f_equal.
  induction IH as [|c cs Hc _ IHcs]; [reflexivity|].
  cbn [flat_map]. now rewrite map_app, Hc, IHcs.
Qed.

Lemma forestWalk_nodes roots : map snd (forestWalk roots) = forestNodes roots.
Proof.
  unfold forestWalk, forestNodes.
  induction roots as [|r roots IH]; [reflexivity|].
  cbn [flat_map]. now rewrite map_app, walk_nodes, IH.
Qed.

(** The children of a walked node are walked one level deeper. *)
Lemma walk_children l n : forall l' m c,
    (l', m) ∈ walk l n -> c ∈ node_children m -> (S l', c) ∈ walk l n.
Proof.
  revert l. induction n as [i t d cs r IH] using MindMapNode_ind.
  intros l l' m c Hm Hc. cbn [walk] in *.
  apply elem_of_cons in Hm. destruct Hm as [Heq|Hm].
  - injection Heq as -> ->. cbn in Hc. right.
    apply list_elem_of_In, in_flat_map. exists c. split; [now apply list_elem_of_In|].
    destruct c. cbn. now left.
  - right. apply list_elem_of_In, in_flat_map in Hm. destruct Hm as [x [Hx Hm]].
    apply list_elem_of_In, in_flat_map. exists x. split; [exact Hx|].
    rewrite Forall_forall in IH. apply list_elem_of_In.
    apply (IH x (proj2 (list_elem_of_In _ _) Hx) (S l) l' m c);
      [now apply list_elem_of_In|exact Hc].
Qed.

Lemma forestWalk_children roots l m c :
  (l, m) ∈ forestWalk roots -> c ∈ node_children m -> (S l, c) ∈ forestWalk roots.
Proof.
  unfold forestWalk. intros Hm Hc.
  apply list_elem_of_In, in_flat_map in Hm. destruct Hm as [x [Hx Hm]].
  apply list_elem_of_In, in_flat_map. exists x. split; [exact Hx|].
  apply list_elem_of_In. eapply walk_children; [|exact Hc].
  now apply list_elem_of_In.
Qed.

(** *** The state after a list of calls *)

Lemma runCalls_nodes cl : forall st,
    newNodes (fold_left (runCall E isDark) cl st) = newNodes st ++ map (callNode E isDark) cl.
Proof.
  induction cl as [|c cl IH]; intros st; cbn [fold_left map].
  - now rewrite app_nil_r.
  - rewrite IH. cbn [runCall addSelf newNodes]. now rewrite <- app_assoc.
Qed.

Lemma runCall_levelMapOk st c : levelMapOk st -> levelMapOk ((runCall E isDark) st c).
Proof.
  intros H l. unfold runCall, addSelf. cbn [levelMap newNodes].
  unfold levelIds. rewrite filter_app, map_app.
  destruct (decide (call_level c = l)) as [<-|Hne].
  - rewrite lookup_insert_eq. cbn [default from_option id].
    rewrite H. unfold levelIds. f_equal.
    rewrite filter_cons_True by reflexivity. reflexivity.
  - rewrite lookup_insert_ne by exact Hne. rewrite H. unfold levelIds.
    rewrite filter_cons_False by exact Hne. cbn. now rewrite app_nil_r.
Qed.

Lemma runCalls_levelMapOk cl : forall st,
    levelMapOk st -> levelMapOk (fold_left (runCall E isDark) cl st).
Proof.
  induction cl as [|c cl IH]; intros st H; [exact H|].
  cbn [fold_left]. apply IH. now apply runCall_levelMapOk.
Qed.

Lemma runCalls_childrenMap_other cl a : forall st,
    a ∉ map callId cl ->
    childrenMap (fold_left (runCall E isDark) cl st) !! a = childrenMap st !! a.
Proof.
  induction cl as [|c cl IH]; intros st Ha; [reflexivity|].
  cbn [fold_left]. rewrite IH.
  - unfold runCall, addSelf. cbn [childrenMap]. apply lookup_insert_ne.
    intros Heq. apply Ha. cbn [map]. rewrite <- Heq. left.
  - intros Hin. apply Ha. cbn [map]. now right.
Qed.

Lemma runCalls_childrenMap cl c : forall st,
    NoDup (map callId cl) -> c ∈ cl ->
    childrenMap (fold_left (runCall E isDark) cl st) !! callId c = Some (callKids c).
Proof.
  induction cl as [|c' cl IH]; intros st Hnd Hc; [inversion Hc|].
  cbn [map] in Hnd. apply NoDup_cons in Hnd. destruct Hnd as [Hfresh Hnd].
  cbn [fold_left]. apply elem_of_cons in Hc. destruct Hc as [->|Hc].
  - rewrite runCalls_childrenMap_other by exact Hfresh.
    unfold runCall, addSelf. cbn [childrenMap]. apply lookup_insert_eq.
  - now apply IH.
Qed.

Lemma runCalls_childrenMap_inv cl a kids : forall st,
    childrenMap (fold_left (runCall E isDark) cl st) !! a = Some kids ->
    childrenMap st !! a = Some kids
    \/ exists c, c ∈ cl /\ callId c = a /\ kids = callKids c.
Proof.
  induction cl as [|c cl IH]; intros st H; [now left|].
  cbn [fold_left] in H. apply IH in H. destruct H as [H|[c' (Hc' & Hid & Hk)]].
  - unfold runCall, addSelf in H. cbn [childrenMap] in H.
    destruct (decide (node_id (call_node c) = a)) as [Heq|Hne].
    + rewrite Heq, lookup_insert_eq in H. injection H as <-.
      right. exists c. split; [left|]. split; [exact Heq|reflexivity].
    + rewrite lookup_insert_ne in H by exact Hne. now left.
  - right. exists c'. split; [now right|auto].
Qed.

Lemma runCalls_mind_other cl a : forall st,
    a ∉ map callId cl ->
    idToMindNode (fold_left (runCall E isDark) cl st) !! a = idToMindNode st !! a.
Proof.
  induction cl as [|c cl IH]; intros st Ha; [reflexivity|].
  cbn [fold_left]. rewrite IH.
  - unfold runCall, addSelf. cbn [idToMindNode]. apply lookup_insert_ne.
    intros Heq. apply Ha. cbn [map]. rewrite <- Heq. left.
  - intros Hin. apply Ha. cbn [map]. now right.
Qed.

Lemma runCalls_mind cl c : forall st,
    NoDup (map callId cl) -> c ∈ cl ->
    idToMindNode (fold_left (runCall E isDark) cl st) !! callId c = Some (call_node c).
Proof.
  induction cl as [|c' cl IH]; intros st Hnd Hc; [inversion Hc|].
  cbn [map] in Hnd. apply NoDup_cons in Hnd. destruct Hnd as [Hfresh Hnd].
  cbn [fold_left]. apply elem_of_cons in Hc. destruct Hc as [->|Hc].
  - rewrite runCalls_mind_other by exact Hfresh.
    unfold runCall, addSelf. cbn [idToMindNode]. apply lookup_insert_eq.
  - now apply IH.
Qed.

(** *** The index map *)

Lemma indexFrom_other ns a : forall k (m : gmap string nat),
    a ∉ map fn_id ns -> indexFrom k ns m !! a = m !! a.
Proof.
  induction ns as [|q ns IH]; intros k m Ha; [reflexivity|].
  cbn [indexFrom]. rewrite IH.
  - apply lookup_insert_ne. intros Heq. apply Ha. cbn [map]. rewrite <- Heq. left.
  - intros Hin. apply Ha. cbn [map]. now right.
Qed.

Lemma indexFrom_lookup ns : forall k (m : gmap string nat) j q,
    NoDup (map fn_id ns) -> ns !! j = Some q ->
    indexFrom k ns m !! fn_id q = Some (k + j)%nat.
Proof.
  induction ns as [|q' ns IH]; intros k m j q Hnd Hj; [inversion Hj|].
  cbn [map] in Hnd. apply NoDup_cons in Hnd. destruct Hnd as [Hfresh Hnd].
  cbn [indexFrom]. destruct j as [|j].
  - injection Hj as ->. rewrite indexFrom_other by exact Hfresh.
    rewrite lookup_insert_eq. f_equal. lia.
  - cbn in Hj. rewrite (IH (S k) _ j q Hnd Hj). f_equal. lia.
Qed.

Lemma indexFrom_inv ns : forall k (m : gmap string nat) a i,
    indexFrom k ns m !! a = Some i ->
    m !! a = Some i \/ exists j q, i = (k + j)%nat /\ ns !! j = Some q /\ fn_id q = a.
Proof.
  induction ns as [|q' ns IH]; intros k m a i H; [now left|].
  cbn [indexFrom] in H. apply IH in H. destruct H as [H|(j & q & -> & Hj & Hq)].
  - destruct (decide (fn_id q' = a)) as [Heq|Hne].
    + rewrite Heq, lookup_insert_eq in H. injection H as <-.
      right. exists 0%nat, q'. split; [lia|]. split; [reflexivity|exact Heq].
    + rewrite lookup_insert_ne in H by exact Hne. now left.
  - right. exists (S j), q. split; [lia|]. split; [exact Hj|exact Hq].
Qed.

End PlacementFacts.

(** ** The passes only move nodes vertically *)

Section ShapeFacts.

Variable E : gset string.
Variable lm : gmap nat (list string).
Variable cm : gmap string (list string).
Variable mind : gmap string MindMapNode.
Variable idx : gmap string nat.

Lemma map_insert_same {A B : Type} (f : A -> B) (l : list A) i x y :
  l !! i = Some x -> f y = f x -> map f (<[i := y]> l) = map f l.
Proof.
  revert i. induction l as [|a l IH]; intros i Hi Hf; [reflexivity|].
  destruct i as [|i]; cbn in *.
  - injection Hi as ->. now rewrite Hf.
  - f_equal. now apply IH.
Qed.

Lemma applyShiftRec_shape fuel : forall a dy ns,
    map unY (applyShiftRec cm idx fuel a dy ns) = map unY ns.
Proof.
  induction fuel as [|fuel IH]; intros a dy ns; [reflexivity|].
  cbn [applyShiftRec].
  match goal with
  | |- map unY (fold_left ?f ?l ?x) = _ =>
      transitivity (map unY x);
      [apply (fold_left_preserves (fun y => map unY y = map unY x) f l);
       [intros y k _ Hy; now rewrite IH|reflexivity]|]
  end.
  destruct (idx !! a) as [i|]; [|reflexivity].
  destruct (ns !! i) as [p|] eqn:Hp; [|reflexivity].
  now apply (map_insert_same unY ns i p).
Qed.

Lemma collideStep_shape fuel acc a :
  map unY (snd (collideStep E cm mind idx fuel acc a)) = map unY (snd acc).
Proof.
  destruct acc as [[v|] ns]; cbn; [|reflexivity].
  destruct (Qltb _ _); cbn [snd]; [apply applyShiftRec_shape|reflexivity].
Qed.

Lemma collideLevel_shape fuel ns lvl :
  map unY (collideLevel E lm cm mind idx fuel ns lvl) = map unY ns.
Proof.
  unfold collideLevel.
  match goal with
  | |- map unY (snd (fold_left ?f ?l ?x)) = _ =>
      apply (fold_left_preserves (fun y => map unY (snd y) = map unY ns) f l);
      [intros y k _ Hy; now rewrite collideStep_shape|reflexivity]
  end.
Qed.

Lemma runCollisionPass_shape fuel ns :
  map unY (runCollisionPass E lm cm mind idx fuel ns) = map unY ns.
Proof.
  unfold runCollisionPass.
  match goal with
  | |- map unY (fold_left ?f ?l ?x) = _ =>
      apply (fold_left_preserves (fun y => map unY y = map unY ns) f l);
      [intros y k _ Hy; now rewrite collideLevel_shape|reflexivity]
  end.
Qed.

Lemma recenterNode_shape ns a : map unY (recenterNode cm idx ns a) = map unY ns.
Proof.
  unfold recenterNode. destruct (default [] (cm !! a)); [reflexivity|].
  cbv zeta. destruct (ns !! indexOf idx a) as [p|] eqn:Hp; [|reflexivity].
  now apply (map_insert_same unY ns _ p).
Qed.

Lemma recenterLevel_shape ns lvl :
  map unY (recenterLevel lm cm idx ns lvl) = map unY ns.
Proof.
  unfold recenterLevel.
  match goal with
  | |- map unY (fold_left ?f ?l ?x) = _ =>
      apply (fold_left_preserves (fun y => map unY y = map unY ns) f l);
      [intros y k _ Hy; now rewrite recenterNode_shape|reflexivity]
  end.
Qed.

Lemma recenter_shape ns : map unY (recenter lm cm idx ns) = map unY ns.
Proof.
  unfold recenter.
  match goal with
  | |- map unY (fold_left ?f ?l ?x) = _ =>
      apply (fold_left_preserves (fun y => map unY y = map unY ns) f l);
      [intros y k _ Hy; now rewrite recenterLevel_shape|reflexivity]
  end.
Qed.

Lemma shape_lookup ns ns' i p :
  map unY ns' = map unY ns -> ns' !! i = Some p ->
  exists p0, ns !! i = Some p0 /\ unY p0 = unY p.
Proof.
  intros Hs Hp.
  assert (H : map unY ns' !! i = Some (unY p)).
  { change (map unY ns') with (unY <$> ns'). now rewrite list_lookup_fmap, Hp. }
  rewrite Hs in H. change (map unY ns) with (unY <$> ns) in H.
  rewrite list_lookup_fmap in H.
  destruct (ns !! i) as [p0|] eqn:Hp0; [|discriminate H].
  cbn in H. injection H as H1 H2 H3. exists p0. split; [reflexivity|].
  unfold unY. now rewrite H1, H2, H3.
Qed.

Lemma shape_length ns ns' : map unY ns' = map unY ns -> length ns' = length ns.
Proof. intros H. apply (f_equal length) in H. now rewrite !length_map in H. Qed.

End ShapeFacts.

(** ** The placed state of a well-formed forest *)

Lemma nodesOf_sized_ids (E : gset string) n :
  map node_id (nodesOf (snd (calcHeight E n))) = map node_id (nodesOf n).
Proof.
  induction n as [i t d cs r IH] using MindMapNode_ind.
  destruct cs as [|c cs]; [reflexivity|].
  rewrite calcHeight_inner. cbv zeta. cbn [snd nodesOf].
  change (node_id (MkNode i t d (c :: cs) r)
            :: map node_id (flat_map nodesOf (map (fun c0 => snd (calcHeight E c0)) (c :: cs)))
          = node_id (MkNode i t d (c :: cs) r)
              :: map node_id (flat_map nodesOf (c :: cs))).
  f_equal.
  induction IH as [|x l Hx _ IHl]; [reflexivity|].
  cbn [map flat_map]. now rewrite !map_app, Hx, IHl.
Qed.

Lemma forestIds_sized (E : gset string) roots :
  forestIds (sizeRoots E roots) = forestIds roots.
Proof.
  unfold forestIds, forestNodes, sizeRoots.
  induction roots as [|r roots IH]; [reflexivity|].
  cbn [map flat_map]. now rewrite !map_app, nodesOf_sized_ids, IH.
Qed.

Lemma levelOfId_spec (w : list (nat * MindMapNode)) l m :
  NoDup (map (fun x => node_id (snd x)) w) -> (l, m) ∈ w ->
  levelOfId w (node_id m) = l.
Proof.
  unfold levelOfId. induction w as [|x w IH]; intros Hnd Hin; [inversion Hin|].
  cbn [map] in Hnd. apply NoDup_cons in Hnd. destruct Hnd as [Hfresh Hnd].
  cbn [find]. destruct (String.eqb (node_id (snd x)) (node_id m)) eqn:Heq.
  - apply String.eqb_eq in Heq. apply elem_of_cons in Hin.
    destruct Hin as [<-|Hin]; [reflexivity|].
    exfalso. apply Hfresh. rewrite Heq.
    apply list_elem_of_In, in_map_iff. exists (l, m).
    split; [reflexivity|now apply list_elem_of_In].
  - apply elem_of_cons in Hin. destruct Hin as [<-|Hin].
    + cbn in Heq. rewrite String.eqb_refl in Heq. discriminate Heq.
    + now apply IH.
Qed.

Lemma NoDup_map_filter {A B : Type} (f : A -> B) (P : A -> Prop)
  `{forall x, Decision (P x)} (l : list A) :
  NoDup (map f l) -> NoDup (map f (filter P l)).
Proof.
  induction l as [|a l IH]; intros Hnd; [constructor|].
  cbn [map] in Hnd. apply NoDup_cons in Hnd. destruct Hnd as [Hfresh Hnd].
  destruct (decide (P a)) as [Hp|Hp].
  - rewrite filter_cons_True by exact Hp. cbn [map]. apply NoDup_cons.
    split; [|now apply IH]. intros Hin. apply Hfresh.
    apply list_elem_of_In, in_map_iff in Hin. destruct Hin as [x [Hx Hin]].
    apply list_elem_of_In, in_map_iff. exists x. split; [exact Hx|].
    apply list_elem_of_In in Hin. apply list_elem_of_filter in Hin.
    apply list_elem_of_In. tauto.
  - rewrite filter_cons_False by exact Hp. now apply IH.
Qed.

Section LayoutFacts.

Variable E : gset string.
Variable isDark : bool.
Variable roots : list MindMapNode.
Hypothesis Hwf : wellFormed roots.

Local Abbreviation sized := (sizeRoots E roots).
Local Abbreviation cl := (rootCalls (sizeRoots E roots) 50).
Local Abbreviation st := (placed E isDark roots).
Local Abbreviation W := (forestWalk (sizeRoots E roots)).
Local Abbreviation idx := (indexFrom 0 (newNodes (placed E isDark roots)) ∅).
Local Abbreviation lev := (levelOfId (forestWalk (sizeRoots E roots))).
Local Abbreviation lm := (levelMap (placed E isDark roots)).
Local Abbreviation cm := (childrenMap (placed E isDark roots)).
Local Abbreviation mind := (idToMindNode (placed E isDark roots)).

Lemma placed_calls : st = fold_left (runCall E isDark) cl emptyState.
Proof. unfold placed. apply addRoots_calls. Qed.

Lemma placed_nodes : newNodes st = map (callNode E isDark) cl.
Proof. rewrite placed_calls, runCalls_nodes. reflexivity. Qed.

Lemma calls_tags : map callTag cl = W.
Proof. apply rootCalls_walk. Qed.

Lemma calls_ids : map callId cl = forestIds roots.
Proof.
  rewrite <- (forestIds_sized E roots). unfold forestIds.
  rewrite <- forestWalk_nodes, <- calls_tags, !map_map. reflexivity.
Qed.

Lemma calls_nodup : NoDup (map callId cl).
Proof. rewrite calls_ids. exact Hwf. Qed.

Lemma placed_ids : map fn_id (newNodes st) = map callId cl.
Proof. rewrite placed_nodes, map_map. reflexivity. Qed.

Lemma walk_nodup : NoDup (map (fun x => node_id (snd x)) W).
Proof.
  rewrite <- calls_tags, map_map. exact calls_nodup.
Qed.

Lemma call_in_walk c : c ∈ cl -> (call_level c, call_node c) ∈ W.
Proof.
  intros Hc. rewrite <- calls_tags. apply list_elem_of_In, in_map_iff.
  exists c. split; [reflexivity|now apply list_elem_of_In].
Qed.

Lemma walk_in_calls l m : (l, m) ∈ W -> exists c, c ∈ cl /\ callTag c = (l, m).
Proof.
  rewrite <- calls_tags. intros H. apply list_elem_of_In, in_map_iff in H.
  destruct H as [c [Hc Hin]]. exists c. split; [now apply list_elem_of_In|exact Hc].
Qed.

Lemma call_level_lev c : c ∈ cl -> lev (callId c) = call_level c.
Proof.
  intros Hc. apply (levelOfId_spec W (call_level c) (call_node c));
    [exact walk_nodup|now apply call_in_walk].
Qed.

Lemma idx_of_call i c : cl !! i = Some c -> idx !! callId c = Some i.
Proof.
  intros Hc.
  assert (Hq : newNodes st !! i = Some (callNode E isDark c)).
  { rewrite placed_nodes. change (map (callNode E isDark) cl) with (callNode E isDark <$> cl).
    now rewrite list_lookup_fmap, Hc. }
  pose proof (indexFrom_lookup (newNodes st) 0 ∅ i _
                ltac:(rewrite placed_ids; exact calls_nodup) Hq) as H.
  exact H.
Qed.

Lemma idx_call a i : idx !! a = Some i -> exists c, cl !! i = Some c /\ callId c = a.
Proof.
  intros H. apply indexFrom_inv in H. destruct H as [H|(j & q & -> & Hj & Hq)].
  - rewrite lookup_empty in H. discriminate H.
  - rewrite placed_nodes in Hj.
    change (map (callNode E isDark) cl) with (callNode E isDark <$> cl) in Hj.
    rewrite list_lookup_fmap in Hj.
    destruct (cl !! j) as [c|] eqn:Hc; [|discriminate Hj].
    injection Hj as <-. exists c. split; [exact Hc|exact Hq].
Qed.

Lemma idx_of_member c : c ∈ cl -> is_Some (idx !! callId c).
Proof.
  intros Hc. apply list_elem_of_lookup in Hc. destruct Hc as [i Hi].
  exists i. now apply idx_of_call.
Qed.

Lemma placed_idx_inj a b i : idx !! a = Some i -> idx !! b = Some i -> a = b.
Proof.
  intros Ha Hb. apply idx_call in Ha. apply idx_call in Hb.
  destruct Ha as [c [Hc <-]]. destruct Hb as [c' [Hc' <-]]. congruence.
Qed.

Lemma placed_inRange : inRange idx (newNodes st).
Proof.
  intros a i H. apply idx_call in H. destruct H as [c [Hc _]].
  rewrite placed_nodes, length_map. eapply lookup_lt_Some; eauto.
Qed.

Lemma placed_cm_kids a kids k :
  cm !! a = Some kids -> k ∈ kids -> is_Some (idx !! k) /\ lev k = S (lev a).
Proof.
  intros Hcm Hk. rewrite placed_calls in Hcm.
  apply runCalls_childrenMap_inv in Hcm.
  destruct Hcm as [Hcm|(c & Hc & <- & ->)].
  { cbn in Hcm. rewrite lookup_empty in Hcm. discriminate Hcm. }
  unfold callKids in Hk. apply list_elem_of_In, in_map_iff in Hk.
  destruct Hk as [child [<- Hchild]].
  pose proof (forestWalk_children sized (call_level c) (call_node c) child
                (call_in_walk c Hc) (proj2 (list_elem_of_In _ _) Hchild)) as Hw.
  destruct (walk_in_calls _ _ Hw) as [c' [Hc' Htag]].
  injection Htag as Hl Hn.
  assert (Hid : callId c' = node_id child) by (unfold callId; now rewrite Hn).
  rewrite <- Hid. split; [now apply idx_of_member|].
  rewrite (call_level_lev c' Hc'), (call_level_lev c Hc). exact Hl.
Qed.

Lemma placed_levelMapOk : levelMapOk st.
Proof.
  rewrite placed_calls. apply runCalls_levelMapOk.
  intros l. cbn. now rewrite lookup_empty.
Qed.

Lemma levelIds_member l a :
  a ∈ levelIds l (newNodes st) <-> exists c, c ∈ cl /\ callId c = a /\ call_level c = l.
Proof.
  unfold levelIds. rewrite placed_nodes. split.
  - intros H. apply list_elem_of_In, in_map_iff in H. destruct H as [q [<- Hq]].
    apply list_elem_of_In, list_elem_of_filter in Hq. destruct Hq as [Hl Hq].
    apply list_elem_of_In, in_map_iff in Hq. destruct Hq as [c [<- Hc]].
    exists c. split; [now apply list_elem_of_In|]. split; [reflexivity|exact Hl].
  - intros (c & Hc & <- & <-). apply list_elem_of_In, in_map_iff.
    exists (callNode E isDark c). split; [reflexivity|].
    apply list_elem_of_In, list_elem_of_filter. split; [reflexivity|].
    apply list_elem_of_In, in_map. now apply list_elem_of_In.
Qed.

Lemma placed_lm_level l ids a :
  lm !! l = Some ids -> a ∈ ids -> is_Some (idx !! a) /\ lev a = l.
Proof.
  intros Hl Ha. pose proof (placed_levelMapOk l) as Hok. rewrite Hl in Hok.
  cbn [default from_option id] in Hok. rewrite Hok in Ha.
  apply levelIds_member in Ha. destruct Ha as (c & Hc & <- & <-).
  split; [now apply idx_of_member|now apply call_level_lev].
Qed.

Lemma placed_lm_nodup l ids : lm !! l = Some ids -> NoDup ids.
Proof.
  intros Hl. pose proof (placed_levelMapOk l) as Hok. rewrite Hl in Hok.
  cbn [default from_option id] in Hok. rewrite Hok. unfold levelIds.
  apply NoDup_map_filter. rewrite placed_ids. exact calls_nodup.
Qed.

Lemma placed_lm_complete a i :
  idx !! a = Some i -> exists ids, lm !! lev a = Some ids /\ a ∈ ids.
Proof.
  intros H. apply idx_call in H. destruct H as [c [Hc <-]].
  assert (Hin : c ∈ cl) by (eapply list_elem_of_lookup_2; eauto).
  assert (Hmem : callId c ∈ levelIds (lev (callId c)) (newNodes st)).
  { apply levelIds_member. exists c. split; [exact Hin|].
    split; [reflexivity|]. symmetry. now apply call_level_lev. }
  rewrite <- placed_levelMapOk in Hmem.
  destruct (lm !! lev (callId c)) as [ids|]; [|inversion Hmem].
  exists ids. split; [reflexivity|exact Hmem].
Qed.

(** *** The nodes after the passes *)

Lemma afterFirstPass_shape : map unY (afterFirstPass E st) = map unY (newNodes st).
Proof. unfold afterFirstPass. apply runCollisionPass_shape. Qed.

Lemma afterRecenter_shape : map unY (afterRecenter E st) = map unY (newNodes st).
Proof.
  unfold afterRecenter. rewrite recenter_shape. apply afterFirstPass_shape.
Qed.

Lemma afterSecondPass_shape : map unY (afterSecondPass E st) = map unY (newNodes st).
Proof.
  unfold afterSecondPass. rewrite runCollisionPass_shape. apply afterRecenter_shape.
Qed.

Lemma shape_inRange ns : map unY ns = map unY (newNodes st) -> inRange idx ns.
Proof.
  intros Hs a i H. rewrite (shape_length _ _ Hs). now apply (placed_inRange a i).
Qed.

(** A node of a list with the shape of [newNodes] is the node its id
    is indexed at. *)
Lemma shape_node ns i p :
  map unY ns = map unY (newNodes st) -> ns !! i = Some p ->
  exists c, cl !! i = Some c /\ fn_id p = callId c
            /\ data_level (fn_data p) = call_level c
            /\ idx !! fn_id p = Some i
            /\ yOf idx ns (fn_id p) = pos_y (fn_position p).
Proof.
  intros Hs Hp. destruct (shape_lookup (newNodes st) ns i p Hs Hp) as [p0 [Hp0 Hu]].
  rewrite placed_nodes in Hp0.
  change (map (callNode E isDark) cl) with (callNode E isDark <$> cl) in Hp0.
  rewrite list_lookup_fmap in Hp0.
  destruct (cl !! i) as [c|] eqn:Hc; [|discriminate Hp0].
  injection Hp0 as <-. unfold unY in Hu. injection Hu as Hid Hdata _.
  cbn in Hid, Hdata.
  assert (Hi : idx !! fn_id p = Some i).
  { rewrite <- Hid. change (node_id (call_node c)) with (callId c).
    now apply idx_of_call. }
  exists c. split; [reflexivity|]. split; [now rewrite <- Hid|].
  split; [now rewrite <- Hdata|]. split; [exact Hi|].
  unfold yOf, indexOf, nodeY. rewrite Hi. cbn [default from_option id].
  now rewrite Hp.
Qed.

Lemma shape_ids_nodup ns :
  map unY ns = map unY (newNodes st) -> NoDup (map fn_id ns).
Proof.
  intros Hs.
  assert (H : map fn_id ns = map fn_id (newNodes st)).
  { apply (f_equal (map (fun u : string * NodeData * Q => fst (fst u)))) in Hs.
    now rewrite !map_map in Hs. }
  rewrite H, placed_ids. exact calls_nodup.
Qed.

Lemma find_by_id (ns : list FlowNode) : forall i p,
    NoDup (map fn_id ns) -> ns !! i = Some p ->
    find (fun q => String.eqb (fn_id q) (fn_id p)) ns = Some p.
Proof.
  induction ns as [|q ns IH]; intros i p Hnd Hp; [inversion Hp|].
  cbn [map] in Hnd. apply NoDup_cons in Hnd. destruct Hnd as [Hfresh Hnd].
  cbn [find]. destruct i as [|i].
  - injection Hp as ->. now rewrite String.eqb_refl.
  - cbn in Hp. destruct (String.eqb (fn_id q) (fn_id p)) eqn:Heq.
    + apply String.eqb_eq in Heq. exfalso. apply Hfresh. rewrite Heq.
      apply list_elem_of_In, in_map. apply list_elem_of_In.
      eapply list_elem_of_lookup_2; eauto.
    + eapply IH; eauto.
Qed.

Lemma positionY_yOf ns a i :
  map unY ns = map unY (newNodes st) -> idx !! a = Some i ->
  positionY ns a = yOf idx ns a.
Proof.
  intros Hs Hi.
  assert (Hlt : (i < length ns)%nat) by (eapply shape_inRange; eauto).
  destruct (lookup_lt_is_Some_2 ns i Hlt) as [p Hp].
  destruct (shape_node ns i p Hs Hp) as (c & Hc & Hid & _ & Hi' & Hy).
  assert (a = fn_id p) by (eapply placed_idx_inj; eauto). subst a.
  rewrite Hy. unfold positionY.
  now rewrite (find_by_id ns i p (shape_ids_nodup ns Hs) Hp).
Qed.

(** *** Separation after a collision pass *)

Lemma collisionPass_separates ns p q :
  map unY ns = map unY (newNodes st) ->
  let ns' := runCollisionPass E lm cm mind idx (layoutFuel st) ns in
  p ∈ ns' -> q ∈ ns' -> p <> q ->
  data_level (fn_data p) = data_level (fn_data q) ->
  (inject_Z (heightOf E mind (fn_id p)) / 2 + inject_Z (heightOf E mind (fn_id q)) / 2
   + inject_Z minVerticalGap
   <= Qabs (pos_y (fn_position p) - pos_y (fn_position q)))%Q.
Proof.
  intros Hs ns' Hp Hq Hne Hlev.
  assert (Hs' : map unY ns' = map unY (newNodes st)).
  { subst ns'. now rewrite runCollisionPass_shape. }
  apply list_elem_of_lookup in Hp. destruct Hp as [i Hp].
  apply list_elem_of_lookup in Hq. destruct Hq as [j Hq].
  destruct (shape_node ns' i p Hs' Hp) as (c & Hc & Hidp & Hlp & Hip & Hyp).
  destruct (shape_node ns' j q Hs' Hq) as (c' & Hc' & Hidq & Hlq & Hiq & Hyq).
  assert (Hids : fn_id p <> fn_id q).
  { intros Heq. apply Hne. rewrite Heq in Hip.
    assert (i = j) by congruence. subst j. congruence. }
  destruct (placed_lm_complete (fn_id p) i Hip) as [ids [Hlm Hin]].
  destruct (placed_lm_complete (fn_id q) j Hiq) as [ids' [Hlm' Hin']].
  assert (Hsame : lev (fn_id p) = lev (fn_id q)).
  { rewrite Hidp, Hidq.
    rewrite (call_level_lev c), (call_level_lev c');
      [congruence| |]; eapply list_elem_of_lookup_2; eauto. }
  rewrite <- Hsame, Hlm in Hlm'. injection Hlm' as <-.
  destruct (runCollisionPass_separates E lm cm mind idx lev
              placed_idx_inj placed_cm_kids placed_lm_level placed_lm_nodup
              (length (newNodes st)) ns (lev (fn_id p)) ids
              (shape_inRange ns Hs) Hlm) as [_ Hsep].
  specialize (Hsep (fn_id p) (fn_id q) Hin Hin' Hids).
  unfold separated in Hsep.
  change (runCollisionPass E lm cm mind idx (S (length (newNodes st))) ns)
    with ns' in Hsep.
  now rewrite Hyp, Hyq in Hsep.
Qed.

(** *** Centering after the recentering loop *)

Lemma fold_left_Qplus (l : list Q) : forall a,
    (fold_left Qplus l a == a + foldr Qplus 0 l)%Q.
Proof.
  induction l as [|x l IH]; intros a; cbn [fold_left foldr].
  - lra.
  - rewrite IH. lra.
Qed.

Lemma recenter_centered m :
  m ∈ forestNodes sized -> node_children m <> [] ->
  let ns := afterRecenter E st in
  (positionY ns (node_id m)
   == mean (map (fun c => positionY ns (node_id c)) (node_children m)))%Q.
Proof.
  intros Hm Hkids ns.
  assert (Hs : map unY ns = map unY (newNodes st)) by apply afterRecenter_shape.
  rewrite <- forestWalk_nodes in Hm. apply list_elem_of_In, in_map_iff in Hm.
  destruct Hm as [[l m'] [Heq Hw]]. cbn in Heq. subst m'.
  destruct (walk_in_calls l m (proj2 (list_elem_of_In _ _) Hw)) as [c [Hc Htag]].
  injection Htag as Hl Hn.
  assert (Hid : callId c = node_id m) by (unfold callId; now rewrite Hn).
  destruct (idx_of_member c Hc) as [i Hi]. rewrite Hid in Hi.
  assert (Hcm : cm !! node_id m = Some (map node_id (node_children m))).
  { rewrite <- Hid, <- Hn. rewrite placed_calls.
    apply runCalls_childrenMap; [exact calls_nodup|exact Hc]. }
  destruct (recenter_centers lm cm idx lev
              placed_idx_inj placed_cm_kids placed_lm_level placed_lm_nodup
              placed_lm_complete (afterFirstPass E st) (node_id m) i
              (shape_inRange _ afterFirstPass_shape) Hi) as [_ Hcen].
  fold (afterRecenter E st) in Hcen. fold ns in Hcen.
  destruct (node_children m) as [|k kids] eqn:Hch; [congruence|].
  specialize (Hcen (node_id k) (map node_id kids) Hcm).
  rewrite (positionY_yOf ns (node_id m) i Hs Hi), Hcen.
  unfold averageY, mean.
  assert (Hys : map (yOf idx ns) (node_id k :: map node_id kids) =
                map (fun c0 => positionY ns (node_id c0)) (k :: kids)).
  { change (node_id k :: map node_id kids) with (map node_id (k :: kids)).
    rewrite map_map. apply map_ext_in. intros c0 Hc0. symmetry.
    destruct (placed_cm_kids (node_id m) _ (node_id c0) Hcm) as [[j Hj] _].
    { apply list_elem_of_In, in_map. exact Hc0. }
    now apply (positionY_yOf ns (node_id c0) j). }
  rewrite Hys. rewrite fold_left_Qplus. unfold Qdiv.
  rewrite Qplus_0_l. reflexivity.
Qed.

End LayoutFacts.

(** ** C2: separation within a level *)

(** Sizing keeps the id and the description of every node. *)
Lemma sized_twin (E : gset string) (n m : MindMapNode) :
  m ∈ nodesOf n ->
  exists m', m' ∈ nodesOf (snd (calcHeight E n))
             /\ node_id m' = node_id m
             /\ node_description m' = node_description m.
Proof.
  revert m. induction n as [i t d cs r IH] using MindMapNode_ind. intros m Hm.
  cbn [nodesOf] in Hm. apply elem_of_cons in Hm. destruct Hm as [->|Hm].
  - exists (snd (calcHeight E (MkNode i t d cs r))).
    split; [|split; [apply calcHeight_id|apply calcHeight_description]].
    destruct (snd (calcHeight E (MkNode i t d cs r))). left.
  - apply list_elem_of_In, in_flat_map in Hm. destruct Hm as [c [Hc Hm]].
    rewrite Forall_forall in IH.
    destruct (IH c (proj2 (list_elem_of_In _ _) Hc) m (proj2 (list_elem_of_In _ _) Hm))
      as (m' & Hm' & Hid & Hd).
    exists m'. split; [|auto].
    pose proof (calcHeight_children E (MkNode i t d cs r)) as Hkids.
    destruct (snd (calcHeight E (MkNode i t d cs r))) as [i' t' d' cs' r'].
    cbn [node_children] in Hkids. subst cs'. cbn [nodesOf]. right.
    apply list_elem_of_In, in_flat_map.
    exists (snd (calcHeight E c)). split; [|now apply list_elem_of_In].
    apply in_map_iff. eauto.
Qed.

(** The height the collision pass uses at the id of a node of the
    forest is the height of that node's card. *)
Lemma heightOf_forest_node
  (E : gset string) (isDark : bool) (roots : list MindMapNode) (m : MindMapNode) :
  wellFormed roots ->
  m ∈ forestNodes roots ->
  heightOf E (idToMindNode (placed E isDark roots)) (node_id m) =
    Z.max 100 (estimateSelfHeight E m).
Proof.
  intros Hwf Hm. unfold forestNodes in Hm.
  apply list_elem_of_In, in_flat_map in Hm. destruct Hm as [r [Hr Hm]].
  destruct (sized_twin E r m (proj2 (list_elem_of_In _ _) Hm)) as (m' & Hm' & Hid & Hd).
  assert (Hin : In m' (forestNodes (sizeRoots E roots))).
  { unfold forestNodes, sizeRoots. apply in_flat_map.
    exists (snd (calcHeight E r)). split; [|now apply list_elem_of_In].
    apply in_map_iff. eauto. }
  rewrite <- forestWalk_nodes in Hin. apply in_map_iff in Hin.
  destruct Hin as [[l x] [Heq Hw]]. cbn in Heq. subst x.
  destruct (walk_in_calls E roots l m' (proj2 (list_elem_of_In _ _) Hw))
    as [c [Hc Htag]].
  injection Htag as _ Hn. unfold heightOf.
  rewrite placed_calls, <- Hid, <- Hn.
  change (node_id (call_node c)) with (callId c).
  rewrite (runCalls_mind E isDark _ c emptyState (calls_nodup E roots Hwf) Hc).
  cbn [default from_option id]. f_equal.
  rewrite Hn. apply estimateSelfHeight_fields; assumption.
Qed.

(** C2: in the output of the layout of a well-formed forest, two
    distinct positioned nodes of the same depth level have centers at
    least the sum of their half-heights plus the gap apart.  The height
    of a positioned node is the height of the card of its tree node,
    the estimate [estimateSelfHeight] of that node or 100 if that is
    more; the bound holds with the gap of the collision pass,
    [minVerticalGap], and so also with the smaller gap of the sizing
    pass, [minGap]. *)
Theorem same_level_nodes_keep_their_distance
  (E : gset string) (isDark : bool) (roots : list MindMapNode)
  (m n : MindMapNode) (p q : FlowNode) :
  wellFormed roots ->
  m ∈ forestNodes roots ->
  n ∈ forestNodes roots ->
  p ∈ out_nodes (convertMindMapToFlow E isDark roots) ->
  q ∈ out_nodes (convertMindMapToFlow E isDark roots) ->
  fn_id p = node_id m ->
  fn_id q = node_id n ->
  p <> q ->
  data_level (fn_data p) = data_level (fn_data q) ->
  let distance := Qabs (pos_y (fn_position p) - pos_y (fn_position q)) in
  let halves :=
    (inject_Z (Z.max 100 (estimateSelfHeight E m)) / 2
     + inject_Z (Z.max 100 (estimateSelfHeight E n)) / 2)%Q in
  (halves + inject_Z minVerticalGap <= distance)%Q
  /\ (halves + inject_Z minGap <= distance)%Q.
Proof.
  intros Hwf Hm Hn Hp Hq Hpm Hqn Hne Hlev distance halves.
  assert (H : (halves + inject_Z minVerticalGap <= distance)%Q).
  { subst halves distance.
    rewrite <- (heightOf_forest_node E isDark roots m Hwf Hm).
    rewrite <- (heightOf_forest_node E isDark roots n Hwf Hn).
    rewrite <- Hpm, <- Hqn.
    apply (collisionPass_separates E isDark roots Hwf
             (afterRecenter E (placed E isDark roots)) p q
             (afterRecenter_shape E isDark roots)); assumption. }
  split; [exact H|].
  assert (Hg : (inject_Z minGap <= inject_Z minVerticalGap)%Q).
  { rewrite <- Zle_Qle. unfold minGap, minVerticalGap. lia. }
  clearbody halves distance. lra.
Qed.

Lemma same_level_nodes_keep_their_distance_witness :
  let p := MkFlowNode "A" (MkPos 720 (272 # 2)) (MkData "t" longText 1 true false) in
  let q := MkFlowNode "B" (MkPos 720 (11520 # 32)) (MkData "t" longText 1 true false) in
  (172 / 2 + 172 / 2 + 52 <= Qabs (pos_y (fn_position p) - pos_y (fn_position q)))%Q.
Proof.
  intros p q.
  assert (Hwf : wellFormed twoExpanded).
  { unfold wellFormed. vm_compute. repeat constructor; set_solver. }
  assert (Hm : MkNode "A" "t" (Some longText) [] None ∈ forestNodes twoExpanded).
  { cbn. right. left. }
  assert (Hn : MkNode "B" "t" (Some longText) [] None ∈ forestNodes twoExpanded).
  { cbn. right. right. left. }
  assert (Hp : p ∈ out_nodes (convertMindMapToFlow {[ "A"; "B" ]} false twoExpanded)).
  { vm_compute. right. left. }
  assert (Hq : q ∈ out_nodes (convertMindMapToFlow {[ "A"; "B" ]} false twoExpanded)).
  { vm_compute. right. right. left. }
  assert (Hne : p <> q) by discriminate.
  exact (proj1 (same_level_nodes_keep_their_distance {[ "A"; "B" ]} false twoExpanded
                  _ _ p q Hwf Hm Hn Hp Hq eq_refl eq_refl Hne eq_refl)).
Defined.

(** ** C4: parents and the average of their children *)

(** C4, as stated, fails: in the output for a root with a leaf child
    and a second child that has one child of its own, the root sits at
    164 while its children sit at 100 and 252. *)
Lemma output_parent_off_center :
  ~ (forall (E : gset string) (isDark : bool) (roots : list MindMapNode)
       (m : MindMapNode),
        wellFormed roots ->
        m ∈ forestNodes (out_roots (convertMindMapToFlow E isDark roots)) ->
        node_children m <> [] ->
        let ns := out_nodes (convertMindMapToFlow E isDark roots) in
        (positionY ns (node_id m)
         == mean (map (fun c => positionY ns (node_id c)) (node_children m)))%Q).
Proof.
  intros H.
  assert (Hwf : wellFormed leafAndChain).
  { unfold wellFormed. vm_compute. repeat constructor; set_solver. }
  specialize (H ∅ false leafAndChain
                (MkNode "R" "t" None
                   [MkNode "P0" "t" None [] (Some 100);
                    MkNode "P1" "t" None [MkNode "c1" "t" None [] (Some 100)] (Some 148)]
                   (Some 344))
                Hwf).
  assert (Hin : MkNode "R" "t" None
                  [MkNode "P0" "t" None [] (Some 100);
                   MkNode "P1" "t" None [MkNode "c1" "t" None [] (Some 100)] (Some 148)]
                  (Some 344)
                  ∈ forestNodes (out_roots (convertMindMapToFlow ∅ false leafAndChain))).
  { vm_compute. left. }
  specialize (H Hin ltac:(discriminate)). vm_compute in H. discriminate H.
Qed.

(** C4, amended: right after the recentering loop, before the second
    collision pass, every node with children sits at the arithmetic mean
    of its children's [y]. *)
Theorem recentering_puts_parents_at_the_mean
  (E : gset string) (isDark : bool) (roots : list MindMapNode) (m : MindMapNode) :
  wellFormed roots ->
  m ∈ forestNodes (out_roots (convertMindMapToFlow E isDark roots)) ->
  node_children m <> [] ->
  let ns := afterRecenter E (placed E isDark roots) in
  (positionY ns (node_id m)
   == mean (map (fun c => positionY ns (node_id c)) (node_children m)))%Q.
Proof.
  intros Hwf Hm Hkids. now apply recenter_centered.
Qed.

Lemma recentering_puts_parents_at_the_mean_witness :
  let ns := afterRecenter ∅ (placed ∅ false leafAndChain) in
  (positionY ns "R" == mean [positionY ns "P0"; positionY ns "P1"])%Q.
Proof.
  assert (Hwf : wellFormed leafAndChain).
  { unfold wellFormed. vm_compute. repeat constructor; set_solver. }
  assert (Hin : MkNode "R" "t" None
                  [MkNode "P0" "t" None [] (Some 100);
                   MkNode "P1" "t" None [MkNode "c1" "t" None [] (Some 100)] (Some 148)]
                  (Some 344)
                  ∈ forestNodes (out_roots (convertMindMapToFlow ∅ false leafAndChain))).
  { vm_compute. left. }
  exact (recentering_puts_parents_at_the_mean ∅ false leafAndChain _ Hwf Hin
           ltac:(discriminate)).
Defined.

(** ** Concrete runs of the coordinator *)

Lemma no_poll_after_completed_witness :
  let s := Sync.initialFetched inProgress Sync.initial in
  let data := MkProgress (Some "done") None None (Some true) in
  let es :=
    [Sync.Settled (HttpOk inProgress); Sync.TimerFired 1;
     Sync.Progress (MkProgress (Some "late") None None None); Sync.Close] in
  p_completed data = Some true
  /\ Sync.requests (Sync.env (Sync.run r_message (Sync.onProgress data s) es)) = 1%nat.
Proof.
  intros s data es. split; [reflexivity|].
  destruct (no_poll_after_completed r_message s data es eq_refl) as (_ & H & _).
  exact H.
Defined.


(** A response that is not ok is not a rejection: [getMindMap] turns it
    into the fallback shape, and [pollOnce] then stops the loop. *)
Remark http_error_stops_polling
  (stringify : MindMapResponse -> string) (s : Sync.Coordinator) (code : nat) :
  Sync.pollingActiveRef (Sync.refs (Sync.settle stringify (HttpError code) s)) = false.
Proof.
  unfold Sync.settle, Sync.pollResolved. cbn [getMindMap mind_map].
  destruct (Sync.pollingActiveRef (Sync.refs s)) eqn:Ha; [|exact Ha].
  apply stopPolling_inactive.
Qed.

(** C7: the code breaks the claim when the view is opened again
    before the request resolves.  The flag is one ref shared by all
    sessions of the view, so the check after the [await] passes once the
    first fetch of the new session has set the flag again.  A poll is in
    flight when the view is closed; the view is reopened and its first
    fetch reports the flow ready; then the old request resolves with a
    flow in progress: the status of the view goes back to not ready, the
    payload is overwritten and a poll is scheduled.  When the poll of
    the new session resolves too, two timeouts are pending, and both
    issue a request. *)
Theorem late_response_after_reopen_is_applied :
  let opened := Sync.initialFetched inProgress Sync.initial in
  let closed := Sync.closeEverything opened in
  let reopened := Sync.initialFetched ready closed in
  let late := Sync.settle r_message (HttpOk inProgress) reopened in
  let both := Sync.settle r_message (HttpOk ready) late in
  Sync.requests (Sync.env opened) = 1%nat
  /\ Sync.pollingActiveRef (Sync.refs closed) = false
  /\ Sync.settle r_message (HttpOk inProgress) closed = closed
  /\ Sync.status (Sync.view reopened) = Some true
  /\ Sync.pollingTimeoutRef (Sync.refs reopened) = None
  /\ Sync.status (Sync.view late) = Some false
  /\ Sync.lastPayloadRef (Sync.refs late) <> Sync.lastPayloadRef (Sync.refs reopened)
  /\ Sync.timers (Sync.env late) !! 1%nat = Some Sync.pollInterval
  /\ Sync.timers (Sync.env both) !! 1%nat = Some Sync.pollInterval
  /\ Sync.timers (Sync.env both) !! 2%nat = Some Sync.pollInterval
  /\ Sync.requests (Sync.env reopened) = 2%nat
  /\ Sync.requests
       (Sync.env (Sync.run r_message both [Sync.TimerFired 1; Sync.TimerFired 2])) =
     4%nat.
Proof.
  cbv zeta. repeat split; try reflexivity. discriminate.
Qed.

(** ** The recursion bound of [applyShiftRec] *)

Lemma fold_left_ext_in {A B : Type} (f g : A -> B -> A) (l : list B) :
  (forall x b, b ∈ l -> f x b = g x b) -> forall x, fold_left f l x = fold_left g l x.
Proof.
  induction l as [|b l IH]; intros H x; [reflexivity|].
  cbn [fold_left]. rewrite (H x b) by left. apply IH.
  intros y c Hc. apply H. now right.
Qed.

Section FuelFacts.

Variable E : gset string.
Variable lm : gmap nat (list string).
Variable cm : gmap string (list string).
Variable mind : gmap string MindMapNode.
Variable idx : gmap string nat.
Variable lev : string -> nat.
Variable depth : nat.

Hypothesis kids_deeper : forall a kids k,
    cm !! a = Some kids -> k ∈ kids -> lev k = S (lev a) /\ (lev k <= depth)%nat.

(** Once the bound exceeds the depth left below [a], more of it
    changes nothing: the recursion has ended by itself. *)
Lemma applyShiftRec_more_fuel fuel : forall a dy ns more,
    (depth - lev a < fuel)%nat ->
    applyShiftRec cm idx (fuel + more) a dy ns = applyShiftRec cm idx fuel a dy ns.
Proof.
  induction fuel as [|fuel IH]; intros a dy ns more Hlt; [lia|].
  cbn [Nat.add applyShiftRec]. apply fold_left_ext_in. intros x k Hk.
  destruct (cm !! a) as [kids|] eqn:Hcm; [|inversion Hk].
  destruct (kids_deeper a kids k Hcm Hk) as [Hlk Hd].
  apply IH. lia.
Qed.

Lemma runCollisionPass_more_fuel fuel more ns :
  (depth < fuel)%nat ->
  runCollisionPass E lm cm mind idx (fuel + more) ns =
    runCollisionPass E lm cm mind idx fuel ns.
Proof.
  intros Hlt. unfold runCollisionPass. apply fold_left_ext_in. intros x lvl _.
  unfold collideLevel. f_equal. apply fold_left_ext_in. intros [pb y] a _.
  unfold collideStep. destruct pb as [v|]; [|reflexivity].
  destruct (Qltb _ _); [|reflexivity].
  rewrite applyShiftRec_more_fuel by lia. reflexivity.
Qed.

End FuelFacts.

Lemma walk_level_bound n : forall l l' m,
    (l', m) ∈ walk l n -> (l' < l + length (walk l n))%nat.
Proof.
  induction n as [i t d cs r IH] using MindMapNode_ind. intros l l' m H.
  cbn [walk length] in *. apply elem_of_cons in H. destruct H as [Heq|H].
  - injection Heq as -> _. lia.
  - enough (l' < S l + length (flat_map (walk (S l)) cs))%nat by lia.
    clear -IH H. induction IH as [|c cs Hc _ IHcs]; [inversion H|].
    cbn [flat_map] in *. rewrite length_app. apply elem_of_app in H.
    destruct H as [H|H].
    + specialize (Hc (S l) l' m H). lia.
    + specialize (IHcs H). lia.
Qed.

Lemma forestWalk_level_bound roots l m :
  (l, m) ∈ forestWalk roots -> (l < length (forestWalk roots))%nat.
Proof.
  unfold forestWalk. induction roots as [|r roots IH]; intros H; [inversion H|].
  cbn [flat_map] in *. rewrite length_app. apply elem_of_app in H.
  destruct H as [H|H].
  - pose proof (walk_level_bound r 0 l m H). lia.
  - specialize (IH H). lia.
Qed.

(** X13: for a well-formed forest the bound [layoutFuel] on the
    recursion of [applyShiftRec] is never reached: a collision pass run
    with any larger bound gives the same nodes, on every list of
    positioned nodes. *)
Lemma layoutFuel_suffices
  (E : gset string) (isDark : bool) (roots : list MindMapNode) (more : nat)
  (ns : list FlowNode) :
  wellFormed roots ->
  let st := placed E isDark roots in
  let idx := indexFrom 0 (newNodes st) ∅ in
  runCollisionPass E (levelMap st) (childrenMap st) (idToMindNode st) idx
    (layoutFuel st + more) ns =
  runCollisionPass E (levelMap st) (childrenMap st) (idToMindNode st) idx
    (layoutFuel st) ns.
Proof.
  intros Hwf st idx.
  apply (runCollisionPass_more_fuel E (levelMap st) (childrenMap st) (idToMindNode st)
           idx (levelOfId (forestWalk (sizeRoots E roots))) (length (newNodes st))).
  - intros a kids k Hcm Hk.
    destruct (placed_cm_kids E isDark roots Hwf a kids k Hcm Hk) as [[j Hj] Hl].
    split; [exact Hl|].
    destruct (idx_call E isDark roots k j Hj) as [c [Hc <-]].
    assert (Hin : c ∈ rootCalls (sizeRoots E roots) 50)
      by (eapply list_elem_of_lookup_2; eauto).
    rewrite (call_level_lev E roots Hwf c Hin).
    pose proof (forestWalk_level_bound _ _ _ (call_in_walk E roots c Hin)) as Hb.
    subst st. rewrite placed_nodes, length_map.
    rewrite <- (calls_tags E roots), length_map in Hb. lia.
  - unfold layoutFuel. lia.
Qed.

(** X12: the height the collision pass uses for a node of a
    well-formed forest is the height of its own card, the estimate of
    the node or 100 if that is more, and not the height its subtree
    requires: the lookup of the node by its id always succeeds. *)
Lemma heightOf_placed
  (E : gset string) (isDark : bool) (roots : list MindMapNode) (m : MindMapNode) :
  wellFormed roots ->
  m ∈ forestNodes (sizeRoots E roots) ->
  heightOf E (idToMindNode (placed E isDark roots)) (node_id m) =
    Z.max 100 (estimateSelfHeight E m).
Proof.
  intros Hwf Hm.
  rewrite <- forestWalk_nodes in Hm. apply list_elem_of_In, in_map_iff in Hm.
  destruct Hm as [[l m'] [Heq Hw]]. cbn in Heq. subst m'.
  destruct (walk_in_calls E roots l m (proj2 (list_elem_of_In _ _) Hw))
    as [c [Hc Htag]].
  injection Htag as _ Hn. unfold heightOf.
  rewrite placed_calls, <- Hn.
  change (node_id (call_node c)) with (callId c).
  rewrite (runCalls_mind E isDark _ c emptyState (calls_nodup E roots Hwf) Hc).
  reflexivity.
Qed.

(** * Further properties of the layout *)

(** ** The positioned nodes and the tree *)

Lemma walk_sized_face (E : gset string) n : forall l,
    map face (walk l (snd (calcHeight E n))) = map face (walk l n).
Proof.
  induction n as [i t d cs r IH] using MindMapNode_ind. intros l.
  destruct cs as [|c cs]; [reflexivity|].
  rewrite calcHeight_inner. cbv zeta. cbn [snd walk].
  change (face (l, MkNode i t d (c :: cs) r)
            :: map face (flat_map (walk (S l))
                           (map (fun c0 => snd (calcHeight E c0)) (c :: cs)))
          = face (l, MkNode i t d (c :: cs) r)
              :: map face (flat_map (walk (S l)) (c :: cs))).
  f_equal.
  induction IH as [|x xs Hx _ IHxs]; [reflexivity|].
  cbn [map flat_map]. now rewrite !map_app, Hx, IHxs.
Qed.

Lemma forestWalk_sized_face (E : gset string) roots :
  map face (forestWalk (sizeRoots E roots)) = map face (forestWalk roots).
Proof.
  unfold forestWalk, sizeRoots.
  induction roots as [|r roots IH]; [reflexivity|].
  cbn [map flat_map]. now rewrite !map_app, walk_sized_face, IH.
Qed.

Lemma shownAs_face (E : gset string) (isDark : bool) x y :
  face x = face y -> shownAs E isDark x = shownAs E isDark y.
Proof.
  destruct x as [l m], y as [l' m']. unfold face. cbn [fst snd].
  intros H. injection H as -> Hi Ht Hd. unfold shownAs. now rewrite Hi, Ht, Hd.
Qed.

Lemma map_shownAs_face (E : gset string) (isDark : bool) l l' :
  map face l = map face l' -> map (shownAs E isDark) l = map (shownAs E isDark) l'.
Proof.
  revert l'. induction l as [|x l IH]; intros [|y l'] H; try discriminate H;
    [reflexivity|].
  cbn [map] in *.
  assert (Hx : face x = face y) by congruence.
  assert (Hl : map face l = map face l') by congruence.
  now rewrite (shownAs_face E isDark x y Hx), (IH l' Hl).
Qed.

(** X1: the layout returns one positioned node per node of the forest,
    in depth-first order, and everything about it except [y] is read
    off the tree node and its depth: the id, the title (or
    ["Untitled"]), the description (or the empty string), the level, the
    expanded flag (membership of the id in the expansion set), the
    theme, and the column [x = 200 + 520 * level]. *)
Theorem output_nodes_follow_the_tree
  (E : gset string) (isDark : bool) (roots : list MindMapNode) :
  map unY (out_nodes (convertMindMapToFlow E isDark roots)) =
    map (shownAs E isDark) (forestWalk roots).
Proof.
  cbn [convertMindMapToFlow out_nodes].
  rewrite afterSecondPass_shape, placed_nodes, map_map.
  rewrite <- (map_shownAs_face E isDark _ _ (forestWalk_sized_face E roots)).
  rewrite <- calls_tags, map_map. reflexivity.
Qed.

(** ** The edges *)

Lemma runCalls_edges (E : gset string) (isDark : bool) cl : forall st,
    newEdges (fold_left (runCall E isDark) cl st) =
      newEdges st ++ flat_map (callEdges isDark) cl.
Proof.
  induction cl as [|c cl IH]; intros st; cbn [fold_left flat_map].
  - now rewrite app_nil_r.
  - rewrite IH. unfold runCall, addSelf. cbn [newEdges].
    rewrite <- app_assoc. f_equal.
Qed.

Lemma childCalls_pairs (isDark : bool) (cs : list MindMapNode) (id : string) (level : nat) :
  Forall (fun c => forall p l y h,
              flat_map (callPairs isDark) (calls c p l y h) =
                incomingPair p c ++ treeEdges c) cs ->
  forall y,
    flat_map (callPairs isDark) (childCalls calls id level cs y) =
      flat_map (fun c => incomingPair (Some id) c ++ treeEdges c) cs.
Proof.
  induction 1 as [|c cs Hc _ IH]; intros y; [reflexivity|].
  cbn [childCalls flat_map]. now rewrite flat_map_app, Hc, IH.
Qed.

Lemma calls_pairs (isDark : bool) n : forall p l y h,
    flat_map (callPairs isDark) (calls n p l y h) = incomingPair p n ++ treeEdges n.
Proof.
  induction n as [i t d cs r IH] using MindMapNode_ind. intros p l y h.
  cbn [calls flat_map]. rewrite (childCalls_pairs isDark cs i l IH).
  f_equal.
  - unfold callPairs, callEdges, incomingPair, callId.
    cbn [call_parent call_node node_id]. now destruct (truthy p).
  - cbn [treeEdges]. apply flat_map_ext. intros c.
    unfold incomingPair. now destruct i.
Qed.

Lemma rootCalls_pairs (isDark : bool) roots : forall y,
    flat_map (callPairs isDark) (rootCalls roots y) = flat_map treeEdges roots.
Proof.
  induction roots as [|r roots IH]; intros y; [reflexivity|].
  cbn [rootCalls flat_map]. now rewrite flat_map_app, calls_pairs, IH.
Qed.

Lemma treeEdges_sized (E : gset string) n :
  treeEdges (snd (calcHeight E n)) = treeEdges n.
Proof.
  induction n as [i t d cs r IH] using MindMapNode_ind.
  destruct cs as [|c cs]; [reflexivity|].
  rewrite calcHeight_inner. cbv zeta. cbn [snd].
  change (flat_map (fun c0 => (if truthy (Some i) then [(i, node_id c0)] else [])
                              ++ treeEdges c0)
            (map (fun c0 => snd (calcHeight E c0)) (c :: cs))
          = flat_map (fun c0 => (if truthy (Some i) then [(i, node_id c0)] else [])
                                ++ treeEdges c0) (c :: cs)).
  induction IH as [|x xs Hx _ IHxs]; [reflexivity|].
  cbn [map flat_map]. now rewrite calcHeight_id, Hx, IHxs.
Qed.

Lemma map_flat_map {A B C : Type} (f : B -> C) (g : A -> list B) (l : list A) :
  map f (flat_map g l) = flat_map (fun a => map f (g a)) l.
Proof.
  induction l as [|a l IH]; [reflexivity|].
  cbn [flat_map]. now rewrite map_app, IH.
Qed.

Lemma placed_edges (E : gset string) (isDark : bool) roots :
  newEdges (placed E isDark roots) =
    flat_map (callEdges isDark) (rootCalls (sizeRoots E roots) 50).
Proof. rewrite placed_calls, runCalls_edges. reflexivity. Qed.

(** X2: the edges are the parent-to-child pairs of the forest, one for
    each child in depth-first order (none for the children of a node
    whose id is the empty string), and each edge is named
    ["e-" + source + "-" + target]. *)
Theorem output_edges_follow_the_tree
  (E : gset string) (isDark : bool) (roots : list MindMapNode) :
  map edgePair (out_edges (convertMindMapToFlow E isDark roots)) =
    flat_map treeEdges roots
  /\ forall e, e ∈ out_edges (convertMindMapToFlow E isDark roots) ->
               fe_id e = "e-" +:+ fe_source e +:+ "-" +:+ fe_target e.
Proof.
  cbn [convertMindMapToFlow out_edges]. rewrite placed_edges. split.
  - rewrite map_flat_map. change (fun a => map edgePair (callEdges isDark a))
      with (callPairs isDark).
    rewrite rootCalls_pairs. unfold sizeRoots.
    induction roots as [|r roots IH]; [reflexivity|].
    cbn [map flat_map]. now rewrite treeEdges_sized, IH.
  - intros e He. apply list_elem_of_In, in_flat_map in He.
    destruct He as [c [_ He]]. unfold callEdges in He.
    destruct (truthy (call_parent c)); [|inversion He].
    destruct He as [<-|[]]. reflexivity.
Qed.

(** ** The style of the edges *)

Lemma childCalls_member (cs : list MindMapNode) (id : string) (level : nat) c :
  forall y, c ∈ childCalls calls id level cs y ->
            exists x y' h', x ∈ cs /\ c ∈ calls x (Some id) (S level) y' h'.
Proof.
  induction cs as [|x cs IH]; intros y H; [inversion H|].
  cbn [childCalls] in H. apply elem_of_app in H. destruct H as [H|H].
  - exists x, y, (orNumber (_requiredHeight x) 100). split; [left|exact H].
  - destruct (IH _ H) as (x' & y' & h' & Hx & Hc).
    exists x', y', h'. split; [now right|exact Hc].
Qed.

Lemma calls_levels n : forall p l y h c,
    c ∈ calls n p l y h ->
    (call_parent c = p /\ call_level c = l) \/ (l < call_level c)%nat.
Proof.
  induction n as [i t d cs r IH] using MindMapNode_ind. intros p l y h c H.
  cbn [calls] in H. apply elem_of_cons in H. destruct H as [->|H]; [now left|].
  right. destruct (childCalls_member cs i l c y H) as (x & y' & h' & Hx & Hc).
  rewrite Forall_forall in IH.
  destruct (IH x Hx (Some i) (S l) y' h' c Hc) as [[_ Hl]|Hl]; lia.
Qed.

Lemma rootCalls_levels roots : forall y c,
    c ∈ rootCalls roots y -> truthy (call_parent c) = true -> (1 <= call_level c)%nat.
Proof.
  induction roots as [|r roots IH]; intros y c H Ht; [inversion H|].
  cbn [rootCalls] in H. apply elem_of_app in H. destruct H as [H|H].
  - destruct (calls_levels r None 0 y _ c H) as [[Hp _]|Hl]; [|lia].
    rewrite Hp in Ht. discriminate Ht.
  - eapply IH; eauto.
Qed.

Lemma shape_lookup_back ns ns' i p0 :
  map unY ns' = map unY ns -> ns !! i = Some p0 ->
  exists p, ns' !! i = Some p /\ unY p = unY p0.
Proof.
  intros Hs Hp. symmetry in Hs. exact (shape_lookup ns' ns i p0 Hs Hp).
Qed.

(** X3: every edge leads to a positioned node of level 1 or deeper and
    is styled by that level: the stroke is [getEdgeStroke level], the
    edge is animated exactly at level 1, and the width is 3, 2.5 or 2. *)
Theorem output_edges_are_styled_by_target_level
  (E : gset string) (isDark : bool) (roots : list MindMapNode) (e : FlowEdge) :
  e ∈ out_edges (convertMindMapToFlow E isDark roots) ->
  exists p,
    p ∈ out_nodes (convertMindMapToFlow E isDark roots)
    /\ fn_id p = fe_target e
    /\ (1 <= data_level (fn_data p))%nat
    /\ fe_stroke e = getEdgeStroke (data_level (fn_data p)) isDark
    /\ fe_animated e = Nat.eqb (data_level (fn_data p)) 1
    /\ fe_strokeWidth e = edgeWidth (data_level (fn_data p)).
Proof.
  cbn [convertMindMapToFlow out_edges out_nodes]. rewrite placed_edges. intros He.
  apply list_elem_of_In, in_flat_map in He. destruct He as [c [Hc He]].
  apply list_elem_of_In in Hc.
  unfold callEdges in He. destruct (truthy (call_parent c)) eqn:Ht; [|inversion He].
  destruct He as [<-|[]]. cbn [fe_target fe_stroke fe_animated fe_strokeWidth].
  pose proof (rootCalls_levels _ _ c Hc Ht) as Hl.
  apply list_elem_of_lookup in Hc. destruct Hc as [i Hi].
  assert (Hq : newNodes (placed E isDark roots) !! i = Some (callNode E isDark c)).
  { rewrite placed_nodes.
    change (map (callNode E isDark) (rootCalls (sizeRoots E roots) 50))
      with (callNode E isDark <$> rootCalls (sizeRoots E roots) 50).
    now rewrite list_lookup_fmap, Hi. }
  destruct (shape_lookup_back _ _ i _ (afterSecondPass_shape E isDark roots) Hq)
    as [p [Hp Hu]].
  unfold unY in Hu. injection Hu as Hid Hdata _. cbn in Hid.
  exists p. split; [eapply list_elem_of_lookup_2; eauto|].
  rewrite Hdata. cbn [fn_data callNode data_level]. auto.
Qed.

Lemma output_edges_are_styled_by_target_level_witness :
  let L := convertMindMapToFlow ∅ false onlyChild in
  let e := MkFlowEdge "e-p-c" "p" "c" true "hsl(249 73.7% 59.8%)" 3 in
  e ∈ out_edges L
  /\ exists p, p ∈ out_nodes L /\ fn_id p = "c" /\ (1 <= data_level (fn_data p))%nat
               /\ fe_stroke e = getEdgeStroke (data_level (fn_data p)) false.
Proof.
  intros L e.
  assert (He : e ∈ out_edges L) by (vm_compute; left).
  split; [exact He|].
  destruct (output_edges_are_styled_by_target_level ∅ false onlyChild e He)
    as (p & Hp & Hid & Hl & Hs & _).
  exists p. auto.
Defined.

(** ** Colours *)

(** X4: an edge has the background colour of a node of its level, in
    the dark theme at every level and in the light theme up to level 2. *)
Theorem edge_stroke_matches_node_background (level : nat) (isDark : bool) :
  isDark = true \/ (level <= 2)%nat ->
  getEdgeStroke level isDark = getLevelBackground level isDark.
Proof.
  intros [->|Hl].
  - destruct level as [|[|[|level]]]; reflexivity.
  - destruct level as [|[|[|level]]]; [| | |lia]; now destruct isDark.
Qed.

Lemma edge_stroke_matches_node_background_witness :
  (false = true \/ (2 <= 2)%nat)
  /\ getEdgeStroke 2 false = getLevelBackground 2 false.
Proof.
  split; [right; lia|].
  apply (edge_stroke_matches_node_background 2 false). right. lia.
Defined.

(** X5: the text of a node is white exactly when its background is one
    of the blue shades, and has the dark text colour exactly when the
    background is the light surface (light theme, level 3 and deeper). *)
Theorem node_text_contrasts_with_background (level : nat) (isDark : bool) :
  (textColor (getNodeColors level isDark) = DARK_TEXT
   <-> background (getNodeColors level isDark) <> LIGHT_SURFACE)
  /\ (textColor (getNodeColors level isDark) = LIGHT_TEXT
      <-> background (getNodeColors level isDark) = LIGHT_SURFACE)
  /\ (background (getNodeColors level isDark) = LIGHT_SURFACE
      <-> isDark = false /\ (3 <= level)%nat).
Proof.
  destruct isDark; destruct level as [|[|[|level]]]; cbn;
    repeat split; unfold not; intros;
    repeat match goal with H : _ /\ _ |- _ => destruct H end;
    first [ reflexivity | discriminate | lia
          | match goal with H : _ -> False |- _ => exfalso; apply H; reflexivity end ].
Qed.

(** ** Bounding box *)

Lemma fold_Qmin_lower (l : list Q) : forall a,
    (fold_left Qmin l a <= a)%Q /\ forall x, x ∈ l -> (fold_left Qmin l a <= x)%Q.
Proof.
  induction l as [|b l IH]; intros a; cbn [fold_left].
  - split; [apply Qle_refl|]. intros x Hx. inversion Hx.
  - destruct (IH (Qmin a b)) as [H1 H2]. split.
    + eapply Qle_trans; [exact H1|apply Q.le_min_l].
    + intros x Hx. apply elem_of_cons in Hx. destruct Hx as [->|Hx]; [|now apply H2].
      eapply Qle_trans; [exact H1|apply Q.le_min_r].
Qed.

Lemma fold_Qmax_upper (l : list Q) : forall a,
    (a <= fold_left Qmax l a)%Q /\ forall x, x ∈ l -> (x <= fold_left Qmax l a)%Q.
Proof.
  induction l as [|b l IH]; intros a; cbn [fold_left].
  - split; [apply Qle_refl|]. intros x Hx. inversion Hx.
  - destruct (IH (Qmax a b)) as [H1 H2]. split.
    + eapply Qle_trans; [apply Q.le_max_l|exact H1].
    + intros x Hx. apply elem_of_cons in Hx. destruct Hx as [->|Hx]; [|now apply H2].
      eapply Qle_trans; [apply Q.le_max_r|exact H1].
Qed.

Lemma Qminimum_lower d l x : x ∈ l -> (Qminimum d l <= x)%Q.
Proof.
  destruct l as [|a l]; intros H; [inversion H|]. cbn [Qminimum].
  destruct (fold_Qmin_lower l a) as [H1 H2].
  apply elem_of_cons in H. destruct H as [->|H]; auto.
Qed.

Lemma Qmaximum_upper d l x : x ∈ l -> (x <= Qmaximum d l)%Q.
Proof.
  destruct l as [|a l]; intros H; [inversion H|]. cbn [Qmaximum].
  destruct (fold_Qmax_upper l a) as [H1 H2].
  apply elem_of_cons in H. destruct H as [->|H]; auto.
Qed.

(** X6: for a non-empty list of nodes the translate extent exists and
    every node lies inside it with the margins of the code: 300 to the
    left, above and below, 800 to the right. *)
Theorem translate_extent_contains_every_node (nodes : list FlowNode) (p : FlowNode) :
  p ∈ nodes ->
  exists minX minY maxX maxY,
    translateExtent nodes = Some ((minX, minY), (maxX, maxY))
    /\ (minX + 300 <= pos_x (fn_position p))%Q
    /\ (pos_x (fn_position p) + 800 <= maxX)%Q
    /\ (minY + 300 <= pos_y (fn_position p))%Q
    /\ (pos_y (fn_position p) + 300 <= maxY)%Q.
Proof.
  intros Hp. destruct nodes as [|n nodes]; [inversion Hp|].
  unfold translateExtent. cbv zeta.
  set (xs := map (fun n0 => pos_x (fn_position n0)) (n :: nodes)).
  set (ys := map (fun n0 => pos_y (fn_position n0)) (n :: nodes)).
  assert (Hx : pos_x (fn_position p) ∈ xs).
  { apply list_elem_of_In. apply (in_map (fun n0 => pos_x (fn_position n0))).
    now apply list_elem_of_In. }
  assert (Hy : pos_y (fn_position p) ∈ ys).
  { apply list_elem_of_In. apply (in_map (fun n0 => pos_y (fn_position n0))).
    now apply list_elem_of_In. }
  pose proof (Qminimum_lower 0 xs _ Hx). pose proof (Qmaximum_upper 0 xs _ Hx).
  pose proof (Qminimum_lower 0 ys _ Hy). pose proof (Qmaximum_upper 0 ys _ Hy).
  eexists _, _, _, _. split; [reflexivity|].
  repeat split; lra.
Qed.

Lemma translate_extent_contains_every_node_witness :
  let nodes := out_nodes (convertMindMapToFlow ∅ false onlyChild) in
  let p := MkFlowNode "p" (MkPos 200 (200 # 2)) (MkData "Parent" "" 0 false false) in
  p ∈ nodes /\ is_Some (translateExtent nodes).
Proof.
  intros nodes p.
  assert (Hp : p ∈ nodes) by (vm_compute; left).
  split; [exact Hp|].
  destruct (translate_extent_contains_every_node nodes p Hp)
    as (a & b & c & d & H & _).
  rewrite H. eauto.
Defined.

(** ** The estimator *)

(** X7: an estimate lies between 72 and 328, a required height is at
    least 100, and adding a node's id to the expansion set never lowers
    its estimate. *)
Theorem estimate_is_bounded_and_grows_on_expansion (E : gset string) (n : MindMapNode) :
  72 <= estimateSelfHeight E n <= 328
  /\ 100 <= fst (calcHeight E n)
  /\ estimateSelfHeight E n <= estimateSelfHeight (E ∪ {[node_id n]}) n.
Proof.
  split; [split; [apply estimateSelfHeight_lower|apply estimateSelfHeight_upper]|].
  split; [apply calcHeight_lower|].
  destruct (decide (node_id n ∈ E)) as [Hin|Hout].
  - rewrite (estimateSelfHeight_same_flag E (E ∪ {[node_id n]}) n); [lia|set_solver].
  - pose proof (estimateSelfHeight_lower (E ∪ {[node_id n]}) n).
    unfold estimateSelfHeight at 1.
    rewrite (bool_decide_eq_false_2 _ Hout). cbn. unfold baseCollapsed. lia.
Qed.

Lemma truthy_length d :
  truthy d = true -> exists s, d = Some s /\ orString d "" = s /\ (1 <= String.length s)%nat.
Proof.
  destruct d as [[|a s]|]; intros H; try discriminate H.
  exists (String a s). split; [reflexivity|]. split; [reflexivity|]. cbn. lia.
Qed.

(** X8: for expanded nodes with a description the estimate is at least
    154, does not fall when the description gets longer, and is the
    maximum 328 once the description has more than 800 characters. *)
Theorem expanded_estimate_grows_with_description
  (E E' : gset string) (n n' : MindMapNode) (s s' : string) :
  node_id n ∈ E -> node_id n' ∈ E' ->
  node_description n = Some s -> node_description n' = Some s' ->
  (1 <= String.length s <= String.length s')%nat ->
  154 <= estimateSelfHeight E n <= estimateSelfHeight E' n'
  /\ ((800 < String.length s)%nat -> estimateSelfHeight E n = 328).
Proof.
  intros Hin Hin' Hd Hd' Hlen.
  assert (Ht : truthy (Some s) = true) by (destruct s; [cbn in Hlen; lia|reflexivity]).
  assert (Ht' : truthy (Some s') = true) by (destruct s'; [cbn in Hlen; lia|reflexivity]).
  assert (Ho : orString (Some s) "" = s) by (destruct s; [cbn in Hlen; lia|reflexivity]).
  assert (Ho' : orString (Some s') "" = s') by (destruct s'; [cbn in Hlen; lia|reflexivity]).
  unfold estimateSelfHeight.
  rewrite (bool_decide_eq_true_2 _ Hin), (bool_decide_eq_true_2 _ Hin').
  rewrite Hd, Hd', Ht, Ht', Ho, Ho'. cbn [negb orb]. unfold baseCollapsed, ceilDiv.
  set (a := Z.of_nat (String.length s)). set (b := Z.of_nat (String.length s')).
  assert (Ha : 1 <= a <= b) by (subst a b; lia).
  assert (H1 : 1 <= (a + 80 - 1) / 80).
  { apply Z.div_le_lower_bound; lia. }
  assert (H2 : (a + 80 - 1) / 80 <= (b + 80 - 1) / 80) by (apply Z.div_le_mono; lia).
  split; [lia|]. intros H800.
  assert (H3 : 11 <= (a + 80 - 1) / 80).
  { apply Z.div_le_lower_bound; subst a; lia. }
  lia.
Qed.

Lemma expanded_estimate_grows_with_description_witness :
  let n := MkNode "a" "A" (Some "short") [] None in
  let n' := MkNode "b" "B" (Some "a longer description") [] None in
  154 <= estimateSelfHeight {[ "a" ]} n <= estimateSelfHeight {[ "b" ]} n'.
Proof.
  intros n n'.
  refine (proj1 (expanded_estimate_grows_with_description {[ "a" ]} {[ "b" ]} n n'
                   "short" "a longer description" _ _ eq_refl eq_refl _)).
  - set_solver.
  - set_solver.
  - cbn. lia.
Defined.

(** ** What the collision pass never does *)

Lemma applyShiftRec_nondecreasing cm idx fuel : forall a dy ns i,
    (0 <= dy)%Q ->
    (nodeY ns i <= nodeY (applyShiftRec cm idx fuel a dy ns) i)%Q.
Proof.
  induction fuel as [|fuel IH]; intros a dy ns i Hdy; [apply Qle_refl|].
  cbn [applyShiftRec].
  match goal with
  | |- (_ <= nodeY (fold_left ?f ?l ?x) i)%Q =>
      apply (fold_left_preserves (fun y => (nodeY ns i <= nodeY y i)%Q) f l)
  end.
  - intros y k _ Hy. eapply Qle_trans; [exact Hy|]. now apply IH.
  - destruct (idx !! a) as [j|]; [|apply Qle_refl].
    destruct (ns !! j) as [p|] eqn:Hp; [|apply Qle_refl].
    destruct (decide (j = i)) as [->|Hne].
    + rewrite (nodeY_insert_eq ns i p _ Hp). unfold nodeY. rewrite Hp. lra.
    + rewrite nodeY_insert_ne by exact Hne. apply Qle_refl.
Qed.

Lemma collideStep_nondecreasing E cm mind idx fuel acc a i :
  (nodeY (snd acc) i <= nodeY (snd (collideStep E cm mind idx fuel acc a)) i)%Q.
Proof.
  destruct acc as [[v|] ns]; cbn [collideStep snd]; [|apply Qle_refl].
  cbv zeta. destruct (Qltb _ _) eqn:Hcmp; cbn [snd]; [|apply Qle_refl].
  apply Qltb_true in Hcmp. apply applyShiftRec_nondecreasing. lra.
Qed.

(** X9: a collision pass only pushes nodes down: no node ends above
    where it was before the pass. *)
Theorem collision_pass_never_moves_a_node_up
  (E : gset string) (lm : gmap nat (list string)) (cm : gmap string (list string))
  (mind : gmap string MindMapNode) (idx : gmap string nat) (fuel : nat)
  (ns : list FlowNode) (i : nat) :
  (nodeY ns i <= nodeY (runCollisionPass E lm cm mind idx fuel ns) i)%Q.
Proof.
  unfold runCollisionPass.
  match goal with
  | |- (_ <= nodeY (fold_left ?f ?l ?x) i)%Q =>
      apply (fold_left_preserves (fun y => (nodeY ns i <= nodeY y i)%Q) f l)
  end; [|apply Qle_refl].
  intros y lvl _ Hy. eapply Qle_trans; [exact Hy|].
  unfold collideLevel.
  match goal with
  | |- (_ <= nodeY (snd (fold_left ?f ?l ?x)) i)%Q =>
      apply (fold_left_preserves (fun z => (nodeY y i <= nodeY (snd z) i)%Q) f l)
  end; [|apply Qle_refl].
  intros z a _ Hz. eapply Qle_trans; [exact Hz|]. apply collideStep_nondecreasing.
Qed.

(** ** Expansion entries for ids that are not in the forest *)

Lemma runCalls_mind_inv (E : gset string) (isDark : bool) cl a m : forall st,
    idToMindNode (fold_left (runCall E isDark) cl st) !! a = Some m ->
    idToMindNode st !! a = Some m \/ exists c, c ∈ cl /\ callId c = a /\ m = call_node c.
Proof.
  induction cl as [|c cl IH]; intros st H; [now left|].
  cbn [fold_left] in H. apply IH in H. destruct H as [H|[c' (Hc' & Hid & Hm)]].
  - unfold runCall, addSelf in H. cbn [idToMindNode] in H.
    destruct (decide (node_id (call_node c) = a)) as [Heq|Hne].
    + rewrite Heq, lookup_insert_eq in H. injection H as <-.
      right. exists c. split; [left|]. split; [exact Heq|reflexivity].
    + rewrite lookup_insert_ne in H by exact Hne. now left.
  - right. exists c'. split; [now right|auto].
Qed.

Lemma runCollisionPass_heights E E' lm cm mind idx fuel ns :
  (forall a, heightOf E mind a = heightOf E' mind a) ->
  runCollisionPass E lm cm mind idx fuel ns = runCollisionPass E' lm cm mind idx fuel ns.
Proof.
  intros H. unfold runCollisionPass. apply fold_left_ext_in. intros x lvl _.
  unfold collideLevel. f_equal. apply fold_left_ext_in. intros [pb y] a _.
  unfold collideStep. now rewrite H.
Qed.

Section Agreement.

Variable E E' : gset string.
Variable isDark : bool.
Variable roots : list MindMapNode.
Hypothesis agree : forall a, a ∈ forestIds roots -> (a ∈ E <-> a ∈ E').

Lemma agree_estimates m :
  m ∈ forestNodes roots -> estimateSelfHeight E m = estimateSelfHeight E' m.
Proof.
  intros Hm. apply estimateSelfHeight_same_flag. apply agree.
  unfold forestIds. apply list_elem_of_In, in_map. now apply list_elem_of_In.
Qed.

Lemma agree_sized : sizeRoots E roots = sizeRoots E' roots.
Proof. apply sizeRoots_estimates. exact agree_estimates. Qed.

Lemma agree_call_ids c :
  c ∈ rootCalls (sizeRoots E roots) 50 -> (callId c ∈ E <-> callId c ∈ E').
Proof.
  intros Hc. apply agree. rewrite <- (calls_ids E roots).
  apply list_elem_of_In, in_map. now apply list_elem_of_In.
Qed.

Lemma agree_placed : placed E isDark roots = placed E' isDark roots.
Proof.
  rewrite (placed_calls E), (placed_calls E'), <- agree_sized.
  apply fold_left_ext_in. intros st c Hc. unfold runCall, addSelf.
  fold (callId c). now rewrite (bool_decide_ext _ _ (agree_call_ids c Hc)).
Qed.

Lemma agree_heights a :
  heightOf E (idToMindNode (placed E isDark roots)) a =
    heightOf E' (idToMindNode (placed E isDark roots)) a.
Proof.
  unfold heightOf.
  destruct (idToMindNode (placed E isDark roots) !! a) as [m|] eqn:Hm; [|reflexivity].
  rewrite placed_calls in Hm. apply runCalls_mind_inv in Hm.
  destruct Hm as [Hm|(c & Hc & _ & ->)].
  { cbn in Hm. rewrite lookup_empty in Hm. discriminate Hm. }
  f_equal. apply estimateSelfHeight_same_flag. exact (agree_call_ids c Hc).
Qed.

Lemma agree_layout :
  convertMindMapToFlow E isDark roots = convertMindMapToFlow E' isDark roots.
Proof.
  unfold convertMindMapToFlow, afterSecondPass, afterRecenter, afterFirstPass.
  cbv zeta. rewrite <- agree_placed, <- agree_sized.
  rewrite !(runCollisionPass_heights E E' _ _ _ _ _ _ agree_heights).
  reflexivity.
Qed.

End Agreement.

(** X10: the layout reads the expansion set only at the ids of the
    forest: two expansion sets that agree on those ids give the same
    layout, so stale ids left in the set change nothing. *)
Theorem layout_ignores_ids_outside_the_forest
  (E E' : gset string) (isDark : bool) (roots : list MindMapNode) :
  (forall a, a ∈ forestIds roots -> (a ∈ E <-> a ∈ E')) ->
  convertMindMapToFlow E isDark roots = convertMindMapToFlow E' isDark roots.
Proof. intros H. now apply agree_layout. Qed.

Lemma layout_ignores_ids_outside_the_forest_witness :
  convertMindMapToFlow {[ "gone" ]} false onlyChild =
    convertMindMapToFlow ∅ false onlyChild.
Proof.
  apply (layout_ignores_ids_outside_the_forest {[ "gone" ]} ∅ false onlyChild).
  intros a Ha.
  assert (Hne : a <> "gone").
  { intros ->. vm_compute in Ha. set_solver. }
  set_solver.
Defined.

(** ** Shifting a subtree *)

Lemma NoDup_flat_map_member {A B : Type} (g : A -> list B) (cs : list A) (c : A) :
  NoDup (flat_map g cs) -> c ∈ cs -> NoDup (g c).
Proof.
  induction cs as [|x cs IH]; intros Hnd Hc; [inversion Hc|].
  cbn [flat_map] in Hnd. apply NoDup_app in Hnd. destruct Hnd as (Hx & _ & Hcs).
  apply elem_of_cons in Hc. destruct Hc as [->|Hc]; [exact Hx|now apply IH].
Qed.

Lemma walk_subtree_nodup n : forall l l' m,
    (l', m) ∈ walk l n ->
    NoDup (map node_id (nodesOf n)) -> NoDup (map node_id (nodesOf m)).
Proof.
  induction n as [i t d cs r IH] using MindMapNode_ind. intros l l' m Hm Hnd.
  cbn [walk] in Hm. apply elem_of_cons in Hm. destruct Hm as [Heq|Hm].
  - injection Heq as _ ->. exact Hnd.
  - apply list_elem_of_In, in_flat_map in Hm. destruct Hm as [c [Hc Hm]].
    cbn [nodesOf map] in Hnd. apply NoDup_cons in Hnd. destruct Hnd as [_ Hnd].
    rewrite map_flat_map in Hnd.
    rewrite Forall_forall in IH.
    apply (IH c (proj2 (list_elem_of_In _ _) Hc) (S l) l' m);
      [now apply list_elem_of_In|].
    apply (NoDup_flat_map_member (fun a => map node_id (nodesOf a)) cs c Hnd).
    now apply list_elem_of_In.
Qed.

Lemma forestWalk_subtree_nodup roots l m :
  (l, m) ∈ forestWalk roots -> wellFormed roots -> NoDup (map node_id (nodesOf m)).
Proof.
  unfold forestWalk, wellFormed, forestIds, forestNodes. intros Hm Hnd.
  apply list_elem_of_In, in_flat_map in Hm. destruct Hm as [r [Hr Hm]].
  rewrite map_flat_map in Hnd.
  apply (walk_subtree_nodup r 0 l m); [now apply list_elem_of_In|].
  apply (NoDup_flat_map_member (fun a => map node_id (nodesOf a)) roots r Hnd).
  now apply list_elem_of_In.
Qed.

Lemma fold_left_map {A B C : Type} (f : A -> C -> A) (g : B -> C) (l : list B) :
  forall x, fold_left f (map g l) x = fold_left (fun acc b => f acc (g b)) l x.
Proof. induction l as [|b l IH]; intros x; [reflexivity|]. cbn. apply IH. Qed.

Section SubtreeShift.

Variable E : gset string.
Variable isDark : bool.
Variable roots : list MindMapNode.
Hypothesis Hwf : wellFormed roots.
Variable dy : Q.

Local Abbreviation cl := (rootCalls (sizeRoots E roots) 50).
Local Abbreviation st := (placed E isDark roots).
Local Abbreviation W := (forestWalk (sizeRoots E roots)).
Local Abbreviation idx := (indexFrom 0 (newNodes (placed E isDark roots)) ∅).
Local Abbreviation cm := (childrenMap (placed E isDark roots)).

Lemma sized_wellFormed : wellFormed (sizeRoots E roots).
Proof. unfold wellFormed. rewrite forestIds_sized. exact Hwf. Qed.

Lemma walked_node_index l m : (l, m) ∈ W -> is_Some (idx !! node_id m).
Proof.
  intros Hm. destruct (walk_in_calls E roots l m Hm) as [c [Hc Htag]].
  injection Htag as _ Hn. rewrite <- Hn. now apply idx_of_member.
Qed.

Lemma walked_node_kids l m :
  (l, m) ∈ W -> cm !! node_id m = Some (map node_id (node_children m)).
Proof.
  intros Hm. destruct (walk_in_calls E roots l m Hm) as [c [Hc Htag]].
  injection Htag as _ Hn. rewrite <- Hn, placed_calls.
  apply runCalls_childrenMap; [exact (calls_nodup E roots Hwf)|exact Hc].
Qed.

Lemma shift_children fuel : forall cs,
    Forall (fun c => forall ns, inRange idx ns -> forall a j, idx !! a = Some j ->
              nodeY (applyShiftRec cm idx fuel (node_id c) dy ns) j =
                shiftedIf dy (map node_id (nodesOf c)) a ns j) cs ->
    NoDup (map node_id (flat_map nodesOf cs)) ->
    forall ns, inRange idx ns -> forall a j, idx !! a = Some j ->
      nodeY (fold_left (fun acc c => applyShiftRec cm idx fuel (node_id c) dy acc) cs ns) j =
        shiftedIf dy (map node_id (flat_map nodesOf cs)) a ns j.
Proof.
  induction 1 as [|c cs Hc _ IH]; intros Hnd ns Hrange a j Ha.
  - cbn. unfold shiftedIf. destruct (decide _) as [Hin|_]; [inversion Hin|reflexivity].
  - cbn [fold_left flat_map] in *. rewrite map_app in *.
    apply NoDup_app in Hnd. destruct Hnd as (_ & Hdis & Hcs).
    assert (Hr1 : inRange idx (applyShiftRec cm idx fuel (node_id c) dy ns)).
    { intros b k Hb. rewrite applyShiftRec_length. eapply Hrange; eauto. }
    rewrite (IH Hcs _ Hr1 a j Ha).
    unfold shiftedIf at 1.
    rewrite (Hc ns Hrange a j Ha). unfold shiftedIf.
    destruct (decide (a ∈ map node_id (nodesOf c))) as [H1|H1];
      destruct (decide (a ∈ map node_id (flat_map nodesOf cs))) as [H2|H2];
      destruct (decide (a ∈ map node_id (nodesOf c) ++ map node_id (flat_map nodesOf cs)))
        as [H3|H3]; try reflexivity; exfalso;
      first [ exact (Hdis a H1 H2)
            | apply H3; apply elem_of_app; tauto
            | apply elem_of_app in H3; tauto ].
Qed.

Lemma shift_subtree m :
  forall l, (l, m) ∈ W ->
  forall fuel, (length W - l < fuel)%nat ->
  forall ns, inRange idx ns ->
  forall a j, idx !! a = Some j ->
    nodeY (applyShiftRec cm idx fuel (node_id m) dy ns) j =
      shiftedIf dy (map node_id (nodesOf m)) a ns j.
Proof.
  induction m as [i t d cs r IH] using MindMapNode_ind.
  intros l Hm fuel Hfuel ns Hrange a j Ha.
  destruct fuel as [|fuel]; [lia|].
  pose proof (forestWalk_subtree_nodup _ l _ Hm sized_wellFormed) as Hnd.
  cbn [nodesOf map node_id] in Hnd. apply NoDup_cons in Hnd. destruct Hnd as [Hfresh Hnd].
  destruct (walked_node_index l _ Hm) as [ji Hji]. cbn [node_id] in Hji.
  pose proof (walked_node_kids l _ Hm) as Hkids. cbn [node_id node_children] in Hkids.
  cbn [applyShiftRec node_id]. rewrite Hji, Hkids. cbn [default from_option id].
  destruct (lookup_lt_is_Some_2 ns ji (Hrange i ji Hji)) as [p Hp]. rewrite Hp.
  rewrite fold_left_map.
  assert (Hr1 : inRange idx (<[ji := withY p (pos_y (fn_position p) + dy)%Q]> ns)).
  { intros b k Hb. rewrite length_insert. eapply Hrange; eauto. }
  assert (Hall : Forall (fun c => forall ns, inRange idx ns ->
              forall a j, idx !! a = Some j ->
              nodeY (applyShiftRec cm idx fuel (node_id c) dy ns) j =
                shiftedIf dy (map node_id (nodesOf c)) a ns j) cs).
  { rewrite Forall_forall in IH. apply Forall_forall. intros c Hc ns' Hr' a' j' Ha'.
    assert (Hw : (S l, c) ∈ W).
    { apply (forestWalk_children _ l (MkNode i t d cs r) c Hm). exact Hc. }
    pose proof (forestWalk_level_bound _ _ _ Hw).
    apply (IH c Hc (S l) Hw fuel); [lia|exact Hr'|exact Ha']. }
  rewrite (shift_children fuel cs Hall Hnd _ Hr1 a j Ha).
  unfold shiftedIf. cbn [nodesOf map node_id].
  destruct (decide (a = i)) as [->|Hne].
  - assert (j = ji) by congruence. subst j.
    rewrite (nodeY_insert_eq ns ji p _ Hp).
    destruct (decide (i ∈ map node_id (flat_map nodesOf cs))) as [H1|_];
      [contradiction|].
    destruct (decide (i ∈ i :: map node_id (flat_map nodesOf cs))) as [_|H2].
    + unfold nodeY. now rewrite Hp.
    + exfalso. apply H2. left.
  - assert (Hj : ji <> j).
    { intros ->. apply Hne. exact (placed_idx_inj E isDark roots a i j Ha Hji). }
    rewrite nodeY_insert_ne by exact Hj.
    destruct (decide (a ∈ map node_id (flat_map nodesOf cs))) as [H1|H1];
      destruct (decide (a ∈ i :: map node_id (flat_map nodesOf cs))) as [H2|H2];
      try reflexivity.
    + exfalso. apply H2. now right.
    + exfalso. apply elem_of_cons in H2. tauto.
Qed.

End SubtreeShift.

(** X11: in a well-formed forest, shifting at a node moves that node
    and every node of its subtree by exactly [dy] and leaves every other
    node where it is. *)
Theorem subtree_shift_moves_exactly_the_subtree
  (E : gset string) (isDark : bool) (roots : list MindMapNode)
  (m : MindMapNode) (dy : Q) (ns : list FlowNode) (a : string) (j : nat) :
  wellFormed roots ->
  m ∈ forestNodes (sizeRoots E roots) ->
  let st := placed E isDark roots in
  let idx := indexFrom 0 (newNodes st) ∅ in
  length ns = length (newNodes st) ->
  idx !! a = Some j ->
  nodeY (applyShiftRec (childrenMap st) idx (layoutFuel st) (node_id m) dy ns) j =
    if decide (a ∈ map node_id (nodesOf m)) then (nodeY ns j + dy)%Q else nodeY ns j.
Proof.
  intros Hwf Hm st idx Hlen Ha.
  rewrite <- forestWalk_nodes in Hm. apply list_elem_of_In, in_map_iff in Hm.
  destruct Hm as [[l m'] [Heq Hw]]. cbn in Heq. subst m'.
  apply list_elem_of_In in Hw.
  apply (shift_subtree E isDark roots Hwf dy m l Hw).
  - unfold layoutFuel. subst st. rewrite placed_nodes, length_map.
    rewrite <- (calls_tags E roots), length_map. lia.
  - intros b k Hb. rewrite Hlen. exact (placed_inRange E isDark roots b k Hb).
  - exact Ha.
Qed.

Lemma subtree_shift_moves_exactly_the_subtree_witness :
  let st := placed ∅ false leafAndChain in
  let idx := indexFrom 0 (newNodes st) ∅ in
  let ns := applyShiftRec (childrenMap st) idx (layoutFuel st) "P1" 7 (newNodes st) in
  nodeY ns 3 = (nodeY (newNodes st) 3 + 7)%Q.
Proof.
  assert (Hwf : wellFormed leafAndChain).
  { unfold wellFormed. vm_compute. repeat constructor; set_solver. }
  assert (Hm : MkNode "P1" "t" None [MkNode "c1" "t" None [] (Some 100)] (Some 148)
                 ∈ forestNodes (sizeRoots ∅ leafAndChain)).
  { vm_compute. right. right. left. }
  exact (subtree_shift_moves_exactly_the_subtree ∅ false leafAndChain _ 7
           (newNodes (placed ∅ false leafAndChain)) "c1" 3 Hwf Hm eq_refl eq_refl).
Defined.

(** ** The heights and the recursion bound of the passes *)

Lemma heightOf_placed_witness :
  heightOf ∅ (idToMindNode (placed ∅ false onlyChild)) "c" = 100.
Proof.
  assert (Hwf : wellFormed onlyChild).
  { unfold wellFormed. vm_compute. repeat constructor; set_solver. }
  assert (Hm : MkNode "c" "Child" None [] (Some 100) ∈ forestNodes (sizeRoots ∅ onlyChild)).
  { vm_compute. right. left. }
  exact (heightOf_placed ∅ false onlyChild _ Hwf Hm).
Defined.

Lemma layoutFuel_suffices_witness :
  let st := placed ∅ false leafAndChain in
  let idx := indexFrom 0 (newNodes st) ∅ in
  runCollisionPass ∅ (levelMap st) (childrenMap st) (idToMindNode st) idx
    (layoutFuel st + 10) (newNodes st) =
  runCollisionPass ∅ (levelMap st) (childrenMap st) (idToMindNode st) idx
    (layoutFuel st) (newNodes st).
Proof.
  assert (Hwf : wellFormed leafAndChain).
  { unfold wellFormed. vm_compute. repeat constructor; set_solver. }
  exact (layoutFuel_suffices ∅ false leafAndChain 10 _ Hwf).
Defined.

(** ** One poll at a time *)

Section InFlightFacts.

Import Sync.

Variable stringify : MindMapResponse -> string.

Lemma timersHeld_delete s h :
  timersHeld s -> pollingTimeoutRef (refs s) = Some h ->
  delete h (timers (env s)) = ∅.
Proof.
  intros Hheld Hh. apply map_empty. intros h'.
  destruct (decide (h' = h)) as [->|Hne]; [apply lookup_delete_eq|].
  rewrite lookup_delete_ne by congruence.
  destruct (timers (env s) !! h') as [d|] eqn:Hd; [|reflexivity].
  destruct (Hheld h' d Hd) as [Hh' _]. congruence.
Qed.

Lemma timersHeld_none s :
  timersHeld s -> pollingTimeoutRef (refs s) = None -> timers (env s) = ∅.
Proof.
  intros Hheld Hh. apply map_empty. intros h'.
  destruct (timers (env s) !! h') as [d|] eqn:Hd; [|reflexivity].
  destruct (Hheld h' d Hd) as [Hh' _]. congruence.
Qed.

Lemma timersHeld_empty s : timers (env s) = ∅ -> timersHeld s.
Proof. intros H h d Hd. rewrite H, lookup_empty in Hd. discriminate Hd. Qed.

Lemma stopPolling_timers s : timersHeld s -> timers (env (stopPolling s)) = ∅.
Proof.
  intros Hheld. unfold stopPolling, clearPollTimer. cbn.
  destruct (pollingTimeoutRef (refs s)) as [h|] eqn:Hh; cbn.
  - now apply timersHeld_delete.
  - now apply timersHeld_none.
Qed.

Lemma closeEverything_timers s :
  timersHeld s -> timers (env (closeEverything s)) = ∅.
Proof. intros H. unfold closeEverything, dropSocket. cbn. now apply stopPolling_timers. Qed.

Lemma schedule_onePoll s :
  timers (env s) = ∅ -> onePoll (schedule s) 0.
Proof.
  intros He. split; [lia|]. split; [discriminate|].
  unfold schedule. destruct (pollingActiveRef (refs s)).
  - intros h d. cbn. rewrite He. intros Hd.
    apply lookup_insert_Some in Hd.
    destruct Hd as [[<- <-]|[_ Hd]]; [auto|].
    rewrite lookup_empty in Hd. discriminate Hd.
  - now apply timersHeld_empty.
Qed.

Lemma applyResponse_timers r s :
  timers (env (applyResponse stringify r s)) = timers (env s).
Proof. unfold applyResponse. now destruct (bool_decide _). Qed.

Lemma settle_onePoll o s :
  timers (env s) = ∅ -> onePoll (settle stringify o s) 0.
Proof.
  intros He. unfold settle, pollResolved, pollRejected.
  destruct (getMindMap o) as [r|]; [|now apply schedule_onePoll].
  destruct (pollingActiveRef (refs s)).
  - destruct (mind_map r).
    + apply schedule_onePoll. now rewrite applyResponse_timers.
    + split; [lia|]. split; [discriminate|].
      apply timersHeld_empty, stopPolling_timers, timersHeld_empty.
      now rewrite applyResponse_timers.
  - split; [lia|]. split; [discriminate|]. now apply timersHeld_empty.
Qed.

Lemma setMessage_onePoll m b s k : onePoll s k -> onePoll (setMessage m b s) k.
Proof. intros H. exact H. Qed.

Lemma stopped_onePoll s k :
  onePoll s k -> onePoll (dropSocket (stopPolling s)) k.
Proof.
  intros (Hk & _ & Hheld). split; [exact Hk|].
  assert (He : timers (env (dropSocket (stopPolling s))) = ∅)
    by (cbn; now apply stopPolling_timers).
  split; [intros _; exact He|now apply timersHeld_empty].
Qed.

Lemma onProgress_onePoll data s k : onePoll s k -> onePoll (onProgress data s) k.
Proof.
  intros H. unfold onProgress.
  assert (H1 : onePoll match p_message data with
                       | Some m => setMessage m true s
                       | None => s
                       end k) by (destruct (p_message data); exact H).
  destruct (p_completed data) as [[|]|]; [|exact H1|exact H1].
  unfold setShowMessage. apply setMessage_onePoll. now apply stopped_onePoll.
Qed.

Lemma timerFired_onePoll h s k :
  onePoll s k ->
  onePoll (timerFired h s)
    (k + (requests (env (timerFired h s)) - requests (env s))).
Proof.
  intros (Hk & Hone & Hheld). unfold timerFired.
  destruct (timers (env s) !! h) as [d|] eqn:Hd.
  - destruct (Hheld h d Hd) as [Hh _].
    assert (k = 0)%nat as ->.
    { destruct k as [|k]; [reflexivity|]. assert (k = 0)%nat as -> by lia.
      rewrite (Hone eq_refl), lookup_empty in Hd. discriminate Hd. }
    pose proof (timersHeld_delete s h Hheld Hh) as He.
    unfold pollOnce. cbn. destruct (pollingActiveRef (refs s)); cbn; rewrite He.
    + split; [lia|]. split; [reflexivity|]. now apply timersHeld_empty.
    + split; [lia|]. split; [reflexivity|]. now apply timersHeld_empty.
  - replace (k + (requests (env s) - requests (env s)))%nat with k by lia.
    split; [exact Hk|]. split; [exact Hone|exact Hheld].
Qed.

Lemma step_onePoll s k e s' k' :
  onePoll s k -> stepInFlight stringify (s, k) e = Some (s', k') ->
  s' = step stringify s e /\ onePoll s' k'.
Proof.
  intros Hinv Hstep. unfold stepInFlight in Hstep. cbn [fst snd] in Hstep.
  destruct e as [data|h|o|]; cbn [step] in *.
  - injection Hstep as <- <-. split; [reflexivity|].
    rewrite onProgress_requests, Nat.sub_diag, Nat.add_0_r.
    now apply onProgress_onePoll.
  - injection Hstep as <- <-. split; [reflexivity|]. now apply timerFired_onePoll.
  - destruct k as [|k]; [discriminate Hstep|]. injection Hstep as <- <-.
    split; [reflexivity|]. destruct Hinv as (Hk & Hone & _).
    assert (k = 0)%nat as -> by lia. apply settle_onePoll. now apply Hone.
  - injection Hstep as <- <-. split; [reflexivity|].
    rewrite stopPolling_requests, Nat.sub_diag, Nat.add_0_r.
    now apply stopped_onePoll.
Qed.

End InFlightFacts.

(** X14: within one session the loop never holds two polls.  From a
    state with at most one request in flight and no timeout pending
    beside it, every sequence of events in which a request settles only
    after it was issued leads to a state of the same kind: one request
    in flight and no timeout pending, or no request in flight and at
    most the one timeout held in [pollingTimeoutRef], set to the poll
    interval. *)
Theorem polls_never_overlap
  (stringify : MindMapResponse -> string) (es : list Sync.Event) :
  forall (s : Sync.Coordinator) (k : nat) (s' : Sync.Coordinator) (k' : nat),
  onePoll s k ->
  runInFlight stringify (s, k) es = Some (s', k') ->
  s' = Sync.run stringify s es /\ onePoll s' k'.
Proof.
  induction es as [|e es IH]; intros s k s' k' Hinv Hrun.
  - injection Hrun as <- <-. auto.
  - cbn [runInFlight] in Hrun.
    destruct (stepInFlight stringify (s, k) e) as [[s1 k1]|] eqn:Hstep;
      [|discriminate Hrun].
    destruct (step_onePoll stringify s k e s1 k1 Hinv Hstep) as [-> Hinv1].
    exact (IH _ _ _ _ Hinv1 Hrun).
Qed.

Lemma polls_never_overlap_witness :
  let s := Sync.initialFetched inProgress Sync.initial in
  let es :=
    [Sync.Settled (HttpOk inProgress); Sync.TimerFired 1;
     Sync.Settled NetworkError; Sync.TimerFired 2] in
  let s' := Sync.run r_message s es in
  Sync.timers (Sync.env s') = ∅ /\ Sync.requests (Sync.env s') = 3%nat.
Proof.
  intros s es s'.
  assert (Hinv : onePoll s 1).
  { split; [lia|]. split; [reflexivity|]. intros h d Hd. discriminate Hd. }
  assert (Hrun : runInFlight r_message (s, 1%nat) es = Some (s', 1%nat))
    by reflexivity.
  destruct (polls_never_overlap r_message es s 1%nat s' 1%nat Hinv Hrun)
    as (_ & _ & Hone & _).
  split; [exact (Hone eq_refl)|reflexivity].
Defined.

(** X15: closing cancels the pending poll.  When the only timeout
    pending is the held one, [closeEverything] leaves no timeout
    pending, clears the flag, the handle and the socket, keeps the view
    and the request count, and closing again changes nothing. *)
Theorem close_cancels_the_pending_poll (s : Sync.Coordinator) :
  timersHeld s ->
  let closed := Sync.closeEverything s in
  Sync.timers (Sync.env closed) = ∅
  /\ Sync.pollingActiveRef (Sync.refs closed) = false
  /\ Sync.pollingTimeoutRef (Sync.refs closed) = None
  /\ Sync.socketRef (Sync.refs closed) = None
  /\ Sync.view closed = Sync.view s
  /\ Sync.requests (Sync.env closed) = Sync.requests (Sync.env s)
  /\ Sync.closeEverything closed = closed.
Proof.
  intros Hheld closed. subst closed.
  split; [now apply closeEverything_timers|].
  split; [apply closeEverything_inactive|].
  split; [apply closeEverything_timer|].
  split; [reflexivity|].
  split; [unfold Sync.closeEverything, Sync.dropSocket; cbn; apply stopPolling_view|].
  split; [unfold Sync.closeEverything, Sync.dropSocket; cbn; apply stopPolling_requests|].
  destruct s as [v [t a k p] [ts n r]].
  unfold Sync.closeEverything, Sync.dropSocket, Sync.stopPolling, Sync.clearPollTimer,
    Sync.setActive.
  cbn. destruct t; reflexivity.
Qed.

Lemma close_cancels_the_pending_poll_witness :
  let s :=
    Sync.settle r_message (HttpOk inProgress)
      (Sync.initialFetched inProgress Sync.initial) in
  Sync.timers (Sync.env s) <> ∅
  /\ Sync.timers (Sync.env (Sync.closeEverything s)) = ∅.
Proof.
  intros s. split.
  - intros H. assert (Hl : Sync.timers (Sync.env s) !! 1%nat = None)
      by (rewrite H; apply lookup_empty).
    vm_compute in Hl. discriminate Hl.
  - assert (Hheld : timersHeld s).
    { exact (proj2 (proj2 (settle_onePoll r_message (HttpOk inProgress)
                             (Sync.initialFetched inProgress Sync.initial) eq_refl))). }
    exact (proj1 (close_cancels_the_pending_poll s Hheld)).
Defined.

(** ** Responses without a flow, and where the map data comes from *)

(** X16: a response that reports no flow ends the loop.  This covers
    every response that is not ok, which [getMindMap] turns into the
    fallback shape: once it is handled the flag is clear and stays
    clear, and no later event of the session issues a request. *)
Theorem flowless_response_ends_the_loop
  (stringify : MindMapResponse -> string) (s : Sync.Coordinator)
  (o : FetchOutcome) (r : MindMapResponse) (es : list Sync.Event) :
  getMindMap o = Some r ->
  mind_map r = false ->
  let s' := Sync.run stringify (Sync.settle stringify o s) es in
  Sync.pollingActiveRef (Sync.refs s') = false
  /\ Sync.requests (Sync.env s') = Sync.requests (Sync.env s).
Proof.
  intros Ho Hr s'. subst s'.
  assert (Hs : Sync.pollingActiveRef (Sync.refs (Sync.settle stringify o s)) = false
               /\ Sync.requests (Sync.env (Sync.settle stringify o s)) =
                    Sync.requests (Sync.env s)).
  { unfold Sync.settle, Sync.pollResolved. rewrite Ho, Hr.
    destruct (Sync.pollingActiveRef (Sync.refs s)) eqn:Ha.
    - rewrite stopPolling_inactive, stopPolling_requests.
      unfold Sync.applyResponse. destruct (bool_decide _); auto.
    - split; [exact Ha|reflexivity]. }
  destruct Hs as (Ha & Hq).
  destruct (run_inactive stringify es _ Ha) as (Ha' & Hq' & _).
  rewrite Hq', Hq. split; [exact Ha'|reflexivity].
Qed.

Lemma flowless_response_ends_the_loop_witness :
  let s := Sync.initialFetched inProgress Sync.initial in
  let es := [Sync.TimerFired 1; Sync.Settled (HttpOk ready); Sync.TimerFired 2] in
  Sync.requests
    (Sync.env (Sync.run r_message (Sync.settle r_message (HttpError 500) s) es)) = 1%nat.
Proof.
  intros s es.
  exact (proj2 (flowless_response_ends_the_loop r_message s (HttpError 500) _ es
                  eq_refl eq_refl)).
Defined.

Section MapDataFacts.

Import Sync.

Variable stringify : MindMapResponse -> string.

Lemma onProgress_mapData data s :
  mapData (view (onProgress data s)) = mapData (view s).
Proof.
  unfold onProgress.
  destruct (p_completed data) as [[|]|]; destruct (p_message data); cbn;
    rewrite ?stopPolling_view; reflexivity.
Qed.

Lemma step_mapData s e :
  mapData (view (step stringify s e)) = mapData (view s)
  \/ exists o r d,
       e = Settled o /\ getMindMap o = Some r /\ r_status r = Some true
       /\ r_data r = Some d /\ mapData (view (step stringify s e)) = Some d.
Proof.
  destruct e as [data|h|o|]; cbn [step].
  - left. apply onProgress_mapData.
  - left. unfold timerFired. destruct (timers (env s) !! h); [|reflexivity].
    unfold pollOnce. cbn. now destruct (pollingActiveRef (refs s)).
  - unfold settle. destruct (getMindMap o) as [r|] eqn:Ho.
    + unfold pollResolved.
      destruct (pollingActiveRef (refs s)) eqn:Ha; [|now left].
      assert (Hview : forall t, pollingActiveRef (refs t) = true ->
                view (if mind_map r then schedule t else stopPolling t) = view t).
      { intros t Ht. destruct (mind_map r); [|apply stopPolling_view].
        unfold schedule. now rewrite Ht. }
      rewrite Hview by (unfold applyResponse; now destruct (bool_decide _)).
      unfold applyResponse. destruct (bool_decide _); [now left|]. cbn.
      destruct (r_status r) as [[|]|] eqn:Hs; try now left.
      destruct (r_data r) as [d|] eqn:Hd; [|now left].
      right. exists o, r, d. auto.
    + left. unfold pollRejected, schedule.
      now destruct (pollingActiveRef (refs s)).
  - left. unfold closeEverything, dropSocket. cbn. now rewrite stopPolling_view.
Qed.

End MapDataFacts.

(** X17: among the events of a session only a poll that reports a
    ready flow with data writes the map data of the view.  After any
    events it is what it was before, or the data of such a response
    among the events; so a map that is present is never taken away,
    neither by a push event nor by a later response that is not ready
    or carries no data. *)
Theorem map_data_comes_from_ready_responses
  (stringify : MindMapResponse -> string) (es : list Sync.Event) :
  forall s : Sync.Coordinator,
  let s' := Sync.run stringify s es in
  (Sync.mapData (Sync.view s') = Sync.mapData (Sync.view s)
   \/ exists o r d,
        Sync.Settled o ∈ es /\ getMindMap o = Some r /\ r_status r = Some true
        /\ r_data r = Some d /\ Sync.mapData (Sync.view s') = Some d)
  /\ (is_Some (Sync.mapData (Sync.view s)) -> is_Some (Sync.mapData (Sync.view s'))).
Proof.
  assert (Hmain : forall s : Sync.Coordinator,
    Sync.mapData (Sync.view (Sync.run stringify s es)) = Sync.mapData (Sync.view s)
    \/ exists o r d,
        Sync.Settled o ∈ es /\ getMindMap o = Some r /\ r_status r = Some true
        /\ r_data r = Some d
        /\ Sync.mapData (Sync.view (Sync.run stringify s es)) = Some d).
  { induction es as [|e es IH]; intros s; [now left|].
    cbn [Sync.run fold_left]. fold (Sync.run stringify (Sync.step stringify s e) es).
    destruct (IH (Sync.step stringify s e)) as [Heq|(o & r & d & Hin & H1 & H2 & H3 & H4)].
    - rewrite Heq.
      destruct (step_mapData stringify s e) as [Hs|(o & r & d & -> & H1 & H2 & H3 & H4)];
        [now left|].
      right. exists o, r, d. repeat split; auto. left.
    - right. exists o, r, d. repeat split; auto. now right. }
  intros s s'. subst s'. split; [apply Hmain|].
  intros Hsome. destruct (Hmain s) as [->|(o & r & d & _ & _ & _ & _ & ->)]; eauto.
Qed.

(** ** The selection of the word-cloud dialog *)

Section WordCloudFacts.

Import WordCloud.

Lemma filter_ne_absent (d : string) (l : list string) :
  d ∉ l -> filter (fun id => id <> d) l = l.
Proof.
  induction l as [|x l IH]; intros Hd; [reflexivity|].
  apply not_elem_of_cons in Hd. destruct Hd as [Hx Hl].
  rewrite filter_cons_True by congruence. f_equal. now apply IH.
Qed.

Lemma handleDocToggle_elem (d a : string) (prev : list string) :
  a ∈ handleDocToggle d prev <-> (a = d /\ d ∉ prev) \/ (a <> d /\ a ∈ prev).
Proof.
  unfold handleDocToggle. destruct (bool_decide (d ∈ prev)) eqn:Hd.
  - apply bool_decide_eq_true in Hd. rewrite list_elem_of_filter. tauto.
  - apply bool_decide_eq_false in Hd. rewrite elem_of_app, list_elem_of_singleton.
    split.
    + intros [Ha| ->]; [right|left]; split; auto. intros ->. contradiction.
    + intros [[-> _]|[_ Ha]]; auto.
Qed.

Lemma handleDocToggle_NoDup (d : string) (prev : list string) :
  NoDup prev -> NoDup (handleDocToggle d prev).
Proof.
  intros Hnd. unfold handleDocToggle. destruct (bool_decide (d ∈ prev)) eqn:Hd.
  - now apply NoDup_filter.
  - apply bool_decide_eq_false in Hd. apply NoDup_app. split; [exact Hnd|].
    split; [|apply NoDup_singleton].
    intros x Hx Hx'. apply list_elem_of_singleton in Hx'. subst x. contradiction.
Qed.

Lemma handleSelectAll_cases (documents : list Document) (sel : list string) :
  NoDup (map docId documents) -> NoDup sel -> sel ⊆ map docId documents ->
  (map docId documents ⊆ sel -> handleSelectAll documents sel = [])
  /\ (~ map docId documents ⊆ sel -> handleSelectAll documents sel = map docId documents).
Proof.
  intros Hids Hsel Hsub. unfold handleSelectAll. split.
  - intros Hall.
    assert (Hp : sel ≡ₚ map docId documents).
    { apply NoDup_Permutation; auto. intros x. split; [apply Hsub|apply Hall]. }
    apply Permutation_length in Hp. rewrite length_map in Hp.
    apply Nat.eqb_eq in Hp. now rewrite Hp.
  - intros Hnot. destruct (length sel =? length documents)%nat eqn:Hlen; [|reflexivity].
    exfalso. apply Hnot. apply Nat.eqb_eq in Hlen.
    assert (Hp : sel ≡ₚ map docId documents).
    { apply submseteq_length_Permutation.
      - apply NoDup_submseteq; auto.
      - rewrite length_map. lia. }
    intros x Hx. now rewrite Hp.
Qed.

End WordCloudFacts.

(** X18: toggling a document flips that document and no other: after
    [handleDocToggle d] an id is selected exactly when it is [d] and was
    not selected, or is another id and was selected.  A selection
    without repetition stays without repetition, toggling twice gives
    the same selection up to order, and the very same list when [d] was
    not selected (a selected [d] moves to the end). *)
Theorem doc_toggle_flips_one_document (d : string) (prev : list string) :
  (forall a, a ∈ WordCloud.handleDocToggle d prev <->
             (a = d /\ d ∉ prev) \/ (a <> d /\ a ∈ prev))
  /\ (NoDup prev -> NoDup (WordCloud.handleDocToggle d prev))
  /\ (NoDup prev ->
      WordCloud.handleDocToggle d (WordCloud.handleDocToggle d prev) ≡ₚ prev)
  /\ (d ∉ prev ->
      WordCloud.handleDocToggle d (WordCloud.handleDocToggle d prev) = prev)
  /\ (d ∈ prev -> NoDup prev ->
      WordCloud.handleDocToggle d (WordCloud.handleDocToggle d prev) =
        filter (fun id => id <> d) prev ++ [d]).
Proof.
  split; [intros a; apply handleDocToggle_elem|].
  split; [apply handleDocToggle_NoDup|].
  split; [|split].
  - intros Hnd. apply NoDup_Permutation;
      [now apply handleDocToggle_NoDup, handleDocToggle_NoDup|exact Hnd|].
    intros x. rewrite !handleDocToggle_elem.
    destruct (decide (x = d)) as [->|Hne]; destruct (decide (d ∈ prev)); tauto.
  - intros Hd. unfold WordCloud.handleDocToggle at 2.
    rewrite bool_decide_eq_false_2 by exact Hd.
    unfold WordCloud.handleDocToggle.
    rewrite bool_decide_eq_true_2 by (apply elem_of_app; right; left).
    rewrite filter_app, filter_ne_absent by exact Hd.
    rewrite filter_cons_False by (intros H; now apply H).
    rewrite filter_nil. apply app_nil_r.
  - intros Hd Hnd. unfold WordCloud.handleDocToggle at 2.
    rewrite bool_decide_eq_true_2 by exact Hd.
    unfold WordCloud.handleDocToggle.
    rewrite bool_decide_eq_false_2; [reflexivity|].
    rewrite list_elem_of_filter. tauto.
Qed.

(** X19: the select-all button compares lengths only, and on a
    selection that is a repetition-free part of the documents' ids
    (themselves without repetition) this is the right test: it clears a
    selection that holds every document and otherwise selects every
    document. *)
Theorem select_all_toggles_the_whole_list
  (documents : list Document) (sel : list string) :
  NoDup (map docId documents) ->
  NoDup sel ->
  sel ⊆ map docId documents ->
  WordCloud.handleSelectAll documents sel =
    if decide (map docId documents ⊆ sel) then [] else map docId documents.
Proof.
  intros Hids Hsel Hsub.
  destruct (handleSelectAll_cases documents sel Hids Hsel Hsub) as [Hall Hsome].
  destruct (decide (map docId documents ⊆ sel)); auto.
Qed.

Lemma select_all_toggles_the_whole_list_witness :
  let documents :=
    [MkDocument "a" "A" "pdf" "t" "a.pdf"; MkDocument "b" "B" "pdf" "t" "b.pdf"] in
  WordCloud.handleSelectAll documents ["b"] = ["a"; "b"].
Proof.
  intros documents.
  assert (Hids : NoDup (map docId documents)).
  { cbn. repeat constructor; set_solver. }
  assert (Hsel : NoDup ["b"]) by (repeat constructor; set_solver).
  assert (Hsub : ["b"] ⊆ map docId documents) by (cbn; set_solver).
  rewrite (select_all_toggles_the_whole_list documents ["b"] Hids Hsel Hsub).
  reflexivity.
Defined.

(** ** The requests of the word-cloud dialog *)

Section WordCloudRuns.

Import WordCloud.

Variable documents : list Document.

Lemma onMaxWordsChange_range (parsed : option Z) :
  10 <= onMaxWordsChange parsed <= 100000.
Proof. unfold onMaxWordsChange. lia. Qed.

Lemma step_maxWords (s : State) (e : Event) :
  10 <= maxWords s <= 100000 -> 10 <= maxWords (fst (step documents s e)) <= 100000.
Proof.
  intros H. destruct e as [d| |p| |o|b| |]; cbn; try exact H.
  - apply onMaxWordsChange_range.
  - unfold generateWordCloud. destruct (length (selectedDocs s) =? 0)%nat; exact H.
  - destruct o; exact H.
  - destruct b; cbn; [exact H|lia].
Qed.

Lemma step_request (s : State) (e : Event) (r : Request) :
  snd (step documents s e) = Some r ->
  e = Generate /\ selectedDocs s <> [] /\ r = MkRequest (selectedDocs s) (maxWords s).
Proof.
  destruct e as [d| |p| |o|b| |]; cbn; try discriminate.
  unfold generateWordCloud.
  destruct (length (selectedDocs s) =? 0)%nat eqn:Hlen; cbn; [discriminate|].
  intros [= <-]. split; [reflexivity|]. split; [|reflexivity].
  intros Hnil. rewrite Hnil in Hlen. discriminate Hlen.
Qed.

Lemma run_cons (s : State) (e : Event) (es : list Event) :
  run documents s (e :: es) =
    (fst (run documents (fst (step documents s e)) es),
     match snd (step documents s e) with
     | Some r => r :: snd (run documents (fst (step documents s e)) es)
     | None => snd (run documents (fst (step documents s e)) es)
     end).
Proof.
  cbn [run]. destruct (step documents s e) as [s1 req].
  cbn [fst snd]. now destruct (run documents s1 es).
Qed.

Lemma step_selectionOk (s : State) (e : Event) :
  NoDup (map docId documents) ->
  (forall d, e = DocToggle d -> d ∈ map docId documents) ->
  selectionOk documents s -> selectionOk documents (fst (step documents s e)).
Proof.
  intros Hids He [Hnd Hsub].
  destruct e as [d| |p| |o|b| |]; cbn; try (split; assumption).
  - split; [now apply handleDocToggle_NoDup|].
    intros x Hx. apply handleDocToggle_elem in Hx.
    destruct Hx as [[-> _]|[_ Hx]]; [now apply He|now apply Hsub].
  - unfold handleSelectAll.
    destruct (length (selectedDocs s) =? length documents)%nat.
    + split; [constructor|]. intros x Hx. inversion Hx.
    + split; [exact Hids|]. intros x Hx. exact Hx.
  - unfold generateWordCloud.
    destruct (length (selectedDocs s) =? 0)%nat; split; assumption.
  - destruct o; split; assumption.
  - destruct b; cbn; [split; assumption|].
    split; [constructor|]. intros x Hx. inversion Hx.
Qed.

End WordCloudRuns.

(** X20: whatever the user does, every request the dialog posts names at
    least one document and asks for between 10 and 100000 words.  An
    empty selection posts nothing, and the word count is clamped on
    every input (an input of [0] or one that is not a number gives
    1000, not 10). *)
Theorem word_cloud_requests_are_well_formed
  (documents : list Document) (es : list WordCloud.Event) (r : WordCloud.Request) :
  (r ∈ snd (WordCloud.run documents WordCloud.initial es) ->
   WordCloud.document_ids r <> [] /\ 10 <= WordCloud.max_words r <= 100000)
  /\ WordCloud.onMaxWordsChange (Some 0) = 1000
  /\ WordCloud.onMaxWordsChange None = 1000
  /\ (forall v, 10 <= v <= 100000 -> WordCloud.onMaxWordsChange (Some v) = v).
Proof.
  split; [|split; [reflexivity|split; [reflexivity|]]].
  - assert (Hgen : forall s,
        10 <= WordCloud.maxWords s <= 100000 ->
        r ∈ snd (WordCloud.run documents s es) ->
        WordCloud.document_ids r <> [] /\ 10 <= WordCloud.max_words r <= 100000).
    { induction es as [|e es' IH]; intros s Hs Hr; [inversion Hr|].
      rewrite run_cons in Hr. cbn [snd] in Hr.
      pose proof (step_maxWords documents s e Hs) as Hs1.
      destruct (snd (WordCloud.step documents s e)) as [q|] eqn:Hq;
        [|exact (IH _ Hs1 Hr)].
      apply elem_of_cons in Hr. destruct Hr as [->|Hr]; [|exact (IH _ Hs1 Hr)].
      destruct (step_request documents s e q Hq) as (_ & Hne & ->).
      cbn. auto. }
    apply Hgen. cbn. lia.
  - intros v Hv. unfold WordCloud.onMaxWordsChange.
    destruct (v =? 0) eqn:H0; lia.
Qed.

(** X21: when the documents have distinct ids and only documents of the
    list are toggled, the selection stays a part of the documents' ids
    without repetition, and so does the list of ids in every request
    posted. *)
Theorem selection_stays_within_the_documents
  (documents : list Document) (es : list WordCloud.Event) :
  NoDup (map docId documents) ->
  (forall d, WordCloud.DocToggle d ∈ es -> d ∈ map docId documents) ->
  let res := WordCloud.run documents WordCloud.initial es in
  NoDup (WordCloud.selectedDocs (fst res))
  /\ WordCloud.selectedDocs (fst res) ⊆ map docId documents
  /\ forall r, r ∈ snd res ->
       NoDup (WordCloud.document_ids r)
       /\ WordCloud.document_ids r ⊆ map docId documents.
Proof.
  intros Hids Hes res. subst res.
  assert (Hgen : forall s,
      selectionOk documents s ->
      selectionOk documents (fst (WordCloud.run documents s es))
      /\ forall r, r ∈ snd (WordCloud.run documents s es) ->
           NoDup (WordCloud.document_ids r)
           /\ WordCloud.document_ids r ⊆ map docId documents).
  { induction es as [|e es' IH]; intros s Hs.
    - split; [exact Hs|]. intros r Hr. inversion Hr.
    - rewrite run_cons. cbn [fst snd].
      assert (He : forall d, e = WordCloud.DocToggle d -> d ∈ map docId documents).
      { intros d ->. apply Hes. left. }
      pose proof (step_selectionOk documents s e Hids He Hs) as Hs1.
      destruct (IH (fun d Hd => Hes d (list_elem_of_further _ _ _ Hd)) _ Hs1)
        as [Hfin Hreqs].
      split; [exact Hfin|]. intros r Hr.
      destruct (snd (WordCloud.step documents s e)) as [q|] eqn:Hq;
        [|exact (Hreqs r Hr)].
      apply elem_of_cons in Hr. destruct Hr as [->|Hr]; [|exact (Hreqs r Hr)].
      destruct (step_request documents s e q Hq) as (_ & _ & ->).
      exact Hs. }
  destruct (Hgen WordCloud.initial) as [[H1 H2] H3].
  { split; [constructor|]. intros x Hx. inversion Hx. }
  auto.
Qed.

Lemma selection_stays_within_the_documents_witness :
  let documents :=
    [MkDocument "a" "A" "pdf" "t" "a.pdf"; MkDocument "b" "B" "pdf" "t" "b.pdf"] in
  let es :=
    [WordCloud.DocToggle "b"; WordCloud.SelectAll; WordCloud.DocToggle "a";
     WordCloud.Generate] in
  NoDup (WordCloud.selectedDocs (fst (WordCloud.run documents WordCloud.initial es)))
  /\ snd (WordCloud.run documents WordCloud.initial es) =
       [WordCloud.MkRequest ["b"] 1000].
Proof.
  intros documents es.
  assert (Hids : NoDup (map docId documents)).
  { cbn. repeat constructor; set_solver. }
  assert (Hes : forall d, WordCloud.DocToggle d ∈ es -> d ∈ map docId documents).
  { intros d Hd. cbn. subst es.
    repeat (apply elem_of_cons in Hd; destruct Hd as [Hd|Hd];
            [try discriminate Hd; injection Hd as ->; set_solver|]).
    inversion Hd. }
  split; [|reflexivity].
  exact (proj1 (selection_stays_within_the_documents documents es Hids Hes)).
Defined.

(** ** The insights dialog *)

Section InsightsFacts.

Import Insights.

Context {O : Type}.

Implicit Types (m : @Modal O) (e : @Event O) (o : option (@InsightsResponse O)).

Lemma pushProgress_noRepeat (msg : string) (l : list string) :
  noRepeat l -> noRepeat (pushProgress msg l).
Proof.
  intros Hl. unfold pushProgress. destruct (bool_decide (last l = Some msg)) eqn:Hlast;
    [exact Hl|].
  apply bool_decide_eq_false in Hlast. intros i a b Ha Hb.
  destruct (decide (S i < length l)%nat) as [Hlt|Hge].
  - rewrite lookup_app_l in Ha by lia. rewrite lookup_app_l in Hb by lia.
    exact (Hl i a b Ha Hb).
  - assert (Hi : S i = length l).
    { apply lookup_lt_Some in Hb. rewrite length_app in Hb. cbn in Hb. lia. }
    rewrite lookup_app_l in Ha by lia.
    rewrite lookup_app_r in Hb by lia.
    replace (S i - length l)%nat with 0%nat in Hb by lia. cbn in Hb.
    injection Hb as <-. intros ->. apply Hlast.
    rewrite last_lookup. rewrite <- Hi. exact Ha.
Qed.

Lemma noRepeat_nil : noRepeat [].
Proof. intros i a b Ha. discriminate Ha. Qed.

Lemma clearTimer_ui m : ui (clearTimer m) = ui m.
Proof. unfold clearTimer. now destruct (timeoutRef (refs m)). Qed.

Lemma schedulePoll_ui m : ui (schedulePoll m) = ui m.
Proof. unfold schedulePoll. cbn. apply clearTimer_ui. Qed.

Lemma step_noRepeat m e :
  noRepeat (progressMessages (ui m)) ->
  noRepeat (progressMessages (ui (step m e))).
Proof.
  intros H. destruct e as [d| | |doc o|h|o|b|b|]; cbn [step].
  - exact H.
  - exact H.
  - unfold requestInsights. now destruct (negb _).
  - unfold requestSettled. cbn. destruct o as [res|]; [|exact H].
    assert (Hw : forall msg,
               noRepeat (progressMessages (ui (awaitInsights doc msg m)))).
    { intros msg. unfold awaitInsights. rewrite schedulePoll_ui. cbn.
      now apply pushProgress_noRepeat. }
    destruct (i_status res) as [[|]|]; destruct (i_insights res);
      rewrite ?clearTimer_ui; cbn; try exact H;
      repeat match goal with
        | |- context [if ?c then _ else _] => destruct c
        end; auto.
  - unfold timerFired. destruct (timers (env m) !! h); [|exact H]. cbn.
    destruct (pollingActiveRef (refs m)); cbn; [|exact H].
    now destruct (truthy (lastPolledDocRef (refs m))).
  - unfold pollSettled.
    assert (Ha : forall m1, noRepeat (progressMessages (ui m1)) ->
               noRepeat (progressMessages
                 (ui (if pollingActiveRef (refs m1) then schedulePoll m1 else m1)))).
    { intros m1 H1. destruct (pollingActiveRef (refs m1));
        [now rewrite schedulePoll_ui|exact H1]. }
    destruct o as [res|]; [|now apply Ha].
    destruct (i_status res) as [[|]|]; destruct (i_insights res); try exact H;
      destruct (truthy (i_message res)); apply Ha; cbn;
      auto using pushProgress_noRepeat.
  - unfold handleClose. destruct b; [exact H|]. cbn. rewrite clearTimer_ui.
    apply noRepeat_nil.
  - unfold openEffect. destruct b; [exact H|]. now rewrite clearTimer_ui.
  - unfold backToDocuments. cbn. apply noRepeat_nil.
Qed.

(** The timeouts. *)

Lemma held_empty m : timers (env m) = ∅ -> insightsTimerHeld m.
Proof. intros H h d Hd. rewrite H, lookup_empty in Hd. discriminate Hd. Qed.

Lemma clearTimer_timers m :
  insightsTimerHeld m -> timers (env (clearTimer m)) = ∅.
Proof.
  intros Hheld. apply map_empty. intros h'. unfold clearTimer.
  destruct (timeoutRef (refs m)) as [h|] eqn:Hh; cbn.
  - destruct (decide (h' = h)) as [->|Hne]; [apply lookup_delete_eq|].
    rewrite lookup_delete_ne by congruence.
    destruct (timers (env m) !! h') as [d|] eqn:Hd; [|reflexivity].
    destruct (Hheld h' d Hd) as [Hh' _]. congruence.
  - destruct (timers (env m) !! h') as [d|] eqn:Hd; [|reflexivity].
    destruct (Hheld h' d Hd) as [Hh' _]. congruence.
Qed.

Lemma clearTimer_flag m :
  pollingActiveRef (refs (clearTimer m)) = pollingActiveRef (refs m).
Proof. unfold clearTimer. now destruct (timeoutRef (refs m)). Qed.

Lemma clearTimer_calls m : calls (env (clearTimer m)) = calls (env m).
Proof. unfold clearTimer. now destruct (timeoutRef (refs m)). Qed.

Lemma clearTimer_lastPolled m :
  lastPolledDocRef (refs (clearTimer m)) = lastPolledDocRef (refs m).
Proof. unfold clearTimer. now destruct (timeoutRef (refs m)). Qed.

Lemma schedulePoll_held m :
  insightsTimerHeld m ->
  insightsTimerHeld (schedulePoll m)
  /\ exists h, timeoutRef (refs (schedulePoll m)) = Some h
               /\ timers (env (schedulePoll m)) = {[ h := pollInterval ]}.
Proof.
  intros Hheld. pose proof (clearTimer_timers m Hheld) as He.
  unfold schedulePoll. cbn. rewrite He. split.
  - intros h d Hd. cbn in Hd. apply lookup_insert_Some in Hd.
    destruct Hd as [[<- <-]|[_ Hd]]; [auto|].
    rewrite lookup_empty in Hd. discriminate Hd.
  - eexists. split; [reflexivity|]. apply insert_empty.
Qed.

Lemma held_same_timers m m' :
  timers (env m') = timers (env m) ->
  timeoutRef (refs m') = timeoutRef (refs m) ->
  insightsTimerHeld m -> insightsTimerHeld m'.
Proof. intros Ht Hr H h d Hd. rewrite Ht in Hd. rewrite Hr. exact (H h d Hd). Qed.

Lemma again_held m :
  insightsTimerHeld m ->
  insightsTimerHeld (if pollingActiveRef (refs m) then schedulePoll m else m).
Proof.
  intros H. destruct (pollingActiveRef (refs m)); [|exact H].
  now apply schedulePoll_held.
Qed.

Lemma step_held m e : insightsTimerHeld m -> insightsTimerHeld (step m e).
Proof.
  intros H. destruct e as [d| | |doc o|h|o|b|b|]; cbn [step].
  - exact H.
  - exact H.
  - unfold requestInsights. destruct (negb _); exact H.
  - unfold requestSettled.
    apply (held_same_timers
             match o with
             | Some res =>
                 match i_status res, i_insights res with
                 | Some true, Some i =>
                     clearTimer
                       (setActive false
                          (setUi
                             (MkView (selectedDoc (ui m)) (loading (ui m))
                                (message (ui m)) (Some i) display
                                (progressMessages (ui m))) m))
                 | _, _ =>
                     if bool_decide (i_status res = Some false)
                        && truthy (i_message res)
                     then awaitInsights doc (orString (i_message res) "") m
                     else if truthy (i_error res) then m
                     else awaitInsights doc "Generating insights..." m
                 end
             | None => m
             end); [reflexivity|reflexivity|].
    destruct o as [res|]; [|exact H].
    assert (Hw : forall msg, insightsTimerHeld (awaitInsights doc msg m)).
    { intros msg. unfold awaitInsights. apply schedulePoll_held.
      exact H. }
    assert (Hc : forall i,
               insightsTimerHeld
                 (clearTimer
                    (setActive false
                       (setUi
                          (MkView (selectedDoc (ui m)) (loading (ui m))
                             (message (ui m)) (Some i) display
                             (progressMessages (ui m))) m)))).
    { intros i. apply held_empty, clearTimer_timers. exact H. }
    destruct (i_status res) as [[|]|]; destruct (i_insights res); auto;
      repeat match goal with
        | |- context [if ?c then _ else _] => destruct c
        end; auto.
  - unfold timerFired. destruct (timers (env m) !! h) as [d|] eqn:Hd; [|exact H].
    destruct (H h d Hd) as [Hh _].
    assert (He : delete h (timers (env m)) = ∅).
    { apply map_empty. intros h'.
      destruct (decide (h' = h)) as [->|Hne]; [apply lookup_delete_eq|].
      rewrite lookup_delete_ne by congruence.
      destruct (timers (env m) !! h') as [d'|] eqn:Hd'; [|reflexivity].
      destruct (H h' d' Hd') as [Hh' _]. congruence. }
    apply held_empty. cbn.
    destruct (pollingActiveRef (refs m)); cbn; [|exact He].
    destruct (truthy (lastPolledDocRef (refs m))); exact He.
  - unfold pollSettled. destruct o as [res|]; [|now apply again_held].
    destruct (i_status res) as [[|]|]; destruct (i_insights res); try exact H;
      destruct (truthy (i_message res)); apply again_held; exact H.
  - unfold handleClose. destruct b; [exact H|].
    apply held_empty. cbn. apply clearTimer_timers. exact H.
  - unfold openEffect. destruct b; [exact H|].
    apply held_empty, clearTimer_timers. exact H.
  - unfold backToDocuments. apply held_empty. cbn. apply clearTimer_timers. exact H.
Qed.

Lemma step_stopped m e :
  noRequest e -> stopped m ->
  stopped (step m e) /\ calls (env (step m e)) = calls (env m).
Proof.
  intros He [Hf Ht]. pose proof (held_empty m Ht) as Hheld.
  destruct e as [d| | |doc o|h|o|b|b|]; cbn [step]; try contradiction.
  - repeat split; assumption.
  - repeat split; assumption.
  - unfold timerFired. rewrite Ht, lookup_empty. repeat split; assumption.
  - unfold pollSettled. rewrite Hf.
    destruct o as [res|]; [|repeat split; assumption].
    destruct (i_status res) as [[|]|]; destruct (i_insights res);
      try destruct (truthy (i_message res)); cbn; rewrite ?Hf; cbn;
      repeat split; assumption.
  - unfold handleClose. destruct b; [repeat split; assumption|].
    unfold stopped. cbn.
    rewrite clearTimer_flag, clearTimer_calls, clearTimer_timers; auto.
  - unfold openEffect. destruct b; [repeat split; assumption|].
    unfold stopped.
    rewrite clearTimer_flag, clearTimer_calls, clearTimer_timers; auto.
  - unfold backToDocuments, stopped. cbn.
    rewrite clearTimer_flag, clearTimer_calls, clearTimer_timers; auto.
Qed.

End InsightsFacts.

(** X22: the progress log never shows the same line twice in a row.
    Whatever happens to the dialog, if no entry of the log repeats the
    one before it, this is still so afterwards: a message is appended
    only when it differs from the last entry. *)
Theorem progress_log_never_repeats_a_line
  {O : Type} (es : list (@Insights.Event O)) :
  forall m : @Insights.Modal O,
  noRepeat (Insights.progressMessages (Insights.ui m)) ->
  noRepeat (Insights.progressMessages (Insights.ui (Insights.run m es))).
Proof.
  induction es as [|e es IH]; intros m H; [exact H|].
  cbn [Insights.run fold_left]. apply IH. now apply step_noRepeat.
Qed.

Lemma progress_log_never_repeats_a_line_witness :
  let waiting := Insights.MkInsightsResponse (Some false) (@None unit) (Some "working") None in
  let es :=
    [Insights.Toggle "d"; Insights.RequestInsights;
     Insights.RequestSettled "d" (Some waiting); Insights.TimerFired 1;
     Insights.PollSettled (Some waiting)] in
  Insights.progressMessages (Insights.ui (Insights.run Insights.initial es)) = ["working"]
  /\ noRepeat (Insights.progressMessages (Insights.ui (Insights.run Insights.initial es))).
Proof.
  intros waiting es. split; [reflexivity|].
  apply (progress_log_never_repeats_a_line es Insights.initial).
  intros i a b Ha. discriminate Ha.
Defined.

(** X23: the insights dialog never has two poll timeouts pending.  If
    every pending timeout is the one held in [timeoutRef], set to the
    poll interval, then after any events this is still so, and
    therefore any two pending timeouts are the same one:
    [schedulePoll] clears the one it holds before it sets the next. *)
Theorem insights_keeps_one_timeout
  {O : Type} (es : list (@Insights.Event O)) :
  forall m : @Insights.Modal O,
  insightsTimerHeld m ->
  let m' := Insights.run m es in
  insightsTimerHeld m'
  /\ forall h1 h2 d1 d2,
       Insights.timers (Insights.env m') !! h1 = Some d1 ->
       Insights.timers (Insights.env m') !! h2 = Some d2 ->
       h1 = h2 /\ d1 = Insights.pollInterval.
Proof.
  assert (Hrun : forall m : @Insights.Modal O,
             insightsTimerHeld m -> insightsTimerHeld (Insights.run m es)).
  { induction es as [|e es IH]; intros m H; [exact H|].
    cbn [Insights.run fold_left]. apply IH. now apply step_held. }
  intros m H m'. subst m'. split; [now apply Hrun|].
  intros h1 h2 d1 d2 H1 H2.
  destruct (Hrun m H h1 d1 H1) as [Hr1 ->].
  destruct (Hrun m H h2 d2 H2) as [Hr2 _].
  split; [congruence|reflexivity].
Qed.

Lemma insights_keeps_one_timeout_witness :
  let waiting := Insights.MkInsightsResponse (Some false) (@None unit) (Some "working") None in
  let es :=
    [Insights.Toggle "d"; Insights.RequestInsights;
     Insights.RequestSettled "d" (Some waiting);
     Insights.RequestSettled "d" (Some waiting)] in
  Insights.timers (Insights.env (Insights.run Insights.initial es)) !! 2%nat = Some 5000
  /\ insightsTimerHeld (Insights.run Insights.initial es).
Proof.
  intros waiting es. split; [reflexivity|].
  apply (insights_keeps_one_timeout es Insights.initial).
  intros h d Hd. discriminate Hd.
Defined.

(** X24: a stopped dialog stays silent.  After the dialog was closed
    (by [handleClose] or by the [open] property) or left by the back
    button, the flag is clear and no timeout is pending; and as long as
    no new request for insights is made or answered, no event issues a
    request, sets the flag or leaves a timeout pending. *)
Theorem stopped_insights_dialog_stays_silent
  {O : Type} (m : @Insights.Modal O) (stop : @Insights.Event O)
  (es : list (@Insights.Event O)) :
  insightsTimerHeld m ->
  stop = Insights.DialogChange false \/ stop = Insights.OpenProp false
  \/ stop = Insights.BackToDocuments ->
  Forall noRequest es ->
  let m' := Insights.run (Insights.step m stop) es in
  Insights.calls (Insights.env m') = Insights.calls (Insights.env m)
  /\ Insights.pollingActiveRef (Insights.refs m') = false
  /\ Insights.timers (Insights.env m') = ∅.
Proof.
  intros Hheld Hstop Hes m'. subst m'.
  assert (H0 : stopped (Insights.step m stop)
               /\ Insights.calls (Insights.env (Insights.step m stop)) =
                    Insights.calls (Insights.env m)).
  { destruct Hstop as [-> | [-> | ->]]; cbn [Insights.step];
      unfold Insights.handleClose, Insights.openEffect, Insights.backToDocuments,
        stopped; cbn;
      rewrite clearTimer_flag, clearTimer_calls, clearTimer_timers; auto. }
  destruct H0 as [Hs Hc]. rewrite <- Hc. clear Hc Hstop Hheld.
  revert Hs. generalize (Insights.step m stop). clear m.
  induction Hes as [|e es He _ IH]; intros m Hs.
  - destruct Hs as [Hf Ht]. auto.
  - cbn [Insights.run fold_left].
    destruct (step_stopped m e He Hs) as [Hs1 Hc1].
    destruct (IH _ Hs1) as (Hc & Hf & Ht). unfold Insights.run in Hc.
    rewrite Hc, Hc1. auto.
Qed.

Lemma stopped_insights_dialog_stays_silent_witness :
  let waiting := Insights.MkInsightsResponse (Some false) (@None unit) (Some "working") None in
  let m :=
    Insights.run Insights.initial
      [Insights.Toggle "d"; Insights.RequestInsights;
       Insights.RequestSettled "d" (Some waiting); Insights.TimerFired 1] in
  let es := [Insights.PollSettled (Some waiting); Insights.TimerFired 2] in
  Insights.calls (Insights.env m) = [Insights.api.insights "d"; Insights.api.insights "d"]
  /\ Insights.calls
       (Insights.env (Insights.run (Insights.step m (Insights.DialogChange false)) es)) =
     Insights.calls (Insights.env m).
Proof.
  intros waiting m es. split; [reflexivity|].
  assert (Hheld : insightsTimerHeld m).
  { intros h d Hd. discriminate Hd. }
  assert (Hes : Forall noRequest es) by (repeat constructor).
  exact (proj1 (stopped_insights_dialog_stays_silent m (Insights.DialogChange false) es
                  Hheld (or_introl eq_refl) Hes)).
Defined.

(** X25: the answer to a request for insights is handled without a
    look at the flag.  An answer that carries neither insights nor an
    error starts the poll loop for the document the request was made
    for, whatever the state of the dialog, also when the dialog was
    closed while the request was in flight: the flag is set, the
    progress panel is chosen, a timeout is pending, and when it fires a
    request for that document is issued. *)
Theorem late_answer_starts_polling_after_close
  {O : Type} (m : @Insights.Modal O) (doc : string) (res : @Insights.InsightsResponse O) :
  Insights.i_insights res = None ->
  truthy (Insights.i_error res) = false ->
  doc <> "" ->
  let closed := Insights.handleClose false m in
  let m' := Insights.requestSettled doc (Some res) closed in
  Insights.pollingActiveRef (Insights.refs closed) = false
  /\ Insights.pollingActiveRef (Insights.refs m') = true
  /\ Insights.view (Insights.ui m') = Insights.progress
  /\ exists h,
       Insights.timeoutRef (Insights.refs m') = Some h
       /\ Insights.timers (Insights.env m') !! h = Some Insights.pollInterval
       /\ Insights.calls (Insights.env (Insights.timerFired h m')) =
            Insights.calls (Insights.env m) ++ [Insights.callFor doc].
Proof.
  intros Hi He Hdoc closed m'.
  split; [subst closed; unfold Insights.handleClose; cbn; now rewrite clearTimer_flag|].
  assert (Hw : exists msg, m' =
    Insights.setUi
      (Insights.MkView (Insights.selectedDoc (Insights.ui (Insights.awaitInsights doc msg closed)))
         false (Insights.message (Insights.ui (Insights.awaitInsights doc msg closed)))
         (Insights.insights (Insights.ui (Insights.awaitInsights doc msg closed)))
         (Insights.view (Insights.ui (Insights.awaitInsights doc msg closed)))
         (Insights.progressMessages (Insights.ui (Insights.awaitInsights doc msg closed))))
      (Insights.awaitInsights doc msg closed)).
  { subst m'. unfold Insights.requestSettled. rewrite Hi, He.
    destruct (Insights.i_status res) as [[|]|]; cbn [andb bool_decide];
      try (eexists; reflexivity).
    destruct (bool_decide (Some false = Some false) && truthy (Insights.i_message res));
      eexists; reflexivity. }
  destruct Hw as [msg ->].
  assert (Hcalls : Insights.calls (Insights.env closed) = Insights.calls (Insights.env m)).
  { subst closed. unfold Insights.handleClose. cbn. now rewrite clearTimer_calls. }
  clearbody closed.
  unfold Insights.awaitInsights.
  match goal with
  | |- context [Insights.schedulePoll ?x] => set (X := x)
  end.
  split; [cbn; apply clearTimer_flag|].
  split; [cbn; rewrite clearTimer_ui; reflexivity|].
  exists (Insights.nextTimer (Insights.env (Insights.clearTimer X))).
  split; [reflexivity|]. split; [cbn; apply lookup_insert_eq|].
  unfold Insights.timerFired. cbn [Insights.setUi Insights.env Insights.schedulePoll
    Insights.timers Insights.refs Insights.ui Insights.nextTimer Insights.calls
    Insights.pollingActiveRef Insights.lastPolledDocRef].
  rewrite lookup_insert_eq.
  rewrite clearTimer_flag, clearTimer_lastPolled, clearTimer_calls.
  subst X. cbn [Insights.setActive Insights.setLastPolledDoc Insights.setUi
    Insights.refs Insights.env Insights.pollingActiveRef Insights.lastPolledDocRef negb].
  assert (Ht : truthy (Some doc) = true) by (destruct doc; [contradiction|reflexivity]).
  assert (Ho : orString (Some doc) "" = doc) by (destruct doc; [contradiction|reflexivity]).
  rewrite Ht, Ho. cbn. now rewrite Hcalls.
Qed.

Lemma late_answer_starts_polling_after_close_witness :
  let waiting := Insights.MkInsightsResponse (Some false) (@None unit) (Some "working") None in
  let m :=
    Insights.run Insights.initial [Insights.Toggle "d"; Insights.RequestInsights] in
  let m' :=
    Insights.requestSettled "d" (Some waiting) (Insights.handleClose false m) in
  Insights.pollingActiveRef (Insights.refs m') = true
  /\ Insights.view (Insights.ui m') = Insights.progress.
Proof.
  intros waiting m m'.
  destruct (late_answer_starts_polling_after_close m "d" waiting eq_refl eq_refl
              ltac:(discriminate)) as (_ & Hf & Hv & _).
  split; [exact Hf|exact Hv].
Defined.
